(** * WordSeeker: the puzzle generator and the grid interaction tracker

    A shallow embedding of [puzzle_engine.py], of the drag handling of
    [widgets.py] and of the solver entry points of [main.py], with the
    properties the specification states about them.

    Conventions.
    - A Python [int] is a [Z]; a Python [str] is a [list ascii]; a
      one-character string (a grid cell) is an [ascii].
    - A Python exception is [None] in an [option] result.
    - A Python [set] is a [gset]; a [frozenset] of cells is a [gset cell].
    - The grid is a list of rows. Its rows are distinct objects wherever the
      program builds one (the comprehension of [generate_word_search], the
      JSON decoder), so the in-place update [grid[row][col] = x] is modelled
      on the value. *)

From Stdlib Require Import ZArith Lia Ascii String.
From Stdlib Require Import Sorted.
From stdpp Require Import base option list list_numbers gmap sets strings.

Local Open Scope Z_scope.

(** ** Python sequences *)

Module Py.

(** [seq[i]] for a sequence of length [n]: a negative index counts from
    the end, an index outside [-n, n) raises [IndexError]. *)
Definition index (n : nat) (i : Z) : option nat :=
  if bool_decide (0 ≤ i) then
    if bool_decide (i < Z.of_nat n) then Some (Z.to_nat i) else None
  else
    if bool_decide (- Z.of_nat n ≤ i) then Some (Z.to_nat (Z.of_nat n + i))
    else None.

Definition getitem {A} (l : list A) (i : Z) : option A :=
  k ← index (length l) i; l !! k.

Definition setitem {A} (l : list A) (i : Z) (x : A) : option (list A) :=
  k ← index (length l) i; Some (<[k:=x]> l).

(** [s[::-1]] *)
Definition reversed {A} (l : list A) : list A := reverse l.

(** A [str] literal as the list of its characters. *)
Definition str (s : string) : list ascii := list_ascii_of_string s.

End Py.

(** ** Data model *)

Abbreviation word := (list ascii) (only parsing).
Abbreviation cell := (Z * Z)%type (only parsing).
Abbreviation direction := (Z * Z)%type (only parsing).
Abbreviation grid := (list (list ascii)) (only parsing).

(** The blank sentinel [' ']. *)
Definition blank : ascii := " "%char.

(** [grid[row][col]] *)
Definition grid_get (g : grid) (row col : Z) : option ascii :=
  r ← Py.getitem g row; Py.getitem r col.

(** [grid[row][col] = letter] *)
Definition grid_set (g : grid) (row col : Z) (letter : ascii) : option grid :=
  r ← Py.getitem g row;
  r' ← Py.setitem r col letter;
  Py.setitem g row r'.

(** The letter held by the cell [(row, col)] of the grid, for the cells the
    grid has: rows and columns are counted from 0. *)
Definition letter_at (g : grid) (rc : cell) : option ascii :=
  if bool_decide (0 ≤ rc.1 ∧ 0 ≤ rc.2) then
    r ← g !! Z.to_nat rc.1; r !! Z.to_nat rc.2
  else None.

(** constants.py *)
Definition MIN_WORD_LEN : nat := 2.
Definition MAX_WORD_LEN : nat := 15.
Definition MAX_WORDS_COUNT : nat := 15.
Definition MAX_PLACEMENT_ATTEMPTS : nat := 100.
Definition CELL_SIZE : Z := 30.
Definition MIN_GRID_SIZE : Z := 10.
Definition MAX_GRID_SIZE : Z := 25.

Definition DIRECTIONS : list direction :=
  [ (0, 1); (1, 0); (0, -1); (-1, 0); (1, 1); (1, -1); (-1, 1); (-1, -1) ].

(** An entry of [placed_words]: the dict with keys ['word'], ['path'] and
    ['direction']. *)
Record placement := Placement {
  pw_word : word;
  pw_path : list cell;
  pw_direction : direction
}.

(** ** puzzle_engine.py: the deterministic part *)

Module Engine.

(** The body of the [for i, letter in enumerate(word)] loop of
    [can_place_word], from index [i] on. *)
Fixpoint can_place_from (g : grid) (size : Z) (letters : word) (i : Z)
    (start_row start_col dr dc : Z) : option bool :=
  match letters with
  | [] => Some true
  | letter :: rest =>
      let row := start_row + i * dr in
      let col := start_col + i * dc in
      if negb (bool_decide (0 ≤ row < size) && bool_decide (0 ≤ col < size))
      then Some false
      else
        c ← grid_get g row col;
        if bool_decide (c ≠ blank) && bool_decide (c ≠ letter)
        then Some false
        else can_place_from g size rest (i + 1) start_row start_col dr dc
  end.

Definition can_place_word (g : grid) (w : word) (start_row start_col : Z)
    (d : direction) : option bool :=
  let '(dr, dc) := d in
  let size := Z.of_nat (length g) in
  can_place_from g size w 0 start_row start_col dr dc.

(** The loop of [place_word], from index [i] on. *)
Fixpoint place_from (g : grid) (letters : word) (i : Z)
    (start_row start_col dr dc : Z) : option grid :=
  match letters with
  | [] => Some g
  | letter :: rest =>
      let row := start_row + i * dr in
      let col := start_col + i * dc in
      g' ← grid_set g row col letter;
      place_from g' rest (i + 1) start_row start_col dr dc
  end.

Definition place_word (g : grid) (w : word) (start_row start_col : Z)
    (d : direction) : option grid :=
  let '(dr, dc) := d in
  place_from g w 0 start_row start_col dr dc.

Definition get_word_path (w : word) (start_row start_col : Z)
    (d : direction) : list cell :=
  let '(dr, dc) := d in
  (λ i, (start_row + i * dr, start_col + i * dc)) <$>
    seqZ 0 (Z.of_nat (length w)).

End Engine.

(** ** The pseudo-random source

    [random] is modelled as a stream of raw draws read at a position: a
    computation takes the source and returns its result with the source
    advanced past the draws it made, or [None] when it raises. *)

Record rng := Rng { rng_raw : nat → nat; rng_pos : nat }.

Definition Rand (A : Type) : Type := rng → option (A * rng).

Definition ret {A} (a : A) : Rand A := λ s, Some (a, s).

Definition bind {A B} (m : Rand A) (k : A → Rand B) : Rand B :=
  λ s, match m s with
       | Some (a, s') => k a s'
       | None => None
       end.

Definition raise {A} : Rand A := λ _, None.

(** A deterministic step that may raise. *)
Definition lift {A} (o : option A) : Rand A :=
  λ s, match o with Some a => Some (a, s) | None => None end.

Declare Scope rand_scope.
Delimit Scope rand_scope with rand.
Notation "x <~ m ;; k" := (bind m (λ x, k))
  (at level 100, m at next level, right associativity) : rand_scope.

Definition next_raw : Rand nat :=
  λ s, Some (rng_raw s (rng_pos s), Rng (rng_raw s) (S (rng_pos s))).

(** [random.randint(a, b)]: an integer of [[a, b]]; [ValueError] on an
    empty range. *)
Definition randint (a b : Z) : Rand Z :=
  if bool_decide (b < a) then raise
  else (n <~ next_raw ;; ret (a + Z.of_nat n `mod` (b - a + 1)))%rand.

(** [random.choice(seq)]: an element of [seq]; [IndexError] on an empty
    sequence. *)
Definition choice {A} (l : list A) : Rand A :=
  (n <~ next_raw ;; lift (l !! (n `mod` length l)%nat))%rand.

(** ** puzzle_engine.py: generation *)

Module Generator.
Import Engine.
Local Open Scope rand_scope.

Definition ALPHABET : list ascii := Py.str "ABCDEFGHIJKLMNOPQRSTUVWXYZ".

(** [sorted(valid_words, key=len, reverse=True)]: the sort is stable, and
    so is its reverse: of two words of one length the one that comes first
    in the list stays first. *)
Fixpoint insert_by_len (w : word) (l : list word) : list word :=
  match l with
  | [] => [w]
  | h :: t =>
      if bool_decide (length h ≤ length w)%nat then w :: h :: t
      else h :: insert_by_len w t
  end.

Definition sorted_longest_first (l : list word) : list word :=
  foldr insert_by_len [] l.

(** The [while not placed and attempts < MAX_PLACEMENT_ATTEMPTS] loop for
    one word; [budget] is [MAX_PLACEMENT_ATTEMPTS - attempts]. The result
    is [None] when the loop ends with [placed] false, and else the grid
    with the word written and the dict appended to [placed_words]. *)
Fixpoint place_attempts (budget : nat) (grid_size : Z) (g : grid)
    (w : word) : Rand (option (grid * placement)) :=
  match budget with
  | O => ret None
  | S budget' =>
      start_row <~ randint 0 (grid_size - 1) ;;
      start_col <~ randint 0 (grid_size - 1) ;;
      d <~ choice DIRECTIONS ;;
      ok <~ lift (can_place_word g w start_row start_col d) ;;
      if ok : bool then
        g' <~ lift (place_word g w start_row start_col d) ;;
        ret (Some (g', {| pw_word := w;
                          pw_path := get_word_path w start_row start_col d;
                          pw_direction := d |}))
      else place_attempts budget' grid_size g w
  end.

(** The [for word in sorted_words] loop; [None] is the early
    [return None, None]. *)
Fixpoint place_words (grid_size : Z) (g : grid) (placed_words : list placement)
    (ws : list word) : Rand (option (grid * list placement)) :=
  match ws with
  | [] => ret (Some (g, placed_words))
  | w :: ws' =>
      r <~ place_attempts MAX_PLACEMENT_ATTEMPTS grid_size g w ;;
      match r with
      | None => ret None
      | Some (g', p) => place_words grid_size g' (placed_words ++ [p]) ws'
      end
  end.

(** [fill_empty_cells]: the cells are visited row by row, left to right,
    and a letter is drawn for each blank one. *)
Fixpoint fill_row (row : list ascii) : Rand (list ascii) :=
  match row with
  | [] => ret []
  | c :: rest =>
      c' <~ (if bool_decide (c = blank) then choice ALPHABET else ret c) ;;
      rest' <~ fill_row rest ;;
      ret (c' :: rest')
  end.

Fixpoint fill_empty_cells (g : grid) : Rand grid :=
  match g with
  | [] => ret []
  | row :: rows =>
      row' <~ fill_row row ;;
      rows' <~ fill_empty_cells rows ;;
      ret (row' :: rows')
  end.

Definition empty_grid (grid_size : Z) : grid :=
  replicate (Z.to_nat grid_size) (replicate (Z.to_nat grid_size) blank).

(** [generate_word_search]: [Some (g, placed_words)] is the returned pair,
    [None] is [(None, None)]. *)
Definition generate_word_search (grid_size : Z) (words : list word)
    : Rand (option (grid * list placement)) :=
  let valid_words :=
    filter (λ w : word, Z.of_nat (length w) ≤ grid_size) words in
  if bool_decide (length valid_words < length words)%nat then ret None
  else
    let g := empty_grid grid_size in
    let sorted_words := sorted_longest_first valid_words in
    r <~ place_words grid_size g [] sorted_words ;;
    match r with
    | None => ret None
    | Some (g', placed_words) =>
        g'' <~ fill_empty_cells g' ;;
        ret (Some (g'', placed_words))
    end.

End Generator.

(** ** utils.py: word validation

    [str.strip], [str.upper], [str.isalpha] and [str.isupper] are Python's
    own (they follow the Unicode tables); the validator is modelled over
    them. *)

Module Utils.
Section Validate.
Context (strip upper : word → word) (isalpha isupper : word → bool).

(** The [for word in words_list] loop of [validate_words]. *)
Fixpoint validate_loop (validated : list word) (words_list : list word)
    : list word :=
  match words_list with
  | [] => validated
  | raw :: rest =>
      let w := upper (strip raw) in
      if negb (bool_decide (MIN_WORD_LEN ≤ length w ≤ MAX_WORD_LEN)%nat) then
        validate_loop validated rest
      else if negb (isalpha w) || negb (isupper w) then
        validate_loop validated rest
      else if bool_decide (w ∈ upper <$> validated) then
        validate_loop validated rest
      else validate_loop (validated ++ [w]) rest
  end.

Definition validate_words (words_list : list word) : list word :=
  take MAX_WORDS_COUNT (validate_loop [] words_list).

(** What the loop checks of a word before it keeps it. *)
Definition valid_word (w : word) : Prop :=
  (MIN_WORD_LEN ≤ length w ≤ MAX_WORD_LEN)%nat
  ∧ isalpha w = true ∧ isupper w = true.

End Validate.

(** *** Themes

    [themes.json] holds a JSON object from theme names to word lists; a
    missing or corrupt file is [None]. [DEFAULT_THEMES_DATA] is the dict of
    constants.py. *)

Definition DEFAULT_THEMES_DATA : gmap (list ascii) (list (list ascii)) :=
  list_to_map
    [ (Py.str "Halloween",
       Py.str <$> ["GHOST"; "WITCH"; "PUMPKIN"; "SPOOKY"; "ZOMBIE"; "BAT";
                   "COSTUME"; "TRICKORTREAT"]%string);
      (Py.str "Christmas",
       Py.str <$> ["SANTA"; "ELF"; "REINDEER"; "MISTLETOE"; "JINGLEBELLS";
                   "EGGNOG"; "CANDYCANE"; "STOCKING"]%string);
      (Py.str "Faith",
       Py.str <$> ["PRAYER"; "GRACE"; "HOPE"; "FAITH"; "LOVE"; "PEACE";
                   "JOY"; "BIBLE"]%string);
      (Py.str "Motorsports",
       Py.str <$> ["FORMULAONE"; "NASCAR"; "RALLY"; "DRIFT"; "TURBO";
                   "PITSTOP"; "CHECKEREDFLAG"; "SPEEDWAY"]%string) ].

(** [load_themes]: [themes.update(custom_themes)] lets the entry of the
    file win over the default of the same name. *)
Definition load_themes (file : option (gmap (list ascii) (list (list ascii))))
    : gmap (list ascii) (list (list ascii)) :=
  let themes := DEFAULT_THEMES_DATA in
  match file with
  | Some custom_themes => custom_themes ∪ themes
  | None => themes
  end.

(** [save_themes]: the file after the call and the returned flag;
    [writable] is false when [open] raises, which leaves the file as it
    was. *)
Definition save_themes (themes : gmap (list ascii) (list (list ascii)))
    (file : option (gmap (list ascii) (list (list ascii)))) (writable : bool)
    : option (gmap (list ascii) (list (list ascii))) * bool :=
  let custom_themes :=
    filter (λ kv, DEFAULT_THEMES_DATA !! kv.1 = None) themes in
  if writable then (Some custom_themes, true) else (file, false).

End Utils.

(** ** widgets.py: the state of [PuzzleGrid] that the pointer events use *)

Record PuzzleGrid := {
  pg_grid : option grid;                (* [None] before the first puzzle *)
  pg_grid_size : Z;
  is_dragging : bool;
  drag_start_cell : option cell;
  drag_current_cell : option cell;
  current_temp_path : list cell;
  pg_found_paths : gset (gset cell);
  pg_hint_paths : gset (gset cell)
}.

(** What the application shows to its user: the message boxes and the
    status line, in the order they appear. *)
Inductive load_error :=
  | KeyError (key : string)
  | JSONDecodeError
  | IndexError.

Inductive notice :=
  | NoPuzzle
  | NoWordSelected
  | WordSelected (w : word)
  | FoundWordClicked (w : word)
  | AlreadyFound (w : word)
  | HintShown (w : word)
  | WordNotFound (w : word)
  | Found (w : word)
  | PuzzleCompleted
  | PuzzleLoaded
  | LoadFailed (e : load_error).

(** main.py: the state of [WordSearchApp] behind the solver. *)
Record WordSearchApp := {
  grid_size : Z;
  app_grid : option grid;
  words : gset word;
  placed_words : list placement;
  unfound_words : gset word;
  found_words : gset word;
  found_paths : gset (gset cell);
  hint_paths : gset (gset cell);
  selected_word : option word;
  unsaved_changes : bool;
  puzzle_grid : PuzzleGrid;
  notices : list notice
}.

(** The truth value of [self.grid]: [None] and the empty list are false. *)
Definition truthy {A} (g : option (list A)) : bool :=
  match g with
  | Some (_ :: _) => true
  | _ => false
  end.

Module Widgets.

(** The methods that end with [self.redraw()], [set_grid] and the three
    pointer events, are given by the fields they assign; [redraw], which
    assigns none, is the last definition of this module. It raises on a
    grid with a row shorter than the grid has rows and on no other grid;
    the statements that depend on its return say so. *)

Definition with_drag (self : PuzzleGrid) (dragging : bool)
    (start current : option cell) (path : list cell) : PuzzleGrid :=
  {| pg_grid := pg_grid self; pg_grid_size := pg_grid_size self;
     is_dragging := dragging;
     drag_start_cell := start; drag_current_cell := current;
     current_temp_path := path;
     pg_found_paths := pg_found_paths self;
     pg_hint_paths := pg_hint_paths self |}.

(** [set_grid(grid, found_paths=None, hint_paths=None)]; an argument left
    out is [None], and [x or set()] is empty for [None] and for the empty
    set alike. *)
Definition set_grid (self : PuzzleGrid) (g : option grid)
    (found hint : option (gset (gset cell))) : PuzzleGrid :=
  {| pg_grid := g;
     pg_grid_size := if truthy g then Z.of_nat (length (default [] g)) else 15;
     is_dragging := is_dragging self;
     drag_start_cell := drag_start_cell self;
     drag_current_cell := drag_current_cell self;
     current_temp_path := current_temp_path self;
     pg_found_paths := default ∅ found;
     pg_hint_paths := default ∅ hint |}.

(** [get_cell_from_pos]: a scene position is given by its integer part,
    which decides [x // cell_size] for the integer [cell_size]. *)
Definition get_cell_from_pos (self : PuzzleGrid) (pos : Z * Z) : option cell :=
  let '(x, y) := pos in
  let c := x `div` CELL_SIZE in
  let r := y `div` CELL_SIZE in
  if bool_decide (0 ≤ r < pg_grid_size self)
     && bool_decide (0 ≤ c < pg_grid_size self)
  then Some (r, c) else None.

Definition is_valid_drag_path (start end_ : cell) : bool :=
  let '(r1, c1) := start in
  let '(r2, c2) := end_ in
  let dr := r2 - r1 in
  let dc := c2 - c1 in
  bool_decide (dr = 0) || bool_decide (dc = 0)
  || bool_decide (Z.abs dr = Z.abs dc).

Definition get_path_between (self : PuzzleGrid) (start end_ : cell)
    : list cell :=
  let '(r1, c1) := start in
  let '(r2, c2) := end_ in
  let dr := r2 - r1 in
  let dc := c2 - c1 in
  let steps := Z.max (Z.abs dr) (Z.abs dc) in
  if bool_decide (steps = 0) then [start]
  else
    let dr_step := if bool_decide (dr ≠ 0) then dr `div` steps else 0 in
    let dc_step := if bool_decide (dc ≠ 0) then dc `div` steps else 0 in
    filter (λ rc : cell, 0 ≤ rc.1 < pg_grid_size self
                         ∧ 0 ≤ rc.2 < pg_grid_size self)
           ((λ i, (r1 + dr_step * i, c1 + dc_step * i)) <$> seqZ 0 (steps + 1)).

(** [mouseMoveEvent]; [None] is the [TypeError] of unpacking a
    [drag_start_cell] that is [None]. *)
Definition mouseMoveEvent (self : PuzzleGrid) (pos : Z * Z)
    : option PuzzleGrid :=
  if is_dragging self && truthy (pg_grid self) then
    match get_cell_from_pos self pos with
    | Some c =>
        if bool_decide (Some c ≠ drag_current_cell self) then
          start ← drag_start_cell self;
          if is_valid_drag_path start c then
            Some (with_drag self (is_dragging self) (drag_start_cell self)
                    (Some c) (get_path_between self start c))
          else Some self
        else Some self
    | None => Some self
    end
  else Some self.

(** [redraw]: what the scene holds after the call. A cell is drawn as a
    rectangle with its brush and, unless it is blank, its letter; the
    temporary path is drawn as the segments that join the centres of its
    consecutive cells. [None] is the [IndexError] of [self.grid[r][c]]. *)
Inductive brush := bg_color | found_color | hint_color.

Record rect_item := {
  rect_x : Z;
  rect_y : Z;
  rect_brush : brush;
  rect_text : option ascii
}.

Record scene := {
  scene_rects : list rect_item;
  scene_lines : list ((Z * Z) * (Z * Z))
}.

(** The brush of the cell [(r, c)]: the two [for path in ...] loops. *)
Definition cell_brush (self : PuzzleGrid) (rc : cell) : brush :=
  let bg := bg_color in
  let bg :=
    if bool_decide (set_Exists (λ path : gset cell, rc ∈ path)
                      (pg_found_paths self))
    then found_color else bg in
  let bg :=
    if bool_decide (set_Exists (λ path : gset cell, rc ∈ path)
                      (pg_hint_paths self))
    then hint_color else bg in
  bg.

Definition draw_cell (self : PuzzleGrid) (g : grid) (r c : Z)
    : option rect_item :=
  letter ← grid_get g r c;
  Some {| rect_x := c * CELL_SIZE; rect_y := r * CELL_SIZE;
          rect_brush := cell_brush self (r, c);
          rect_text := if bool_decide (letter ≠ blank) then Some letter
                       else None |}.

(** [draw_path]: the centre of a cell is at half a cell from its corner. *)
Fixpoint draw_path (path : list cell) : list ((Z * Z) * (Z * Z)) :=
  match path with
  | (r1, c1) :: (((r2, c2) :: _) as rest) =>
      ((c1 * CELL_SIZE + CELL_SIZE `div` 2, r1 * CELL_SIZE + CELL_SIZE `div` 2),
       (c2 * CELL_SIZE + CELL_SIZE `div` 2, r2 * CELL_SIZE + CELL_SIZE `div` 2))
      :: draw_path rest
  | _ => []
  end.

Definition redraw (self : PuzzleGrid) : option scene :=
  match pg_grid self with
  | Some ((_ :: _) as g) =>
      rows ← mapM (λ r, mapM (λ c, draw_cell self g r c)
                          (seqZ 0 (pg_grid_size self)))
                  (seqZ 0 (pg_grid_size self));
      Some {| scene_rects := concat rows;
              scene_lines := draw_path (current_temp_path self) |}
  | _ => Some {| scene_rects := []; scene_lines := [] |}
  end.

End Widgets.

(** ** main.py: the solver entry points of [WordSearchApp] *)

(** The decoded content of a puzzle file: the JSON object with its four
    top-level keys, each of which may be absent. A cell and a direction are
    two-element lists in JSON and tuples in the program; the model has pairs
    for both, so [tuple(cell)] is the identity on it. *)
Record puzzle_data := {
  pd_grid : option grid;
  pd_words : option (list word);
  pd_placed_words : option (list placement);
  pd_grid_size : option Z
}.

(** What the file dialog and [json.load] give to [load_puzzle]. *)
Inductive chosen_file :=
  | NoFile                          (* the dialog was cancelled *)
  | NotJson                         (* [json.load] raised *)
  | Json (puzzle_data : puzzle_data).

Module App.

Definition notify (self : WordSearchApp) (n : notice) : WordSearchApp :=
  {| grid_size := grid_size self; app_grid := app_grid self;
     words := words self; placed_words := placed_words self;
     unfound_words := unfound_words self; found_words := found_words self;
     found_paths := found_paths self; hint_paths := hint_paths self;
     selected_word := selected_word self;
     unsaved_changes := unsaved_changes self;
     puzzle_grid := puzzle_grid self;
     notices := notices self ++ [n] |}.

Definition with_widget (self : WordSearchApp) (pg : PuzzleGrid)
    : WordSearchApp :=
  {| grid_size := grid_size self; app_grid := app_grid self;
     words := words self; placed_words := placed_words self;
     unfound_words := unfound_words self; found_words := found_words self;
     found_paths := found_paths self; hint_paths := hint_paths self;
     selected_word := selected_word self;
     unsaved_changes := unsaved_changes self;
     puzzle_grid := pg;
     notices := notices self |}.

Definition with_hint_paths (self : WordSearchApp) (h : gset (gset cell))
    : WordSearchApp :=
  {| grid_size := grid_size self; app_grid := app_grid self;
     words := words self; placed_words := placed_words self;
     unfound_words := unfound_words self; found_words := found_words self;
     found_paths := found_paths self; hint_paths := h;
     selected_word := selected_word self;
     unsaved_changes := unsaved_changes self;
     puzzle_grid := puzzle_grid self;
     notices := notices self |}.

Definition with_selected_word (self : WordSearchApp) (w : option word)
    : WordSearchApp :=
  {| grid_size := grid_size self; app_grid := app_grid self;
     words := words self; placed_words := placed_words self;
     unfound_words := unfound_words self; found_words := found_words self;
     found_paths := found_paths self; hint_paths := hint_paths self;
     selected_word := w;
     unsaved_changes := unsaved_changes self;
     puzzle_grid := puzzle_grid self;
     notices := notices self |}.

(** [self.puzzle_grid.set_grid(self.grid, self.found_paths, self.hint_paths)] *)
Definition refresh_widget (self : WordSearchApp) : WordSearchApp :=
  with_widget self
    (Widgets.set_grid (puzzle_grid self) (app_grid self)
       (Some (found_paths self)) (Some (hint_paths self))).

(** The three updates of a match in [on_word_selected]:
    [found_words.add(w)], [found_paths.add(frozenset(path))] and
    [unfound_words.discard(w)]. *)
Definition record_found (self : WordSearchApp) (w : word) (path : list cell)
    : WordSearchApp :=
  {| grid_size := grid_size self; app_grid := app_grid self;
     words := words self; placed_words := placed_words self;
     unfound_words := unfound_words self ∖ {[w]};
     found_words := {[w]} ∪ found_words self;
     found_paths := {[list_to_set path]} ∪ found_paths self;
     hint_paths := hint_paths self;
     selected_word := selected_word self;
     unsaved_changes := unsaved_changes self;
     puzzle_grid := puzzle_grid self;
     notices := notices self |}.

(** One branch of [on_word_selected] after its test succeeded. *)
Definition accept_word (self : WordSearchApp) (w : word) (path : list cell)
    : WordSearchApp :=
  let self1 := notify (refresh_widget (record_found self w path)) (Found w) in
  if bool_decide (unfound_words self1 = ∅) then notify self1 PuzzleCompleted
  else self1.

(** [''.join([self.grid[r][c] for r, c in path])] *)
Definition letters_along (g : option grid) (path : list cell) : option word :=
  g ← g; mapM (λ rc : cell, grid_get g rc.1 rc.2) path.

Definition on_word_selected (self : WordSearchApp) (path : list cell)
    : option WordSearchApp :=
  w ← letters_along (app_grid self) path;
  if bool_decide (w ∈ words self) && bool_decide (w ∉ found_words self)
  then Some (accept_word self w path)
  else
    let word_rev := Py.reversed w in
    if bool_decide (word_rev ∈ words self)
       && bool_decide (word_rev ∉ found_words self)
    then Some (accept_word self word_rev path)
    else Some self.

Definition on_word_clicked (self : WordSearchApp) (w : word) : WordSearchApp :=
  if bool_decide (w ∈ unfound_words self)
  then notify (with_selected_word self (Some w)) (WordSelected w)
  else notify self (FoundWordClicked w).

Definition clear_hints (self : WordSearchApp) : WordSearchApp :=
  refresh_widget (with_hint_paths self ∅).

Definition on_puzzle_clicked (self : WordSearchApp) : WordSearchApp :=
  with_selected_word (clear_hints self) None.

(** The [for word_data in self.placed_words] loop of [give_hint]; [None]
    is the [IndexError] of [path[0]] on an empty path. *)
Fixpoint hint_search (self : WordSearchApp) (w : word)
    (pws : list placement) : option WordSearchApp :=
  match pws with
  | [] => Some (notify self (WordNotFound w))
  | word_data :: rest =>
      if bool_decide (pw_word word_data = w) then
        first ← pw_path word_data !! 0%nat;
        let first_cell_path : gset cell := {[first]} in
        Some (notify (refresh_widget (with_hint_paths self {[first_cell_path]}))
                (HintShown w))
      else hint_search self w rest
  end.

Definition give_hint (self : WordSearchApp) : option WordSearchApp :=
  if negb (truthy (app_grid self)) then Some (notify self NoPuzzle)
  else
    match selected_word self with
    | None | Some [] => Some (notify self NoWordSelected)
    | Some w =>
        if bool_decide (w ∈ found_words self)
        then Some (notify self (AlreadyFound w))
        else hint_search self w (placed_words self)
    end.

(** *** Pointer events. The signals [puzzle_clicked] and [word_selected]
    run their slots ([on_puzzle_clicked], [on_word_selected]) before
    [emit] returns, so press and release are steps of the application.
    The steps are those of the runs in which the [redraw] of the widget
    returns; [None] is the exception of [on_word_selected] or of the
    unpacking of [drag_start_cell]. *)

Definition mousePressEvent (self : WordSearchApp) (left_button : bool)
    (pos : Z * Z) : WordSearchApp :=
  if left_button && truthy (pg_grid (puzzle_grid self)) then
    let self1 := on_puzzle_clicked self in
    match Widgets.get_cell_from_pos (puzzle_grid self1) pos with
    | Some c =>
        with_widget self1
          (Widgets.with_drag (puzzle_grid self1) true (Some c) (Some c) [c])
    | None => self1
    end
  else self.

Definition mouseMoveEvent (self : WordSearchApp) (pos : Z * Z)
    : option WordSearchApp :=
  pg ← Widgets.mouseMoveEvent (puzzle_grid self) pos;
  Some (with_widget self pg).

Definition mouseReleaseEvent (self : WordSearchApp) (left_button : bool)
    : option WordSearchApp :=
  let pg := puzzle_grid self in
  if left_button && is_dragging pg then
    let path := current_temp_path pg in
    let self1 :=
      with_widget self
        (Widgets.with_drag pg false (drag_start_cell pg)
           (drag_current_cell pg) path) in
    self2 ← (match path with
             | [] => Some self1
             | _ :: _ => on_word_selected self1 path
             end);
    let pg2 := puzzle_grid self2 in
    Some (with_widget self2
            (Widgets.with_drag pg2 (is_dragging pg2) (drag_start_cell pg2)
               (drag_current_cell pg2) []))
  else Some self.

(** *** [load_puzzle]. The [try] block decodes the file and assigns the
    fields one after the other; a missing key raises [KeyError] at its
    read, and the handler shows the error box. The block ends with the
    refresh of the controls and of the widget:
    - [size_spin.setValue(self.grid_size)] binds the value to the range
      [MIN_GRID_SIZE, MAX_GRID_SIZE] of the control and, when the value the
      control shows changes, runs [on_size_spin_changed], which assigns the
      bound value to [self.grid_size]; [size_spin] is the value the control
      shows when the file is loaded;
    - [puzzle_grid.set_grid(self.grid)] ends with [redraw], whose
      [IndexError] on a row that is too short the handler catches as any
      other error, after the fields, the solver sets and the widget have
      been assigned. *)

(** The value that the size control shows after [setValue(v)]. *)
Definition bound (v : Z) : Z := Z.max MIN_GRID_SIZE (Z.min MAX_GRID_SIZE v).

Definition with_grid (self : WordSearchApp) (g : grid) : WordSearchApp :=
  {| grid_size := grid_size self; app_grid := Some g;
     words := words self; placed_words := placed_words self;
     unfound_words := unfound_words self; found_words := found_words self;
     found_paths := found_paths self; hint_paths := hint_paths self;
     selected_word := selected_word self;
     unsaved_changes := unsaved_changes self;
     puzzle_grid := puzzle_grid self;
     notices := notices self |}.

Definition with_words (self : WordSearchApp) (ws : gset word) : WordSearchApp :=
  {| grid_size := grid_size self; app_grid := app_grid self;
     words := ws; placed_words := placed_words self;
     unfound_words := unfound_words self; found_words := found_words self;
     found_paths := found_paths self; hint_paths := hint_paths self;
     selected_word := selected_word self;
     unsaved_changes := unsaved_changes self;
     puzzle_grid := puzzle_grid self;
     notices := notices self |}.

Definition with_placed_words (self : WordSearchApp) (pws : list placement)
    : WordSearchApp :=
  {| grid_size := grid_size self; app_grid := app_grid self;
     words := words self; placed_words := pws;
     unfound_words := unfound_words self; found_words := found_words self;
     found_paths := found_paths self; hint_paths := hint_paths self;
     selected_word := selected_word self;
     unsaved_changes := unsaved_changes self;
     puzzle_grid := puzzle_grid self;
     notices := notices self |}.

(** From [self.grid_size = puzzle_data['grid_size']] to the end of the
    [try] block. *)
Definition finish_load (self : WordSearchApp) (size_spin n : Z)
    : WordSearchApp :=
  let pg := Widgets.set_grid (puzzle_grid self) (app_grid self) None None in
  {| grid_size := if bool_decide (bound n = size_spin) then n else bound n;
     app_grid := app_grid self;
     words := words self; placed_words := placed_words self;
     unfound_words := words self; found_words := ∅;
     found_paths := ∅; hint_paths := ∅;
     selected_word := selected_word self;
     unsaved_changes := match Widgets.redraw pg with
                        | Some _ => false
                        | None => unsaved_changes self
                        end;
     puzzle_grid := pg;
     notices := notices self
                ++ [match Widgets.redraw pg with
                    | Some _ => PuzzleLoaded
                    | None => LoadFailed IndexError
                    end] |}.

Definition load_puzzle (self : WordSearchApp) (size_spin : Z)
    (file : chosen_file) : WordSearchApp :=
  match file with
  | NoFile => self
  | NotJson => notify self (LoadFailed JSONDecodeError)
  | Json puzzle_data =>
      match pd_grid puzzle_data with
      | None => notify self (LoadFailed (KeyError "grid"))
      | Some g =>
          let self := with_grid self g in
          match pd_words puzzle_data with
          | None => notify self (LoadFailed (KeyError "words"))
          | Some ws =>
              let self := with_words self (list_to_set ws) in
              match pd_placed_words puzzle_data with
              | None => notify self (LoadFailed (KeyError "placed_words"))
              | Some pws =>
                  let self := with_placed_words self pws in
                  match pd_grid_size puzzle_data with
                  | None => notify self (LoadFailed (KeyError "grid_size"))
                  | Some n => finish_load self size_spin n
                  end
              end
          end
      end
  end.

(** *** [save_puzzle], [clear_all] and [generate]. What these three show to
    the user is their report. *)

Definition with_unsaved_changes (self : WordSearchApp) (b : bool)
    : WordSearchApp :=
  {| grid_size := grid_size self; app_grid := app_grid self;
     words := words self; placed_words := placed_words self;
     unfound_words := unfound_words self; found_words := found_words self;
     found_paths := found_paths self; hint_paths := hint_paths self;
     selected_word := selected_word self;
     unsaved_changes := b;
     puzzle_grid := puzzle_grid self;
     notices := notices self |}.

Definition with_grid_size (self : WordSearchApp) (n : Z) : WordSearchApp :=
  {| grid_size := n; app_grid := app_grid self;
     words := words self; placed_words := placed_words self;
     unfound_words := unfound_words self; found_words := found_words self;
     found_paths := found_paths self; hint_paths := hint_paths self;
     selected_word := selected_word self;
     unsaved_changes := unsaved_changes self;
     puzzle_grid := puzzle_grid self;
     notices := notices self |}.

Inductive save_report :=
  | SaveNoPuzzle                    (* the warning box "No Puzzle" *)
  | SaveCancelled                   (* the file dialog was cancelled *)
  | Saved
  | SaveFailed.

(** [save_puzzle]: the application after the call, the report and the
    object written to the file. [chosen] is false when the file dialog is
    cancelled, [writable] is false when [open] raises. [listed] is what
    [list(self.words)] gives: the words of the set, in the order in which
    the set happens to iterate. *)
Definition save_puzzle (self : WordSearchApp) (listed : list word)
    (chosen writable : bool)
    : WordSearchApp * save_report * option puzzle_data :=
  if negb (truthy (app_grid self)) then (self, SaveNoPuzzle, None)
  else if negb chosen then (self, SaveCancelled, None)
  else if writable then
    (with_unsaved_changes self false, Saved,
     Some {| pd_grid := app_grid self;
             pd_words := Some listed;
             pd_placed_words := Some (placed_words self);
             pd_grid_size := Some (grid_size self) |})
  else (self, SaveFailed, None).

(** [clear_all]; [reply_yes] is the answer to the question box. *)
Definition clear_all (self : WordSearchApp) (reply_yes : bool)
    : WordSearchApp :=
  if reply_yes then
    {| grid_size := grid_size self; app_grid := None;
       words := ∅; placed_words := [];
       unfound_words := ∅; found_words := ∅;
       found_paths := ∅; hint_paths := ∅;
       selected_word := None;
       unsaved_changes := false;
       puzzle_grid := Widgets.set_grid (puzzle_grid self) None None None;
       notices := notices self |}
  else self.

(** [str.split(sep)] for a one-character separator. *)
Fixpoint split (sep : ascii) (s : list ascii) : list (list ascii) :=
  match s with
  | [] => [[]]
  | c :: rest =>
      if bool_decide (c = sep) then [] :: split sep rest
      else match split sep rest with
           | h :: t => (c :: h) :: t
           | [] => [[c]]
           end
  end.

Inductive generate_report :=
  | NoWords
  | InvalidWords
  | GenerationFailed
  | Generated (count : nat).

(** The block "Update state" and "Update UI" of [generate]. *)
Definition show_generated (self : WordSearchApp) (g : grid)
    (validated_words : list word) (placed : list placement) : WordSearchApp :=
  {| grid_size := grid_size self; app_grid := Some g;
     words := list_to_set validated_words; placed_words := placed;
     unfound_words := list_to_set validated_words; found_words := ∅;
     found_paths := ∅; hint_paths := ∅;
     selected_word := selected_word self;
     unsaved_changes := true;
     puzzle_grid := Widgets.set_grid (puzzle_grid self) (Some g) None None;
     notices := notices self |}.

Section Generate.
Context (strip upper : word → word) (isalpha isupper : word → bool).

(** [generate]; [text] is the content of the word box and [size] the
    value of the size control. *)
Definition generate (self : WordSearchApp) (text : word) (size : Z)
    : Rand (WordSearchApp * generate_report) :=
  let words_text := strip text in
  if bool_decide (words_text = []) then ret (self, NoWords)
  else
    let words_list := split "010"%char words_text in
    let validated_words :=
      Utils.validate_words strip upper isalpha isupper words_list in
    if bool_decide (validated_words = []) then ret (self, InvalidWords)
    else
      let self := with_grid_size self size in
      (r <~ Generator.generate_word_search (grid_size self) validated_words ;;
       match r with
       | None => ret (self, GenerationFailed)
       | Some (g, placed) =>
           ret (show_generated self g validated_words placed,
                Generated (length validated_words))
       end)%rand.

End Generate.

(** *** Themes: what [save_as_theme] and [delete_theme] do to
    [self.word_themes] and to [themes.json] once the dialogs have given
    the theme name. *)

Definition save_as_theme (word_themes : gmap (list ascii) (list (list ascii)))
    (file : option (gmap (list ascii) (list (list ascii))))
    (theme_name : list ascii) (validated : list word) (writable : bool)
    : gmap (list ascii) (list (list ascii))
      * option (gmap (list ascii) (list (list ascii))) :=
  if bool_decide (validated = []) then (word_themes, file)
  else
    let word_themes := <[theme_name := validated]> word_themes in
    (word_themes, (Utils.save_themes word_themes file writable).1).

Definition delete_theme (word_themes : gmap (list ascii) (list (list ascii)))
    (file : option (gmap (list ascii) (list (list ascii))))
    (theme_name : list ascii) (writable : bool)
    : gmap (list ascii) (list (list ascii))
      * option (gmap (list ascii) (list (list ascii))) :=
  if bool_decide (is_Some (word_themes !! theme_name)) then
    let word_themes := delete theme_name word_themes in
    (word_themes, (Utils.save_themes word_themes file writable).1)
  else (word_themes, file).

End App.

(** ** The vocabulary of the properties *)

(** What [can_place_word] tests of the cell under the letter of index [i]:
    the cell is within the bounds of the grid, and it is blank or holds
    the letter already. *)
Definition fits (g : grid) (start_row start_col : Z) (d : direction)
    (i : Z) (letter : ascii) : Prop :=
  let row := start_row + i * d.1 in
  let col := start_col + i * d.2 in
  (0 ≤ row < Z.of_nat (length g) ∧ 0 ≤ col < Z.of_nat (length g))
  ∧ (letter_at g (row, col) = Some blank
     ∨ letter_at g (row, col) = Some letter).

(** The source [s] after [n] more draws. *)
Definition advance (s : rng) (n : nat) : rng :=
  Rng (rng_raw s) (rng_pos s + n).

(** One candidate as the loop draws it: a start row, a start column and a
    direction. *)
Definition draw_candidate (grid_size : Z) : Rand (Z * Z * direction) :=
  (start_row <~ randint 0 (grid_size - 1) ;;
   start_col <~ randint 0 (grid_size - 1) ;;
   d <~ choice DIRECTIONS ;;
   ret (start_row, start_col, d))%rand.

(** The candidate of attempt number [k] (from 0) of a loop that starts with
    the source [s]: each attempt makes three draws. *)
Definition candidate (grid_size : Z) (s : rng) (k : nat)
    : option (Z * Z * direction) :=
  fst <$> draw_candidate grid_size (advance s (3 * k)).

(** Attempt number [k] draws a candidate that [can_place_word] refuses. *)
Definition rejected (grid_size : Z) (g : grid) (w : word) (s : rng) (k : nat)
    : Prop :=
  ∃ start_row start_col d,
    candidate grid_size s k = Some (start_row, start_col, d)
    ∧ Engine.can_place_word g w start_row start_col d = Some false.

(** A cell of [g] that holds a letter holds the same letter in [g']. *)
Definition keeps_letters (g g' : grid) : Prop :=
  ∀ rc ch, letter_at g rc = Some ch → ch ≠ blank → letter_at g' rc = Some ch.

(** The placement [p] on the grid [g]: its path has a cell for each letter
    of its word, the cells are within the bounds of the grid, and the grid
    holds the letters of the word along the path. *)
Definition placed_on (g : grid) (p : placement) : Prop :=
  length (pw_path p) = length (pw_word p)
  ∧ (∀ rc, rc ∈ pw_path p →
       0 ≤ rc.1 < Z.of_nat (length g) ∧ 0 ≤ rc.2 < Z.of_nat (length g))
  ∧ (∀ (i : nat) letter, pw_word p !! i = Some letter → letter ≠ blank →
       ∃ rc, pw_path p !! i = Some rc ∧ letter_at g rc = Some letter).

(** The line of the specification: from [start], [max(|Δrow|, |Δcol|)]
    steps of the signs of [Δrow] and [Δcol], both ends included, without
    the cells outside [[0, grid_size)²]. *)
Definition inclusive_line (grid_size : Z) (start end_ : cell) : list cell :=
  let dr := end_.1 - start.1 in
  let dc := end_.2 - start.2 in
  let steps := Z.max (Z.abs dr) (Z.abs dc) in
  filter (λ rc : cell, 0 ≤ rc.1 < grid_size ∧ 0 ≤ rc.2 < grid_size)
         ((λ i, (start.1 + Z.sgn dr * i, start.2 + Z.sgn dc * i))
            <$> seqZ 0 (steps + 1)).

(** [x] is a word of the puzzle that is not found yet. *)
Definition is_target (self : WordSearchApp) (x : word) : Prop :=
  x ∈ words self ∧ x ∉ found_words self.

(** The step from [self] to [self'] marks the word [x] found along [path]:
    the word joins the found words, the path joins the found paths as the
    set of its cells, and the word leaves the unfound words. *)
Definition marks_found (self self' : WordSearchApp) (x : word)
    (path : list cell) : Prop :=
  found_words self' = {[x]} ∪ found_words self
  ∧ found_paths self' = {[list_to_set path]} ∪ found_paths self
  ∧ unfound_words self' = unfound_words self ∖ {[x]}
  ∧ words self' = words self
  ∧ app_grid self' = app_grid self
  ∧ pg_found_paths (puzzle_grid self') = found_paths self'.

(** A file that lacks one of the four required keys. *)
Definition lacks_a_key (pd : puzzle_data) : Prop :=
  pd_grid pd = None ∨ pd_words pd = None
  ∨ pd_placed_words pd = None ∨ pd_grid_size pd = None.

(** The schema of a puzzle file: it has the four keys, its grid has
    [grid_size] rows of [grid_size] cells, the path cells of its
    placements are cells of [[0, grid_size)²] and their directions are
    among the eight. *)
Definition obeys_schema (pd : puzzle_data) : Prop :=
  ∃ g ws pws n,
    pd = {| pd_grid := Some g; pd_words := Some ws;
            pd_placed_words := Some pws; pd_grid_size := Some n |}
    ∧ length <$> g = replicate (Z.to_nat n) (Z.to_nat n)
    ∧ Forall (λ p, Forall (λ rc : cell, 0 ≤ rc.1 < n ∧ 0 ≤ rc.2 < n)
                     (pw_path p)
                   ∧ pw_direction p ∈ DIRECTIONS) pws.

(** A malformed file: it is not JSON, or its content breaks the schema,
    by a missing key, a coordinate out of range or otherwise. *)
Definition malformed (file : chosen_file) : Prop :=
  match file with
  | NoFile => False
  | NotJson => True
  | Json pd => ¬ obeys_schema pd
  end.

(** The rows of the grid are as long as the grid has rows, or longer:
    [redraw] reads the cells of index below [len(grid)] of each row. *)
Definition drawable (g : grid) : Prop :=
  Forall (λ row : list ascii, (length g ≤ length row)%nat) g.

(** The step from [self] to [self'] shows a load error and nothing else. *)
Definition load_error_shown (self self' : WordSearchApp) : Prop :=
  ∃ e, notices self' = notices self ++ [LoadFailed e].

(** The solver sets of [self'] are those of [self]. *)
Definition solver_sets_kept (self self' : WordSearchApp) : Prop :=
  unfound_words self' = unfound_words self
  ∧ found_words self' = found_words self
  ∧ found_paths self' = found_paths self
  ∧ hint_paths self' = hint_paths self.

(** The puzzle state of [self'] is that of [self]. *)
Definition puzzle_state_kept (self self' : WordSearchApp) : Prop :=
  app_grid self' = app_grid self
  ∧ words self' = words self
  ∧ placed_words self' = placed_words self
  ∧ grid_size self' = grid_size self
  ∧ solver_sets_kept self self'.

(** The number of blank cells of a grid. *)
Definition blank_cells (g : grid) : nat :=
  length (filter (λ c, c = blank) (concat g)).

(** The placement [p] is a straight line of a grid of side [grid_size]: its
    path is what [get_word_path] gives for its word from a start cell of
    the grid along its direction, one of [DIRECTIONS]. *)
Definition straight (grid_size : Z) (p : placement) : Prop :=
  ∃ start_row start_col,
    0 ≤ start_row < grid_size ∧ 0 ≤ start_col < grid_size
    ∧ pw_direction p ∈ DIRECTIONS
    ∧ pw_path p
      = Engine.get_word_path (pw_word p) start_row start_col (pw_direction p).


(** The list without the repetitions of an element after its first
    occurrence. *)
Fixpoint first_occurrences {A} `{EqDecision A} (l : list A) : list A :=
  match l with
  | [] => []
  | x :: l => x :: filter (λ y, y ≠ x) (first_occurrences l)
  end.

(** The cell [rc] is a cell of a grid of side [grid_size]. *)
Definition within (grid_size : Z) (rc : cell) : Prop :=
  0 ≤ rc.1 < grid_size ∧ 0 ≤ rc.2 < grid_size.

(** The cell at [k] steps of the vector [d] from [start]. *)
Definition move (start : cell) (k : Z) (d : direction) : cell :=
  (start.1 + k * d.1, start.2 + k * d.2).

(** The drag of the widget goes from [start] to [current]: the two cells
    are cells of the grid on one line, and the temporary path is the path
    between them. *)
Definition drag_line (self : PuzzleGrid) (start current : cell) : Prop :=
  drag_start_cell self = Some start
  ∧ drag_current_cell self = Some current
  ∧ within (pg_grid_size self) start
  ∧ within (pg_grid_size self) current
  ∧ Widgets.is_valid_drag_path start current = true
  ∧ current_temp_path self = Widgets.get_path_between self start current.

(** The pointer moves over the positions of a list, one after the other. *)
Fixpoint pointer_moves (self : WordSearchApp) (positions : list (Z * Z))
    : option WordSearchApp :=
  match positions with
  | [] => Some self
  | pos :: rest =>
      self' ← App.mouseMoveEvent self pos; pointer_moves self' rest
  end.

(** The application shows the grid [g]: it is the grid of the application
    and the grid of the widget, which counts its rows. *)
Definition shows (self : WordSearchApp) (g : grid) : Prop :=
  app_grid self = Some g
  ∧ pg_grid (puzzle_grid self) = Some g
  ∧ pg_grid_size (puzzle_grid self) = Z.of_nat (length g).

(** The scene position of the corner of the square of a cell, where
    [redraw] puts its rectangle. *)
Definition corner (rc : cell) : Z * Z :=
  (rc.2 * CELL_SIZE, rc.1 * CELL_SIZE).

(** A drag: the left button is pressed at [pos1], the pointer moves to
    [pos2] and the button is released. *)
Definition drag (self : WordSearchApp) (pos1 pos2 : Z * Z)
    : option WordSearchApp :=
  self' ← App.mouseMoveEvent (App.mousePressEvent self true pos1) pos2;
  App.mouseReleaseEvent self' true.

(** The drags from the first to the last cell of each placement of a
    list, one after the other. *)
Fixpoint drag_each (self : WordSearchApp) (ps : list placement)
    : option WordSearchApp :=
  match ps with
  | [] => Some self
  | p :: rest =>
      first ← head (pw_path p);
      last_ ← last (pw_path p);
      self' ← drag self (corner first) (corner last_);
      drag_each self' rest
  end.

(** The step from [self] to [self'] adds notices, and says that the puzzle
    is completed if it leaves no unfound word where there was one. *)
Definition reports_completion (self self' : WordSearchApp) : Prop :=
  ∃ extra, notices self' = notices self ++ extra
    ∧ (unfound_words self' = ∅ →
       unfound_words self = ∅ ∨ PuzzleCompleted ∈ extra).

(** The solver state of the application is consistent: the found words
    are words of the puzzle, the unfound words are the other words of the
    puzzle, and the widget has the found paths and the hint paths of the
    application. *)
Definition consistent (self : WordSearchApp) : Prop :=
  found_words self ⊆ words self
  ∧ unfound_words self = words self ∖ found_words self
  ∧ pg_found_paths (puzzle_grid self) = found_paths self
  ∧ pg_hint_paths (puzzle_grid self) = hint_paths self.

(** ** Sample data *)

Module Sample.

(** A linear congruential source and a source of zeros. *)
Definition lcg : rng := Rng (λ n, (n * 37 + 13) `mod` 101)%nat 0.
Definition zeros : rng := Rng (λ _, 0%nat) 0.

Definition CAT : word := Py.str "CAT".
Definition DOG : word := Py.str "DOG".
Definition TAC : word := Py.str "TAC".

Definition rows : grid :=
  Py.str <$> ["CATDOG"; "QWERTY"; "ASDFGH"; "ZXCVBN"; "POIUYT"; "LKJHGF"]%string.

Definition placements : list placement :=
  [ {| pw_word := CAT; pw_path := [(0, 0); (0, 1); (0, 2)];
       pw_direction := (0, 1) |};
    {| pw_word := DOG; pw_path := [(0, 3); (0, 4); (0, 5)];
       pw_direction := (0, 1) |} ].

(** The widget showing [rows], with a drag that started at [start] and
    whose path is [path]. *)
Definition widget (start : cell) (path : list cell) : PuzzleGrid :=
  {| pg_grid := Some rows; pg_grid_size := 6;
     is_dragging := true;
     drag_start_cell := Some start; drag_current_cell := Some start;
     current_temp_path := path;
     pg_found_paths := ∅; pg_hint_paths := ∅ |}.

(** The application on the puzzle [rows] with nothing found, the word
    [selected] chosen in the list and an old hint on the cell (3,3). *)
Definition app (ws : gset word) (selected : option word) (pg : PuzzleGrid)
    : WordSearchApp :=
  {| grid_size := 6; app_grid := Some rows;
     words := ws; placed_words := placements;
     unfound_words := ws; found_words := ∅;
     found_paths := ∅; hint_paths := {[ {[ (3, 3) ]} ]};
     selected_word := selected;
     unsaved_changes := true;
     puzzle_grid := pg;
     notices := [] |}.

(** The application during a game on [rows]. *)
Definition playing : WordSearchApp :=
  app {[CAT; DOG]} None (widget (0, 0) []).

(** A puzzle file whose placement has a path cell outside the grid. *)
Definition file_with_outside_path : puzzle_data :=
  {| pd_grid := Some (Py.str <$> ["AB"; "CD"]%string);
     pd_words := Some [Py.str "AB"];
     pd_placed_words :=
       Some [ {| pw_word := Py.str "AB"; pw_path := [(0, 0); (0, 7)];
                 pw_direction := (0, 1) |} ];
     pd_grid_size := Some 2 |}.

(** A puzzle file whose grid has a row shorter than the number of rows. *)
Definition file_with_short_row : puzzle_data :=
  {| pd_grid := Some (Py.str <$> ["AB"; "C"]%string);
     pd_words := Some [Py.str "AB"];
     pd_placed_words :=
       Some [ {| pw_word := Py.str "AB"; pw_path := [(0, 0); (0, 1)];
                 pw_direction := (0, 1) |} ];
     pd_grid_size := Some 2 |}.

(** A puzzle file without the key ['placed_words']. *)
Definition file_without_placed_words : puzzle_data :=
  {| pd_grid := Some (Py.str <$> ["AB"; "CD"]%string);
     pd_words := Some [Py.str "AB"];
     pd_placed_words := None;
     pd_grid_size := Some 2 |}.

(** [str.strip], [str.upper], [str.isalpha] and [str.isupper] on ASCII
    strings. *)
Definition is_upper_letter (c : ascii) : bool :=
  bool_decide (65 ≤ nat_of_ascii c ≤ 90)%nat.

Definition is_lower_letter (c : ascii) : bool :=
  bool_decide (97 ≤ nat_of_ascii c ≤ 122)%nat.

Definition is_space (c : ascii) : bool :=
  bool_decide (nat_of_ascii c = 32 ∨ 9 ≤ nat_of_ascii c ≤ 13)%nat.

Fixpoint lstrip (w : list ascii) : list ascii :=
  match w with
  | [] => []
  | c :: rest => if is_space c then lstrip rest else w
  end.

Definition strip (w : list ascii) : list ascii :=
  reverse (lstrip (reverse (lstrip w))).

Definition upper (w : list ascii) : list ascii :=
  (λ c, if is_lower_letter c then ascii_of_nat (nat_of_ascii c - 32) else c)
    <$> w.

Definition isalpha (w : list ascii) : bool :=
  bool_decide (w ≠ [])
  && forallb (λ c, is_upper_letter c || is_lower_letter c) w.

Definition isupper (w : list ascii) : bool :=
  existsb is_upper_letter w && negb (existsb is_lower_letter w).

(** The application that shows [rows] with nothing found and no hint. *)
Definition fresh : WordSearchApp :=
  {| grid_size := 6; app_grid := Some rows;
     words := {[CAT; DOG]};
     placed_words := placements;
     unfound_words := {[CAT; DOG]}; found_words := ∅;
     found_paths := ∅; hint_paths := ∅;
     selected_word := None;
     unsaved_changes := true;
     puzzle_grid := widget (0, 0) [];
     notices := [] |}.

End Sample.

(** * Properties *)

(** ** Python indexing on the cells a grid has *)

Section Indexing.
Context {A : Type}.
Implicit Types (l : list A) (i : Z).

Lemma getitem_nonneg l i : 0 ≤ i → Py.getitem l i = l !! Z.to_nat i.
Proof.
  intros Hi. unfold Py.getitem, Py.index.
  rewrite bool_decide_eq_true_2 by done.
  case_bool_decide as Hlt; simpl; [done|].
  symmetry. apply lookup_ge_None. lia.
Qed.

Lemma setitem_nonneg l i x :
  0 ≤ i → is_Some (l !! Z.to_nat i) →
  Py.setitem l i x = Some (<[Z.to_nat i := x]> l).
Proof.
  intros Hi [y Hy]. apply lookup_lt_Some in Hy.
  unfold Py.setitem, Py.index.
  rewrite bool_decide_eq_true_2 by done.
  rewrite bool_decide_eq_true_2 by lia. done.
Qed.
End Indexing.

Lemma grid_get_letter_at (g : grid) (row col : Z) :
  0 ≤ row → 0 ≤ col → grid_get g row col = letter_at g (row, col).
Proof.
  intros Hr Hc. unfold grid_get, letter_at. simpl.
  rewrite bool_decide_eq_true_2 by done.
  rewrite getitem_nonneg by done.
  destruct (g !! Z.to_nat row) as [r|]; simpl; [|done].
  by apply getitem_nonneg.
Qed.

(** Writing a cell the grid has: the cell takes the letter, every other
    cell keeps its own. *)
Lemma grid_set_letter_at (g : grid) (row col : Z) (x : ascii) :
  0 ≤ row → 0 ≤ col → is_Some (letter_at g (row, col)) →
  ∃ g', grid_set g row col x = Some g'
        ∧ length <$> g' = length <$> g
        ∧ letter_at g' (row, col) = Some x
        ∧ ∀ rc, rc ≠ (row, col) → letter_at g' rc = letter_at g rc.
Proof.
  intros Hr Hc [y Hy]. unfold letter_at in Hy. simpl in Hy.
  rewrite bool_decide_eq_true_2 in Hy by done.
  destruct (g !! Z.to_nat row) as [r|] eqn:Hrow; simpl in Hy; [|done].
  exists (<[Z.to_nat row := <[Z.to_nat col := x]> r]> g).
  assert (Z.to_nat row < length g)%nat by by eapply lookup_lt_Some.
  assert (Z.to_nat col < length r)%nat by by eapply lookup_lt_Some.
  split; [|split; [|split]].
  - unfold grid_set. rewrite getitem_nonneg, Hrow by done. simpl.
    rewrite setitem_nonneg by eauto. simpl.
    rewrite setitem_nonneg by eauto. done.
  - rewrite list_fmap_insert, length_insert.
    apply list_insert_id. by rewrite list_lookup_fmap, Hrow.
  - unfold letter_at. simpl. rewrite bool_decide_eq_true_2 by done.
    rewrite list_lookup_insert_eq by done. simpl.
    by rewrite list_lookup_insert_eq.
  - intros [r' c'] Hne. unfold letter_at. simpl.
    case_bool_decide as Hpos; [|done]. destruct Hpos as [Hr' Hc'].
    destruct (decide (Z.to_nat r' = Z.to_nat row)) as [Heq|Hneq].
    + rewrite Heq, list_lookup_insert_eq, Hrow by done. simpl.
      apply list_lookup_insert_ne. intros Hcc. apply Hne.
      f_equal; lia.
    + by rewrite list_lookup_insert_ne.
Qed.

(** ** [can_place_word] *)

Section CanPlace.
Import Engine.

Lemma can_place_from_true g letters i start_row start_col dr dc :
  can_place_from g (Z.of_nat (length g)) letters i start_row start_col dr dc
    = Some true
  ↔ ∀ (j : nat) letter, letters !! j = Some letter →
      fits g start_row start_col (dr, dc) (i + Z.of_nat j) letter.
Proof.
  revert i. induction letters as [|letter rest IH]; intros i; simpl.
  { split; [intros _ j x Hj; by rewrite lookup_nil in Hj | done]. }
  set (row := start_row + i * dr). set (col := start_col + i * dc).
  split.
  - intros Hrun.
    destruct (bool_decide (0 ≤ row < Z.of_nat (length g))) eqn:Hr;
      destruct (bool_decide (0 ≤ col < Z.of_nat (length g))) eqn:Hc;
      simpl in Hrun; try done.
    apply bool_decide_eq_true_1 in Hr, Hc.
    rewrite grid_get_letter_at in Hrun by lia.
    destruct (letter_at g (row, col)) as [c|] eqn:Hcell; simpl in Hrun;
      [|done].
    destruct (bool_decide (c ≠ blank) && bool_decide (c ≠ letter)) eqn:Hc';
      [done|].
    intros [|j] x Hj; simpl in Hj.
    + injection Hj as <-. unfold fits. simpl.
      replace (i + Z.of_nat 0) with i by lia. fold row col.
      split; [done|]. rewrite Hcell.
      apply andb_false_iff in Hc' as [Hb|Hb];
        apply bool_decide_eq_false_1 in Hb;
        apply dec_stable in Hb; subst c; auto.
    + replace (i + Z.of_nat (S j)) with (i + 1 + Z.of_nat j) by lia.
      eapply IH; eauto.
  - intros Hall.
    destruct (Hall 0%nat letter eq_refl) as [[Hr Hc] Hcell].
    simpl in Hr, Hc, Hcell.
    replace (i + Z.of_nat 0) with i in * by lia. fold row col in Hr, Hc, Hcell.
    rewrite !bool_decide_eq_true_2 by done. simpl.
    rewrite grid_get_letter_at by lia.
    assert (∃ c, letter_at g (row, col) = Some c ∧ (c = blank ∨ c = letter))
      as (c & -> & Hc') by (destruct Hcell as [->| ->]; eauto).
    simpl.
    assert (bool_decide (c ≠ blank) && bool_decide (c ≠ letter) = false) as ->.
    { apply andb_false_iff. destruct Hc' as [->| ->];
        [left|right]; by apply bool_decide_eq_false_2; intros []. }
    apply IH. intros j x Hj.
    replace (i + 1 + Z.of_nat j) with (i + Z.of_nat (S j)) by lia.
    by apply Hall.
Qed.

Lemma can_place_word_true_iff_aux g (w : word) start_row start_col dr dc :
  can_place_word g w start_row start_col (dr, dc) = Some true
  ↔ ∀ (i : nat) letter, w !! i = Some letter →
      fits g start_row start_col (dr, dc) (Z.of_nat i) letter.
Proof.
  unfold can_place_word.
  rewrite can_place_from_true. by setoid_rewrite Z.add_0_l.
Qed.

(** C5. [can_place_word] returns [True] if and only if every cell the
    word would occupy lies within the bounds of the grid and is blank or
    already holds the letter of the word that falls on it. *)
Theorem can_place_word_true_iff (g : grid) (w : word)
    (start_row start_col : Z) (d : direction) :
  can_place_word g w start_row start_col d = Some true
  ↔ ∀ (i : nat) (letter : ascii), w !! i = Some letter →
      fits g start_row start_col d (Z.of_nat i) letter.
Proof.
  destruct d as [dr dc]. apply can_place_word_true_iff_aux.
Qed.

End CanPlace.

(** ** [place_word] *)

Section PlaceWord.
Import Engine.

Lemma DIRECTIONS_nonzero d : d ∈ DIRECTIONS → d ≠ (0, 0).
Proof.
  intros Hd ->. apply list_elem_of_In in Hd. simpl in Hd.
  intuition discriminate.
Qed.

(** Along a direction other than the null vector two indices fall on one
    cell only when they are equal. *)
Lemma path_cell_inj (start_row start_col dr dc a b : Z) :
  (dr, dc) ≠ (0, 0) →
  (start_row + a * dr, start_col + a * dc)
    = (start_row + b * dr, start_col + b * dc) →
  a = b.
Proof.
  intros Hd [= Hr Hc].
  destruct (decide (dr = 0)) as [->|Hdr].
  - destruct (decide (dc = 0)) as [->|Hdc]; [done|]. nia.
  - nia.
Qed.

Lemma elem_of_get_word_path (w : word) start_row start_col dr dc (rc : cell) :
  rc ∈ get_word_path w start_row start_col (dr, dc)
  ↔ ∃ j : nat, (j < length w)%nat
      ∧ rc = (start_row + Z.of_nat j * dr, start_col + Z.of_nat j * dc).
Proof.
  unfold get_word_path. rewrite list_elem_of_fmap. split.
  - intros (i & -> & Hi). apply elem_of_seqZ in Hi.
    exists (Z.to_nat i). split; [lia|]. by rewrite Z2Nat.id by lia.
  - intros (j & Hj & ->). exists (Z.of_nat j). split; [done|].
    apply elem_of_seqZ. lia.
Qed.

Lemma lookup_get_word_path (w : word) start_row start_col dr dc (i : nat) rc :
  get_word_path w start_row start_col (dr, dc) !! i = Some rc
  ↔ (i < length w)%nat
    ∧ rc = (start_row + Z.of_nat i * dr, start_col + Z.of_nat i * dc).
Proof.
  unfold get_word_path. rewrite list_lookup_fmap.
  destruct (seqZ 0 (Z.of_nat (length w)) !! i) as [k|] eqn:Hk; simpl.
  - apply lookup_seqZ in Hk as [-> Hlt]. rewrite Z.add_0_l.
    split; [intros [= <-]; split; [lia|done] | intros [_ ->]; done].
  - split; [done|]. intros [Hlt _].
    apply lookup_ge_None in Hk. rewrite length_seqZ in Hk. lia.
Qed.

Lemma length_get_word_path (w : word) start_row start_col d :
  length (get_word_path w start_row start_col d) = length w.
Proof.
  destruct d. unfold get_word_path.
  rewrite length_fmap, length_seqZ. lia.
Qed.

(** The loop of [place_word] on cells that the grid has: a cell of the
    path ends with the letter of the last index that falls on it. *)
Lemma place_from_cells g letters i start_row start_col dr dc :
  (∀ (j : nat) letter, letters !! j = Some letter →
     0 ≤ start_row + (i + Z.of_nat j) * dr
     ∧ 0 ≤ start_col + (i + Z.of_nat j) * dc
     ∧ is_Some (letter_at g (start_row + (i + Z.of_nat j) * dr,
                             start_col + (i + Z.of_nat j) * dc))) →
  ∃ g', place_from g letters i start_row start_col dr dc = Some g'
    ∧ length <$> g' = length <$> g
    ∧ (∀ (j : nat) letter, letters !! j = Some letter →
         (∀ k : nat, (j < k < length letters)%nat →
            (start_row + (i + Z.of_nat k) * dr,
             start_col + (i + Z.of_nat k) * dc)
            ≠ (start_row + (i + Z.of_nat j) * dr,
               start_col + (i + Z.of_nat j) * dc)) →
         letter_at g' (start_row + (i + Z.of_nat j) * dr,
                       start_col + (i + Z.of_nat j) * dc) = Some letter)
    ∧ (∀ rc, (∀ j : nat, (j < length letters)%nat →
                rc ≠ (start_row + (i + Z.of_nat j) * dr,
                      start_col + (i + Z.of_nat j) * dc)) →
         letter_at g' rc = letter_at g rc).
Proof.
  revert g i.
  induction letters as [|letter rest IH]; intros g i Hcells; simpl.
  { exists g. split; [done|]. split; [done|]. split; [|done].
    intros j x Hj. by rewrite lookup_nil in Hj. }
  destruct (Hcells 0%nat letter eq_refl) as (Hr & Hc & Hsome).
  replace (i + Z.of_nat 0) with i in * by lia.
  destruct (grid_set_letter_at g _ _ letter Hr Hc Hsome)
    as (g1 & Hset & Hlen1 & Hnew & Hother).
  rewrite Hset. simpl.
  destruct (IH g1 (i + 1)) as (g' & Hrun & Hlen & Hpath & Hframe).
  { intros j x Hj.
    destruct (Hcells (S j) x Hj) as (Hr' & Hc' & Hsome').
    replace (i + Z.of_nat (S j)) with (i + 1 + Z.of_nat j) in * by lia.
    split; [done|]. split; [done|].
    destruct (decide ((start_row + (i + 1 + Z.of_nat j) * dr,
                       start_col + (i + 1 + Z.of_nat j) * dc)
                      = (start_row + i * dr, start_col + i * dc)))
      as [Heq|Hne].
    - rewrite Heq, Hnew. by eexists.
    - by rewrite Hother. }
  exists g'. split; [done|]. split; [congruence|]. split.
  - intros [|j] x Hj Hlast; simpl in Hj.
    + injection Hj as <-. replace (i + Z.of_nat 0) with i in * by lia.
      rewrite Hframe; [done|]. intros j Hj Heq.
      apply (Hlast (S j)); [simpl; lia|].
      replace (i + Z.of_nat (S j)) with (i + 1 + Z.of_nat j) by lia.
      by rewrite Heq.
    + replace (i + Z.of_nat (S j)) with (i + 1 + Z.of_nat j) by lia.
      apply Hpath; [done|]. intros k Hk.
      specialize (Hlast (S k)).
      replace (i + Z.of_nat (S k)) with (i + 1 + Z.of_nat k) in Hlast by lia.
      replace (i + Z.of_nat (S j)) with (i + 1 + Z.of_nat j) in Hlast by lia.
      apply Hlast. simpl. lia.
  - intros rc Hrc. rewrite Hframe.
    + apply Hother. specialize (Hrc 0%nat).
      replace (i + Z.of_nat 0) with i in Hrc by lia.
      apply Hrc. simpl. lia.
    + intros j Hj.
      replace (i + 1 + Z.of_nat j) with (i + Z.of_nat (S j)) by lia.
      apply Hrc. simpl. lia.
Qed.

(** [place_word] after a successful [can_place_word], along any vector. *)
Lemma place_word_last_write g (w : word) start_row start_col dr dc :
  can_place_word g w start_row start_col (dr, dc) = Some true →
  ∃ g', place_word g w start_row start_col (dr, dc) = Some g'
    ∧ length <$> g' = length <$> g
    ∧ (∀ (i : nat) letter, w !! i = Some letter →
         (∀ k : nat, (i < k < length w)%nat →
            (start_row + Z.of_nat k * dr, start_col + Z.of_nat k * dc)
            ≠ (start_row + Z.of_nat i * dr, start_col + Z.of_nat i * dc)) →
         letter_at g' (start_row + Z.of_nat i * dr,
                       start_col + Z.of_nat i * dc) = Some letter)
    ∧ (∀ rc, rc ∉ get_word_path w start_row start_col (dr, dc) →
         letter_at g' rc = letter_at g rc).
Proof.
  intros Hcan.
  pose proof (proj1 (can_place_word_true_iff_aux g w start_row start_col dr dc) Hcan)
    as Hfits.
  destruct (place_from_cells g w 0 start_row start_col dr dc)
    as (g' & Hrun & Hlen & Hpath & Hframe).
  { intros j x Hj. rewrite Z.add_0_l.
    destruct (Hfits j x Hj) as [[Hr Hc] Hcell]. simpl in *.
    split; [lia|]. split; [lia|]. destruct Hcell as [->| ->]; eauto. }
  exists g'. split; [done|]. split; [done|]. split.
  - intros i x Hi Hlast. specialize (Hpath i x Hi).
    rewrite Z.add_0_l in Hpath. apply Hpath. intros k Hk.
    rewrite !Z.add_0_l. by apply Hlast.
  - intros rc Hrc. apply Hframe. intros j Hj ->. apply Hrc.
    apply elem_of_get_word_path. exists j. by rewrite Z.add_0_l.
Qed.

(** Along a direction, that is any vector but the null one, the cells of
    the path are distinct and each holds its letter. *)
Lemma place_word_after_check g (w : word) start_row start_col dr dc :
  (dr, dc) ≠ (0, 0) →
  can_place_word g w start_row start_col (dr, dc) = Some true →
  ∃ g', place_word g w start_row start_col (dr, dc) = Some g'
    ∧ length <$> g' = length <$> g
    ∧ (∀ (i : nat) letter, w !! i = Some letter →
         letter_at g' (start_row + Z.of_nat i * dr,
                       start_col + Z.of_nat i * dc) = Some letter)
    ∧ (∀ rc, rc ∉ get_word_path w start_row start_col (dr, dc) →
         letter_at g' rc = letter_at g rc).
Proof.
  intros Hd Hcan.
  destruct (place_word_last_write g w start_row start_col dr dc Hcan)
    as (g' & Hrun & Hshape & Hpath & Hframe).
  exists g'. split; [done|]. split; [done|]. split; [|done].
  intros i x Hi. apply Hpath; [done|].
  intros k Hk Heq. apply path_cell_inj in Heq; [lia|done].
Qed.

(** C10. After a successful [can_place_word], [place_word] returns; the
    cell [(start_row + i*dr, start_col + i*dc)] holds [word[i]] for every
    index [i] of the word on whose cell no later index falls, which is every
    index along a direction (two indices fall on one cell for the null
    vector only); and every cell that is not on that path holds the letter
    it held before the call. *)
Theorem place_word_writes_path_only (g : grid) (w : word)
    (start_row start_col : Z) (d : direction) :
  can_place_word g w start_row start_col d = Some true →
  ∃ g', place_word g w start_row start_col d = Some g'
    ∧ (∀ (i : nat) letter, w !! i = Some letter →
         (∀ k : nat, (i < k < length w)%nat →
            (start_row + Z.of_nat k * d.1, start_col + Z.of_nat k * d.2)
            ≠ (start_row + Z.of_nat i * d.1, start_col + Z.of_nat i * d.2)) →
         letter_at g' (start_row + Z.of_nat i * d.1,
                       start_col + Z.of_nat i * d.2) = Some letter)
    ∧ (d ≠ (0, 0) →
       ∀ (i : nat) letter, w !! i = Some letter →
         letter_at g' (start_row + Z.of_nat i * d.1,
                       start_col + Z.of_nat i * d.2) = Some letter)
    ∧ (∀ rc, rc ∉ get_word_path w start_row start_col d →
         letter_at g' rc = letter_at g rc).
Proof.
  intros Hcan. destruct d as [dr dc].
  destruct (place_word_last_write g w start_row start_col dr dc Hcan)
    as (g' & Hrun & _ & Hpath & Hframe).
  exists g'. split; [done|]. split; [done|]. split; [|done].
  intros Hd i x Hi. apply Hpath; [done|].
  intros k Hk Heq. apply path_cell_inj in Heq; [lia|done].
Qed.

End PlaceWord.

(** ** The random source *)

Section RandomSource.

Lemma advance_0 s : advance s 0 = s.
Proof. destruct s. unfold advance. simpl. f_equal. lia. Qed.

Lemma advance_advance s n m : advance (advance s n) m = advance s (n + m).
Proof. unfold advance. simpl. f_equal. lia. Qed.

Lemma bind_Some {A B} (m : Rand A) (k : A → Rand B) s b s' :
  bind m k s = Some (b, s')
  ↔ ∃ a s1, m s = Some (a, s1) ∧ k a s1 = Some (b, s').
Proof.
  unfold bind. destruct (m s) as [[a s1]|].
  - split; [eauto|]. by intros (? & ? & [= <- <-] & ?).
  - split; [done|]. by intros (? & ? & ? & ?).
Qed.

Lemma ret_Some {A} (a b : A) s s' : ret a s = Some (b, s') ↔ a = b ∧ s = s'.
Proof. unfold ret. split; [by intros [= -> ->] | by intros [-> ->]]. Qed.

Lemma lift_Some {A} (o : option A) s a s' :
  lift o s = Some (a, s') ↔ o = Some a ∧ s = s'.
Proof.
  unfold lift. destruct o as [a'|].
  - split; [by intros [= -> ->] | by intros [[= ->] ->]].
  - split; [done | by intros [? _]].
Qed.

Lemma next_raw_Some s n s' :
  next_raw s = Some (n, s') ↔ n = rng_raw s (rng_pos s) ∧ s' = advance s 1.
Proof.
  unfold next_raw, advance.
  replace (rng_pos s + 1)%nat with (S (rng_pos s)) by lia.
  split; [by intros [= <- <-] | by intros [-> ->]].
Qed.

Lemma randint_Some a b s x s' :
  randint a b s = Some (x, s') → a ≤ x ≤ b ∧ s' = advance s 1.
Proof.
  unfold randint. case_bool_decide as Hab; [done|].
  intros (n & s1 & (-> & ->)%next_raw_Some & [<- <-]%ret_Some)%bind_Some.
  split; [|done].
  pose proof (Z.mod_pos_bound (Z.of_nat (rng_raw s (rng_pos s))) (b - a + 1)).
  lia.
Qed.

Lemma randint_total a b s :
  a ≤ b → ∃ x, randint a b s = Some (x, advance s 1).
Proof.
  intros Hab. unfold randint. rewrite bool_decide_eq_false_2 by lia.
  eexists. unfold bind, next_raw, ret, advance.
  by replace (rng_pos s + 1)%nat with (S (rng_pos s)) by lia.
Qed.

Lemma choice_Some {A} (l : list A) s x s' :
  choice l s = Some (x, s') → x ∈ l ∧ s' = advance s 1.
Proof.
  unfold choice.
  intros (n & s1 & (-> & ->)%next_raw_Some & [Hx <-]%lift_Some)%bind_Some.
  split; [|done]. by eapply list_elem_of_lookup_2.
Qed.

Lemma choice_total {A} (l : list A) s :
  l ≠ [] → ∃ x, choice l s = Some (x, advance s 1).
Proof.
  intros Hl. unfold choice, bind, next_raw, lift.
  destruct (lookup_lt_is_Some_2 l (rng_raw s (rng_pos s) `mod` length l)%nat)
    as [x Hx].
  { apply Nat.mod_upper_bound. by destruct l. }
  exists x. rewrite Hx. unfold advance.
  by replace (rng_pos s + 1)%nat with (S (rng_pos s)) by lia.
Qed.

End RandomSource.

(** ** The retry loop of the generator *)

Section RetryLoop.
Import Engine Generator.

Lemma draw_candidate_Some grid_size s start_row start_col d s' :
  draw_candidate grid_size s = Some (start_row, start_col, d, s') →
  s' = advance s 3
  ∧ 0 ≤ start_row < grid_size ∧ 0 ≤ start_col < grid_size
  ∧ d ∈ DIRECTIONS.
Proof.
  unfold draw_candidate.
  intros (r & s1 & [Hr ->]%randint_Some & Hrest)%bind_Some.
  apply bind_Some in Hrest as (c & s2 & [Hc ->]%randint_Some & Hrest).
  apply bind_Some in Hrest as (d' & s3 & [Hd ->]%choice_Some & Hrest).
  apply ret_Some in Hrest as [[= -> -> ->] <-].
  rewrite !advance_advance. split; [done|]. split; [lia|]. split; [lia|done].
Qed.

Lemma draw_candidate_total grid_size s :
  0 < grid_size → is_Some (draw_candidate grid_size s).
Proof.
  intros Hsize. unfold draw_candidate, bind.
  destruct (randint_total 0 (grid_size - 1) s) as [r ->]; [lia|].
  destruct (randint_total 0 (grid_size - 1) (advance s 1)) as [c ->]; [lia|].
  destruct (choice_total DIRECTIONS (advance (advance s 1) 1)) as [d ->];
    [done|].
  by eexists.
Qed.

(** One turn of the [while] loop. *)
Lemma place_attempts_S budget grid_size g (w : word) s :
  place_attempts (S budget) grid_size g w s =
  match draw_candidate grid_size s with
  | None => None
  | Some (start_row, start_col, d, s1) =>
      match can_place_word g w start_row start_col d with
      | None => None
      | Some true =>
          match place_word g w start_row start_col d with
          | None => None
          | Some g' =>
              Some (Some (g', {| pw_word := w;
                                 pw_path := get_word_path w start_row start_col d;
                                 pw_direction := d |}), s1)
          end
      | Some false => place_attempts budget grid_size g w s1
      end
  end.
Proof.
  simpl. unfold draw_candidate, bind.
  destruct (randint 0 (grid_size - 1) s) as [[r s1]|]; [|done].
  destruct (randint 0 (grid_size - 1) s1) as [[c s2]|]; [|done].
  destruct (choice DIRECTIONS s2) as [[d s3]|]; [|done].
  unfold ret, lift.
  destruct (can_place_word g w r c d) as [[]|]; [|done..].
  by destruct (place_word g w r c d).
Qed.

Lemma candidate_0 grid_size s :
  candidate grid_size s 0 = fst <$> draw_candidate grid_size s.
Proof. unfold candidate. by rewrite advance_0. Qed.

Lemma candidate_S grid_size s k :
  candidate grid_size s (S k) = candidate grid_size (advance s 3) k.
Proof.
  unfold candidate. rewrite advance_advance.
  by replace (3 + 3 * k)%nat with (3 * S k)%nat by lia.
Qed.

Lemma rejected_S grid_size g (w : word) s k :
  rejected grid_size g w s (S k) ↔ rejected grid_size g w (advance s 3) k.
Proof. unfold rejected. by setoid_rewrite candidate_S. Qed.

(** The loop ends with [placed] false exactly when each of its [budget]
    candidates is refused; it has then made [3 * budget] draws. *)
Lemma place_attempts_None budget grid_size g (w : word) s s' :
  place_attempts budget grid_size g w s = Some (None, s')
  ↔ (∀ k, (k < budget)%nat → rejected grid_size g w s k)
    ∧ s' = advance s (3 * budget).
Proof.
  revert s. induction budget as [|budget IH]; intros s.
  { simpl. rewrite ret_Some, advance_0.
    split; [intros [_ <-]; split; [lia|done] | by intros [_ ->]]. }
  rewrite place_attempts_S. split.
  - destruct (draw_candidate grid_size s) as [[[[r c] d] s1]|] eqn:Hdraw;
      [|done].
    pose proof (draw_candidate_Some _ _ _ _ _ _ Hdraw) as (-> & _).
    destruct (can_place_word g w r c d) as [[]|] eqn:Hcan; [|..|done].
    { by destruct (place_word g w r c d). }
    intros [Hrej ->]%IH. split.
    + intros [|k] Hk.
      * exists r, c, d. by rewrite candidate_0, Hdraw.
      * apply rejected_S, Hrej. lia.
    + rewrite advance_advance. f_equal. lia.
  - intros [Hrej ->].
    destruct (Hrej 0%nat) as (r & c & d & Hcand & Hcan); [lia|].
    rewrite candidate_0 in Hcand.
    destruct (draw_candidate grid_size s) as [[[[r' c'] d'] s1]|] eqn:Hdraw;
      [|done].
    injection Hcand as -> -> ->.
    pose proof (draw_candidate_Some _ _ _ _ _ _ Hdraw) as (-> & _).
    rewrite Hcan. apply IH. split.
    + intros k Hk. apply rejected_S, Hrej. lia.
    + rewrite advance_advance. f_equal. lia.
Qed.

(** The loop ends with [placed] true at the first candidate that
    [can_place_word] accepts. *)
Lemma place_attempts_Some budget grid_size g (w : word) s g' p s' :
  place_attempts budget grid_size g w s = Some (Some (g', p), s') →
  ∃ (n : nat) start_row start_col d,
    (n < budget)%nat
    ∧ (∀ k, (k < n)%nat → rejected grid_size g w s k)
    ∧ candidate grid_size s n = Some (start_row, start_col, d)
    ∧ 0 ≤ start_row < grid_size ∧ 0 ≤ start_col < grid_size
    ∧ d ∈ DIRECTIONS
    ∧ can_place_word g w start_row start_col d = Some true
    ∧ place_word g w start_row start_col d = Some g'
    ∧ p = {| pw_word := w;
             pw_path := get_word_path w start_row start_col d;
             pw_direction := d |}
    ∧ s' = advance s (3 * S n).
Proof.
  revert s. induction budget as [|budget IH]; intros s; [done|].
  rewrite place_attempts_S.
  destruct (draw_candidate grid_size s) as [[[[r c] d] s1]|] eqn:Hdraw;
    [|done].
  pose proof (draw_candidate_Some _ _ _ _ _ _ Hdraw) as (-> & Hr & Hc & Hd).
  destruct (can_place_word g w r c d) as [[]|] eqn:Hcan; [|..|done].
  - destruct (place_word g w r c d) as [g1|] eqn:Hplace; [|done].
    intros [= <- <- <-]. exists 0%nat, r, c, d.
    rewrite candidate_0, Hdraw. simpl.
    repeat split; try done; try lia.
  - intros (n & r' & c' & d' & Hn & Hrej & Hcand & Hr' & Hc' & Hd' & Hcan'
            & Hplace & -> & ->)%IH.
    exists (S n), r', c', d'. rewrite candidate_S.
    repeat split; try done; try lia.
    + intros [|k] Hk.
      * exists r, c, d. by rewrite candidate_0, Hdraw.
      * apply rejected_S, Hrej. lia.
    + rewrite advance_advance. f_equal. lia.
Qed.

(** Whatever its outcome, the loop draws at most [budget] candidates. *)
Lemma place_attempts_budget budget grid_size g (w : word) s r s' :
  place_attempts budget grid_size g w s = Some (r, s') →
  ∃ n : nat, (n ≤ budget)%nat ∧ s' = advance s (3 * n).
Proof.
  destruct r as [[g' p]|].
  - intros (n & ? & ? & ? & ? & _ & _ & _ & _ & _ & _ & _ & _ & ->)%place_attempts_Some.
    exists (S n). split; [lia|done].
  - intros [_ ->]%place_attempts_None. by exists budget.
Qed.

End RetryLoop.

(** ** [generate_word_search]: the failure outcomes *)

Section GenerateFailure.
Import Engine Generator.

Lemma insert_by_len_perm (w : word) l : insert_by_len w l ≡ₚ w :: l.
Proof.
  induction l as [|h t IH]; simpl; [done|].
  case_bool_decide; [done|]. rewrite IH. apply Permutation_swap.
Qed.

Lemma sorted_longest_first_perm l : sorted_longest_first l ≡ₚ l.
Proof.
  induction l as [|w l IH]; simpl; [done|].
  by rewrite insert_by_len_perm, IH.
Qed.

Lemma filter_fits_all P `{∀ x : word, Decision (P x)} (l : list word) :
  ¬ (length (filter P l) < length l)%nat → filter P l = l.
Proof.
  induction l as [|x l IH]; [done|].
  destruct (decide (P x)) as [HP|HP].
  - rewrite filter_cons_True by done. simpl. intros Hlen.
    f_equal. apply IH. lia.
  - rewrite filter_cons_False by done. simpl. intros Hlen.
    pose proof (length_filter P l). lia.
Qed.

(** The test on the word lengths at the head of [generate_word_search]. *)
Lemma generate_word_search_fitting grid_size (words : list word) :
  (∀ w, w ∈ words → Z.of_nat (length w) ≤ grid_size) →
  generate_word_search grid_size words =
  (r <~ place_words grid_size (empty_grid grid_size) []
          (sorted_longest_first words) ;;
   match r with
   | None => ret None
   | Some (g', placed_words) =>
       g'' <~ fill_empty_cells g' ;; ret (Some (g'', placed_words))
   end)%rand.
Proof.
  intros Hfit. unfold generate_word_search.
  assert (filter (λ w : word, Z.of_nat (length w) ≤ grid_size) words = words)
    as Hall.
  { apply filter_fits_all.
    induction words as [|x l IH]; [simpl; lia|].
    rewrite filter_cons_True by (apply Hfit; left).
    simpl. assert (∀ w, w ∈ l → Z.of_nat (length w) ≤ grid_size)
      by (intros; apply Hfit; by right).
    specialize (IH ltac:(done)). lia. }
  rewrite Hall. by rewrite bool_decide_eq_false_2 by lia.
Qed.

(** C3. When some word of the list is longer than the grid is wide,
    [generate_word_search] returns the failure outcome [(None, None)],
    and it does so before any random draw: no word is placed and none is
    skipped. *)
Theorem too_long_word_fails (grid_size : Z) (words : list word)
    (w : word) (s : rng) :
  w ∈ words → grid_size < Z.of_nat (length w) →
  generate_word_search grid_size words s = Some (None, s).
Proof.
  intros Hw Hlong. unfold generate_word_search.
  rewrite bool_decide_eq_true_2; [done|].
  apply (length_filter_lt _ _ w); [done|lia].
Qed.

Lemma place_words_cons grid_size g placed (w : word) ws :
  place_words grid_size g placed (w :: ws) =
  (r <~ place_attempts MAX_PLACEMENT_ATTEMPTS grid_size g w ;;
   match r with
   | None => ret None
   | Some (g', p) => place_words grid_size g' (placed ++ [p]) ws
   end)%rand.
Proof. reflexivity. Qed.

(** The [for] loop stops at the first word whose retry loop ends with
    [placed] false. *)
Lemma place_words_failure grid_size (pre post : list word) (w : word)
    g placed s g1 placed1 s1 s2 :
  place_words grid_size g placed pre s = Some (Some (g1, placed1), s1) →
  place_attempts MAX_PLACEMENT_ATTEMPTS grid_size g1 w s1 = Some (None, s2) →
  place_words grid_size g placed (pre ++ w :: post) s = Some (None, s2).
Proof.
  revert g placed s. induction pre as [|x pre IH]; intros g placed s.
  - rewrite app_nil_l, place_words_cons.
    intros [[= -> ->] ->]%ret_Some Hfail. unfold bind. by rewrite Hfail.
  - rewrite <- app_comm_cons, !place_words_cons.
    intros (r & s' & Hx & Hrest)%bind_Some Hfail.
    unfold bind. rewrite Hx. destruct r as [[g' p]|]; [|done].
    by apply IH.
Qed.

(** C4. The retry loop of a word draws at most [MAX_PLACEMENT_ATTEMPTS]
    candidates, three draws each, whatever its outcome, and it ends with
    the word not placed exactly when each of the [MAX_PLACEMENT_ATTEMPTS]
    candidates is refused. When the words sorted before [w] are placed
    and each of the [MAX_PLACEMENT_ATTEMPTS] candidates drawn for [w] is
    refused, the generation returns the failure outcome [(None, None)]
    right after the last of these candidates: nothing of the grid built so
    far is returned. *)
Theorem retry_budget_exhausted_fails (grid_size : Z) (words : list word) :
  (∀ g (w : word) s r s',
     place_attempts MAX_PLACEMENT_ATTEMPTS grid_size g w s = Some (r, s') →
     (∃ n : nat, (n ≤ MAX_PLACEMENT_ATTEMPTS)%nat ∧ s' = advance s (3 * n))
     ∧ (r = None ↔ ∀ k, (k < MAX_PLACEMENT_ATTEMPTS)%nat →
                      rejected grid_size g w s k))
  ∧ (∀ (pre post : list word) (w : word) g placed s s1,
       (∀ w', w' ∈ words → Z.of_nat (length w') ≤ grid_size) →
       sorted_longest_first words = pre ++ w :: post →
       place_words grid_size (empty_grid grid_size) [] pre s
         = Some (Some (g, placed), s1) →
       (∀ k, (k < MAX_PLACEMENT_ATTEMPTS)%nat →
          rejected grid_size g w s1 k) →
       generate_word_search grid_size words s
         = Some (None, advance s1 (3 * MAX_PLACEMENT_ATTEMPTS))).
Proof.
  split.
  - intros g w s r s' Hrun. split; [by eapply place_attempts_budget|]. split.
    + intros ->. by apply place_attempts_None in Hrun as [? _].
    + intros Hrej.
      assert (place_attempts MAX_PLACEMENT_ATTEMPTS grid_size g w s
              = Some (None, advance s (3 * MAX_PLACEMENT_ATTEMPTS))) as Hnone
        by by apply place_attempts_None.
      congruence.
  - intros pre post w g placed s s1 Hfit Hsorted Hpre Hrej.
    rewrite generate_word_search_fitting by done.
    rewrite Hsorted. unfold bind.
    erewrite place_words_failure; [done|done|].
    by apply place_attempts_None.
Qed.

End GenerateFailure.

(** ** [generate_word_search]: the success outcome *)

Section GenerateSuccess.
Import Engine Generator.

Lemma keeps_letters_refl g : keeps_letters g g.
Proof. by intros rc ch. Qed.

Lemma keeps_letters_trans g1 g2 g3 :
  keeps_letters g1 g2 → keeps_letters g2 g3 → keeps_letters g1 g3.
Proof. intros H12 H23 rc ch Hrc Hch. apply H23; [|done]. by apply H12. Qed.

Lemma placed_on_keeps g g' p :
  length <$> g' = length <$> g → keeps_letters g g' →
  placed_on g p → placed_on g' p.
Proof.
  intros Hshape Hkeep (Hlen & Hin & Hletters).
  assert (length g' = length g) as Hlen'
    by (rewrite <- (length_fmap length g'), Hshape; apply length_fmap).
  split; [done|]. split; [by rewrite Hlen'|].
  intros i letter Hi Hnb. destruct (Hletters i letter Hi Hnb) as (rc & ? & ?).
  exists rc. split; [done|]. by apply Hkeep.
Qed.

(** One accepted placement. *)
Lemma place_attempts_placed budget grid_size g (w : word) s g' p s' :
  place_attempts budget grid_size g w s = Some (Some (g', p), s') →
  pw_word p = w
  ∧ length <$> g' = length <$> g
  ∧ keeps_letters g g'
  ∧ placed_on g' p.
Proof.
  intros (n & r & c & d & _ & _ & _ & _ & _ & Hd & Hcan & Hplace & -> & _)
    %place_attempts_Some.
  destruct d as [dr dc]. apply DIRECTIONS_nonzero in Hd.
  pose proof (proj1 (can_place_word_true_iff_aux _ _ _ _ _ _) Hcan) as Hfits.
  destruct (place_word_after_check _ _ _ _ _ _ Hd Hcan)
    as (g1 & Hplace1 & Hshape & Hpath & Hframe).
  rewrite Hplace in Hplace1. injection Hplace1 as <-.
  assert (length g' = length g) as Hlen'
    by (rewrite <- (length_fmap length g'), Hshape; apply length_fmap).
  split; [done|]. split; [done|].
  split; [|split; [|split]]; cbn [pw_word pw_path].
  - intros rc ch Hrc Hch.
    destruct (decide (rc ∈ get_word_path w r c (dr, dc))) as [Hon|Hoff].
    + apply elem_of_get_word_path in Hon as (j & Hj & ->).
      destruct (lookup_lt_is_Some_2 w j Hj) as [letter Hletter].
      destruct (Hfits j letter Hletter) as [_ Hcell]. simpl in Hcell.
      rewrite (Hpath j letter Hletter).
      destruct Hcell as [Hcell|Hcell]; congruence.
    + by rewrite Hframe.
  - apply length_get_word_path.
  - intros rc (j & Hj & ->)%elem_of_get_word_path.
    destruct (lookup_lt_is_Some_2 w j Hj) as [letter Hletter].
    destruct (Hfits j letter Hletter) as [Hin _]. unfold fits in Hin.
    cbn [fst snd] in Hin |- *. by rewrite Hlen'.
  - intros i letter Hi _. eexists. split.
    + apply lookup_get_word_path. split; [|done]. by eapply lookup_lt_Some.
    + by apply Hpath.
Qed.

(** The [for] loop when every word is placed. *)
Lemma place_words_placed grid_size (ws : list word) g placed s g' placed' s' :
  place_words grid_size g placed ws s = Some (Some (g', placed'), s') →
  ∃ new, placed' = placed ++ new
    ∧ pw_word <$> new = ws
    ∧ length <$> g' = length <$> g
    ∧ keeps_letters g g'
    ∧ Forall (placed_on g') new.
Proof.
  revert g placed s. induction ws as [|w ws IH]; intros g placed s.
  - simpl. intros [[= <- <-] _]%ret_Some. exists [].
    rewrite app_nil_r. repeat split; try done. apply keeps_letters_refl.
  - rewrite place_words_cons.
    intros ([[g1 p]|] & s1 & Hw & Hrest)%bind_Some;
      [|by apply ret_Some in Hrest as [? _]].
    apply place_attempts_placed in Hw as (Hword & Hshape1 & Hkeep1 & Hp).
    apply IH in Hrest as (new & -> & Hwords & Hshape & Hkeep & Hnew).
    exists (p :: new).
    split; [by rewrite <- app_assoc|].
    split; [by rewrite fmap_cons, Hword, Hwords|].
    split; [congruence|]. split; [by eapply keeps_letters_trans|].
    constructor; [|done]. by eapply placed_on_keeps.
Qed.

Lemma blank_not_in_ALPHABET : blank ∉ ALPHABET.
Proof.
  intros Hin. apply list_elem_of_In in Hin. vm_compute in Hin.
  intuition discriminate.
Qed.

Lemma fill_row_filled (row : list ascii) s row' s' :
  fill_row row s = Some (row', s') →
  length row' = length row
  ∧ (∀ (i : nat) ch, row !! i = Some ch → ch ≠ blank → row' !! i = Some ch)
  ∧ blank ∉ row'.
Proof.
  revert s row' s'. induction row as [|c rest IH]; intros s row' s'; simpl.
  - intros [<- _]%ret_Some. split; [done|]. split; [done|].
    apply not_elem_of_nil.
  - intros (c' & s1 & Hc & Hrest)%bind_Some.
    apply bind_Some in Hrest as (rest' & s2 & Hfill & [<- _]%ret_Some).
    apply IH in Hfill as (Hlen & Hkeep & Hnb).
    assert (c' ≠ blank ∧ (c ≠ blank → c' = c)) as [Hc' Hcc].
    { case_bool_decide as Hblank.
      - apply choice_Some in Hc as [Hin _]. split; [|done].
        intros ->. by apply blank_not_in_ALPHABET.
      - apply ret_Some in Hc as [<- _]. done. }
    split; [simpl; by rewrite Hlen|]. split.
    + intros [|i] ch Hi Hch; simpl in *.
      * injection Hi as <-. by rewrite Hcc.
      * by apply Hkeep.
    + rewrite not_elem_of_cons. split; [done|done].
Qed.

Lemma fill_empty_cells_filled g s g' s' :
  fill_empty_cells g s = Some (g', s') →
  length <$> g' = length <$> g
  ∧ keeps_letters g g'
  ∧ ∀ row, row ∈ g' → blank ∉ row.
Proof.
  revert s g' s'. induction g as [|r rows IH]; intros s g' s'; simpl.
  - intros [<- _]%ret_Some. split; [done|]. split; [by intros ??|].
    intros row Hrow. by apply elem_of_nil in Hrow.
  - intros (r' & s1 & Hr & Hrest)%bind_Some.
    apply bind_Some in Hrest as (rows' & s2 & Hfill & [<- _]%ret_Some).
    apply fill_row_filled in Hr as (Hlen & Hkeep & Hnb).
    apply IH in Hfill as (Hshape & Hkeeps & Hnbs).
    split; [by rewrite !fmap_cons, Hlen, Hshape|]. split.
    + intros [row col] ch. unfold letter_at. simpl.
      case_bool_decide as Hpos; [|done].
      destruct (Z.to_nat row) as [|k] eqn:Hk; simpl.
      * apply Hkeep.
      * intros Hcell Hch.
        specialize (Hkeeps (Z.of_nat k, col) ch). unfold letter_at in Hkeeps.
        simpl in Hkeeps. rewrite bool_decide_eq_true_2 in Hkeeps by lia.
        rewrite Nat2Z.id in Hkeeps. by apply Hkeeps.
    + intros row [->|Hrow]%elem_of_cons; [done|by apply Hnbs].
Qed.

Lemma filter_by_key_none {A B} `{EqDecision B} (f : A → B) (l : list A) x :
  x ∉ f <$> l → filter (λ a, f a = x) l = [].
Proof.
  induction l as [|a l IH]; [done|].
  rewrite fmap_cons, not_elem_of_cons. intros [Hne Hnotin].
  rewrite filter_cons_False by done. by apply IH.
Qed.

Lemma filter_by_key_once {A B} `{EqDecision B} (f : A → B) (l : list A) x :
  NoDup (f <$> l) → x ∈ f <$> l →
  length (filter (λ a, f a = x) l) = 1%nat.
Proof.
  induction l as [|a l IH]; [by intros _ ?%elem_of_nil|].
  rewrite fmap_cons, NoDup_cons, elem_of_cons.
  intros [Hnotin Hnodup] [Hx|Hin].
  - rewrite filter_cons_True by done. subst x.
    by rewrite filter_by_key_none.
  - rewrite filter_cons_False; [by apply IH|].
    intros <-. done.
Qed.

Lemma length_empty_grid grid_size :
  length (empty_grid grid_size) = Z.to_nat grid_size.
Proof. unfold empty_grid. apply length_replicate. Qed.

(** What a successful run leaves: the placements follow the sorted words,
    the grid is a square of [grid_size] rows, every placement lies on it,
    and no cell is blank. *)
Lemma generate_word_search_inv grid_size (words : list word) s g placed s' :
  generate_word_search grid_size words s = Some (Some (g, placed), s') →
  pw_word <$> placed = sorted_longest_first words
  ∧ length <$> g = replicate (Z.to_nat grid_size) (Z.to_nat grid_size)
  ∧ Forall (placed_on g) placed
  ∧ ∀ row, row ∈ g → blank ∉ row.
Proof.
  intros Hgen.
  assert (∀ w, w ∈ words → Z.of_nat (length w) ≤ grid_size) as Hfit.
  { intros w Hw. destruct (decide (Z.of_nat (length w) ≤ grid_size)); [done|].
    unfold generate_word_search in Hgen.
    rewrite bool_decide_eq_true_2 in Hgen; [by apply ret_Some in Hgen as [? _]|].
    apply (length_filter_lt _ _ w); [done|lia]. }
  rewrite generate_word_search_fitting in Hgen by done.
  apply bind_Some in Hgen as ([[g1 placed1]|] & s1 & Hplace & Hrest);
    [|by apply ret_Some in Hrest as [? _]].
  apply bind_Some in Hrest as (g2 & s2 & Hfill & [[= <- <-] _]%ret_Some).
  apply place_words_placed in Hplace
    as (new & -> & Hwords & Hshape1 & _ & Hnew).
  apply fill_empty_cells_filled in Hfill as (Hshape2 & Hkeep2 & Hnb).
  rewrite app_nil_l. split; [done|]. split; [|split; [|done]].
  - rewrite Hshape2, Hshape1. unfold empty_grid.
    by rewrite fmap_replicate, length_replicate.
  - eapply Forall_impl; [exact Hnew|]. intros p. by apply placed_on_keeps.
Qed.

(** C1. When [generate_word_search] returns a grid and placements:
    the words of the placements are the requested words, each as often as
    it is requested, hence exactly once in a list of distinct words;
    every cell of every path is within [[0, grid_size)²]; the path of a
    placement has one cell for each letter of its word, and the grid
    holds [word[i]] at [path[i]] (for every letter but the blank
    sentinel, which is no letter of a validated word); and no cell of
    the grid, which has [grid_size] rows of [grid_size] cells, is
    blank. *)
Theorem generate_word_search_success (grid_size : Z) (words : list word)
    (s s' : rng) (g : grid) (placed : list placement) :
  generate_word_search grid_size words s = Some (Some (g, placed), s') →
  (pw_word <$> placed ≡ₚ words
   ∧ (NoDup words → ∀ w, w ∈ words →
        length (filter (λ p, pw_word p = w) placed) = 1%nat))
  ∧ (∀ p rc, p ∈ placed → rc ∈ pw_path p →
       0 ≤ rc.1 < grid_size ∧ 0 ≤ rc.2 < grid_size)
  ∧ (∀ p, p ∈ placed →
       length (pw_path p) = length (pw_word p)
       ∧ ∀ (i : nat) letter, pw_word p !! i = Some letter → letter ≠ blank →
           ∃ rc, pw_path p !! i = Some rc ∧ letter_at g rc = Some letter)
  ∧ (length g = Z.to_nat grid_size
     ∧ ∀ row, row ∈ g → length row = Z.to_nat grid_size ∧ blank ∉ row).
Proof.
  intros (Hwords & Hshape & Hon & Hnb)%generate_word_search_inv.
  assert (length g = Z.to_nat grid_size) as Hlen.
  { by rewrite <- (length_fmap length g), Hshape, length_replicate. }
  rewrite Forall_forall in Hon.
  assert (pw_word <$> placed ≡ₚ words) as Hperm
    by (rewrite Hwords; apply sorted_longest_first_perm).
  split; [split; [done|]|split; [|split; [|split; [done|]]]].
  - intros Hnodup w Hw. apply filter_by_key_once.
    + by rewrite Hperm.
    + by rewrite Hperm.
  - intros p rc Hp Hrc. destruct (Hon p Hp) as (_ & Hin & _).
    specialize (Hin rc Hrc). rewrite Hlen in Hin. lia.
  - intros p Hp. destruct (Hon p Hp) as (Hl & _ & Hletters). done.
  - intros row Hrow. split; [|by apply Hnb].
    apply (list_elem_of_fmap_2 length) in Hrow. rewrite Hshape in Hrow.
    by apply elem_of_replicate in Hrow as [? _].
Qed.

End GenerateSuccess.

(** ** [generate_word_search] returns *)

Section GenerateReturns.
Import Engine Generator.

(** The grid is a square of [n] rows of [n] cells. *)
Lemma square_letter_at (n : nat) (g : grid) (row col : Z) :
  length <$> g = replicate n n →
  0 ≤ row < Z.of_nat n → 0 ≤ col < Z.of_nat n →
  is_Some (letter_at g (row, col)).
Proof.
  intros Hshape Hr Hc. unfold letter_at. simpl.
  rewrite bool_decide_eq_true_2 by lia.
  assert ((length <$> g) !! Z.to_nat row = Some n) as Hrow.
  { rewrite Hshape. apply lookup_replicate_2. lia. }
  rewrite list_lookup_fmap in Hrow.
  destruct (g !! Z.to_nat row) as [r|]; simpl in *; [|done].
  injection Hrow as Hlen. apply lookup_lt_is_Some_2. lia.
Qed.

Lemma can_place_from_total (n : nat) g letters i start_row start_col dr dc :
  length <$> g = replicate n n →
  is_Some
    (can_place_from g (Z.of_nat (length g)) letters i start_row start_col dr dc).
Proof.
  intros Hshape.
  assert (length g = n) as Hlen
    by (by rewrite <- (length_fmap length g), Hshape, length_replicate).
  revert i. induction letters as [|letter rest IH]; intros i; simpl; [done|].
  destruct (bool_decide (0 ≤ start_row + i * dr < Z.of_nat (length g))) eqn:Hr;
    destruct (bool_decide (0 ≤ start_col + i * dc < Z.of_nat (length g))) eqn:Hc;
    simpl; try done.
  apply bool_decide_eq_true_1 in Hr, Hc.
  rewrite grid_get_letter_at by lia.
  destruct (square_letter_at n g (start_row + i * dr) (start_col + i * dc))
    as [c ->]; [done|lia|lia|]. simpl.
  by destruct (bool_decide (c ≠ blank) && bool_decide (c ≠ letter)).
Qed.

Lemma place_attempts_total (n : nat) budget grid_size g (w : word) s :
  length <$> g = replicate n n → 0 < grid_size →
  is_Some (place_attempts budget grid_size g w s).
Proof.
  intros Hshape Hsize. revert s.
  induction budget as [|budget IH]; intros s; [done|].
  rewrite place_attempts_S.
  destruct (draw_candidate_total grid_size s Hsize) as [[[[r c] d] s1] Hdraw].
  rewrite Hdraw.
  apply draw_candidate_Some in Hdraw as (_ & _ & _ & Hd%DIRECTIONS_nonzero).
  destruct d as [dr dc].
  destruct (can_place_from_total n g w 0 r c dr dc Hshape) as [ok Hok].
  unfold can_place_word at 1. rewrite Hok.
  destruct ok; [|apply IH].
  destruct (place_word_after_check g w r c dr dc Hd Hok) as (g' & -> & _).
  done.
Qed.

Lemma place_words_total (n : nat) grid_size (ws : list word) g placed s :
  length <$> g = replicate n n → 0 < grid_size →
  is_Some (place_words grid_size g placed ws s).
Proof.
  intros Hshape Hsize. revert g placed s Hshape.
  induction ws as [|w ws IH]; intros g placed s Hshape; [done|].
  rewrite place_words_cons. unfold bind.
  destruct (place_attempts_total n MAX_PLACEMENT_ATTEMPTS grid_size g w s)
    as [[[[g1 p]|] s1] Hw]; [done..| |]; rewrite Hw; [|done].
  apply IH. apply place_attempts_placed in Hw as (_ & Hshape1 & _).
  congruence.
Qed.

Lemma fill_row_total (row : list ascii) s : is_Some (fill_row row s).
Proof.
  revert s. induction row as [|c rest IH]; intros s; simpl; [done|].
  unfold bind. case_bool_decide.
  - destruct (choice_total ALPHABET s) as [x ->]; [done|].
    destruct (IH (advance s 1)) as [[rest' s2] ->]. done.
  - unfold ret at 1. destruct (IH s) as [[rest' s2] ->]. done.
Qed.

Lemma fill_empty_cells_total (g : grid) s : is_Some (fill_empty_cells g s).
Proof.
  revert s. induction g as [|row rows IH]; intros s; simpl; [done|].
  unfold bind. destruct (fill_row_total row s) as [[row' s1] ->].
  destruct (IH s1) as [[rows' s2] ->]. done.
Qed.

(** On a grid of positive size the generation raises nothing: it returns
    the failure outcome or a grid with its placements. *)
Lemma generate_word_search_returns grid_size (words : list word) s :
  0 < grid_size → is_Some (generate_word_search grid_size words s).
Proof.
  intros Hsize. unfold generate_word_search.
  case_bool_decide; [done|]. unfold bind.
  destruct (place_words_total (Z.to_nat grid_size) grid_size
              (sorted_longest_first
                 (filter (λ w : word, Z.of_nat (length w) ≤ grid_size) words))
              (empty_grid grid_size) [] s) as [[[[g placed]|] s1] ->];
    [|done| |done].
  { unfold empty_grid. by rewrite fmap_replicate, length_replicate. }
  destruct (fill_empty_cells_total g s1) as [[g' s2] ->]. done.
Qed.

End GenerateReturns.

(** ** The words that reach the generator *)

Section Validated.
Import Engine Generator.
Context (strip upper : word → word) (isalpha isupper : word → bool).

(** An alphabetic string has no blank, and [upper] leaves an uppercase
    string as it is. *)
Hypothesis isalpha_no_blank : ∀ w : word, isalpha w = true → blank ∉ w.
Hypothesis upper_of_upper : ∀ w : word, isupper w = true → upper w = w.

Local Abbreviation validate_loop :=
  (Utils.validate_loop strip upper isalpha isupper).
Local Abbreviation validate_words :=
  (Utils.validate_words strip upper isalpha isupper).
Local Abbreviation valid_word := (Utils.valid_word isalpha isupper).

Lemma validate_loop_valid validated words_list :
  Forall valid_word validated → NoDup validated →
  Forall valid_word (validate_loop validated words_list)
  ∧ NoDup (validate_loop validated words_list).
Proof.
  revert validated.
  induction words_list as [|raw rest IH]; intros validated Hvalid Hnodup; simpl;
    [done|].
  case_bool_decide as Hlen; simpl; [|by apply IH].
  destruct (isalpha (upper (strip raw))) eqn:Halpha; simpl; [|by apply IH].
  destruct (isupper (upper (strip raw))) eqn:Hupper; simpl; [|by apply IH].
  case_bool_decide as Hdup; [by apply IH|].
  apply IH.
  - apply Forall_app. split; [done|]. apply Forall_singleton.
    split; [exact Hlen|]. split; [exact Halpha|exact Hupper].
  - apply NoDup_app. split; [done|]. split; [|apply NoDup_singleton].
    intros x Hx ->%list_elem_of_singleton. apply Hdup.
    apply list_elem_of_fmap. exists (upper (strip raw)). split; [|done].
    symmetry. rewrite Forall_forall in Hvalid.
    by apply upper_of_upper, Hvalid.
Qed.

(** [validate_words] returns at most [MAX_WORDS_COUNT] distinct words of
    [MIN_WORD_LEN] to [MAX_WORD_LEN] letters, none of which has a blank. *)
Lemma validate_words_valid words_list :
  (length (validate_words words_list) ≤ MAX_WORDS_COUNT)%nat
  ∧ NoDup (validate_words words_list)
  ∧ ∀ w, w ∈ validate_words words_list →
      (MIN_WORD_LEN ≤ length w ≤ MAX_WORD_LEN)%nat ∧ blank ∉ w.
Proof.
  unfold Utils.validate_words.
  destruct (validate_loop_valid [] words_list) as [Hvalid Hnodup];
    [constructor|constructor|].
  split; [rewrite length_take; lia|]. split.
  - eapply sublist_NoDup; [exact Hnodup|]. apply sublist_take.
  - intros w (i & Hw%list_elem_of_lookup_2 & _)%elem_of_take.
    rewrite Forall_forall in Hvalid. destruct (Hvalid w Hw) as (? & ? & ?).
    split; [done|]. by apply isalpha_no_blank.
Qed.

(** The generator on validated words, as [WordSearchApp.generate] calls
    it: every word has exactly one placement, and the grid holds the
    letters of each placement along its path. *)
Lemma generate_validated_success grid_size words_list s g placed s' :
  generate_word_search grid_size (validate_words words_list) s
    = Some (Some (g, placed), s') →
  (∀ w, w ∈ validate_words words_list →
     length (filter (λ p, pw_word p = w) placed) = 1%nat)
  ∧ ∀ p, p ∈ placed →
      pw_word p ∈ validate_words words_list
      ∧ ∀ (i : nat) letter, pw_word p !! i = Some letter →
          ∃ rc, pw_path p !! i = Some rc ∧ letter_at g rc = Some letter.
Proof.
  intros (Hwords & _ & Hon & _)%generate_word_search_inv.
  destruct (validate_words_valid words_list) as (_ & Hnodup & Hvalid).
  assert (pw_word <$> placed ≡ₚ validate_words words_list) as Hperm
    by (rewrite Hwords; apply sorted_longest_first_perm).
  split.
  - intros w Hw. apply filter_by_key_once; by rewrite Hperm.
  - intros p Hp. rewrite Forall_forall in Hon.
    destruct (Hon p Hp) as (_ & _ & Hletters).
    assert (pw_word p ∈ validate_words words_list) as Hin.
    { rewrite <- Hperm. by apply list_elem_of_fmap_2. }
    split; [done|]. intros i letter Hi. apply Hletters; [done|].
    intros ->. apply (Hvalid _ Hin). by eapply list_elem_of_lookup_2.
Qed.

End Validated.

(** ** Extending a selection *)

Section Drag.
Import Widgets.

Lemma get_cell_from_pos_Some self pos rc :
  get_cell_from_pos self pos = Some rc →
  0 ≤ rc.1 < pg_grid_size self ∧ 0 ≤ rc.2 < pg_grid_size self.
Proof.
  destruct pos as [x y]. unfold get_cell_from_pos.
  destruct (bool_decide (0 ≤ y `div` CELL_SIZE < pg_grid_size self)) eqn:Hr;
    destruct (bool_decide (0 ≤ x `div` CELL_SIZE < pg_grid_size self)) eqn:Hc;
    simpl; try done.
  intros [= <-]. apply bool_decide_eq_true_1 in Hr, Hc. done.
Qed.

(** On a straight line the step of [get_path_between] along an axis is
    the sign of the difference along that axis. *)
Lemma step_is_sign (a b : Z) :
  a = 0 ∨ b = 0 ∨ Z.abs a = Z.abs b →
  Z.max (Z.abs a) (Z.abs b) ≠ 0 →
  (if bool_decide (a ≠ 0) then a `div` Z.max (Z.abs a) (Z.abs b) else 0)
    = Z.sgn a.
Proof.
  intros Hline Hsteps. case_bool_decide as Ha.
  - assert (Z.max (Z.abs a) (Z.abs b) = Z.abs a) as -> by lia.
    symmetry. apply Z.div_unique with 0; [lia|]. lia.
  - by subst a.
Qed.

Lemma is_valid_drag_path_true start end_ :
  is_valid_drag_path start end_ = true
  ↔ end_.1 - start.1 = 0 ∨ end_.2 - start.2 = 0
    ∨ Z.abs (end_.1 - start.1) = Z.abs (end_.2 - start.2).
Proof.
  destruct start as [r1 c1], end_ as [r2 c2]. unfold is_valid_drag_path.
  rewrite !orb_true_iff, !bool_decide_eq_true. simpl. tauto.
Qed.

Lemma get_path_between_line self start end_ :
  is_valid_drag_path start end_ = true →
  0 ≤ end_.1 < pg_grid_size self ∧ 0 ≤ end_.2 < pg_grid_size self →
  get_path_between self start end_
    = inclusive_line (pg_grid_size self) start end_.
Proof.
  intros Hline%is_valid_drag_path_true Hin.
  destruct start as [r1 c1], end_ as [r2 c2].
  unfold get_path_between, inclusive_line. simpl in *.
  case_bool_decide as Hsteps.
  - assert (r2 = r1 ∧ c2 = c1) as [-> ->] by lia.
    rewrite !Z.sub_diag. simpl.
    rewrite filter_cons_True by (simpl; lia).
    rewrite filter_nil. do 2 f_equal; lia.
  - pose proof (step_is_sign (r2 - r1) (c2 - c1) Hline Hsteps) as Hr.
    pose proof (step_is_sign (c2 - c1) (r2 - r1)) as Hc.
    rewrite (Z.max_comm (Z.abs (c2 - c1))) in Hc.
    rewrite Hr, Hc; [done|lia|done].
Qed.

(** Clipping keeps a line that lies within the grid. *)
Lemma filter_within grid_size (line : list cell) :
  Forall (λ rc : cell, 0 ≤ rc.1 < grid_size ∧ 0 ≤ rc.2 < grid_size) line →
  filter (λ rc : cell, 0 ≤ rc.1 < grid_size ∧ 0 ≤ rc.2 < grid_size) line
    = line.
Proof.
  induction 1 as [|rc l Hrc _ IH]; [done|].
  by rewrite filter_cons_True, IH.
Qed.

Lemma get_path_between_within self start end_ (line : list cell) :
  get_path_between self start end_
    = filter (λ rc : cell, 0 ≤ rc.1 < pg_grid_size self
                           ∧ 0 ≤ rc.2 < pg_grid_size self) line →
  Forall (λ rc : cell, 0 ≤ rc.1 < pg_grid_size self
                       ∧ 0 ≤ rc.2 < pg_grid_size self) line →
  get_path_between self start end_ = line.
Proof. intros -> Hall. by apply filter_within. Qed.

(** C6. A move of the pointer onto the cell [end_] during a drag that
    started at [start]: when the two cells are on one row, one column or
    one diagonal, the path becomes the inclusive line from [start] to
    [end_], made of [max(|Δrow|, |Δcol|)] steps of the signs of the two
    differences and clipped to the grid; otherwise the move changes
    nothing. From (2,2) the path to (2,5) is [(2,2),(2,3),(2,4),(2,5)],
    the path to (5,2) is [(2,2),(3,2),(4,2),(5,2)], and a move to (5,4)
    leaves the widget as it is. *)
Theorem extend_selection (self : PuzzleGrid) (pos : Z * Z) (start end_ : cell) :
  is_dragging self = true →
  truthy (pg_grid self) = true →
  drag_start_cell self = Some start →
  get_cell_from_pos self pos = Some end_ →
  drag_current_cell self ≠ Some end_ →
  (if is_valid_drag_path start end_ then
     mouseMoveEvent self pos
       = Some (with_drag self true (Some start) (Some end_)
                 (inclusive_line (pg_grid_size self) start end_))
   else mouseMoveEvent self pos = Some self)
  ∧ (start = (2, 2) → end_ = (2, 5) →
       current_temp_path <$> mouseMoveEvent self pos
         = Some [(2, 2); (2, 3); (2, 4); (2, 5)])
  ∧ (start = (2, 2) → end_ = (5, 2) →
       current_temp_path <$> mouseMoveEvent self pos
         = Some [(2, 2); (3, 2); (4, 2); (5, 2)])
  ∧ (start = (2, 2) → end_ = (5, 4) →
       mouseMoveEvent self pos = Some self).
Proof.
  intros Hdrag Hgrid Hstart Hcell Hcur.
  pose proof (get_cell_from_pos_Some _ _ _ Hcell) as Hin.
  assert (mouseMoveEvent self pos =
          if is_valid_drag_path start end_ then
            Some (with_drag self true (Some start) (Some end_)
                    (get_path_between self start end_))
          else Some self) as Hmove.
  { unfold mouseMoveEvent. rewrite Hdrag, Hgrid, Hcell, Hstart. simpl.
    rewrite bool_decide_eq_true_2 by congruence.
    by destruct (is_valid_drag_path start end_). }
  split; [|split; [|split]].
  - rewrite Hmove.
    destruct (is_valid_drag_path start end_) eqn:Hvalid; [|done].
    by rewrite get_path_between_line.
  - intros -> ->. rewrite Hmove.
    change (is_valid_drag_path (2, 2) (2, 5)) with true. cbv iota.
    rewrite (get_path_between_within self (2, 2) (2, 5)
               [(2, 2); (2, 3); (2, 4); (2, 5)]); [done|done|].
    simpl in Hin. repeat constructor; simpl; lia.
  - intros -> ->. rewrite Hmove.
    change (is_valid_drag_path (2, 2) (5, 2)) with true. cbv iota.
    rewrite (get_path_between_within self (2, 2) (5, 2)
               [(2, 2); (3, 2); (4, 2); (5, 2)]); [done|done|].
    simpl in Hin. repeat constructor; simpl; lia.
  - intros -> ->. by rewrite Hmove.
Qed.

End Drag.

(** ** Ending a selection *)

Section Selection.
Import App.

Lemma accept_word_marks self (x : word) path :
  marks_found self (accept_word self x path) x path.
Proof.
  unfold accept_word. case_bool_decide; repeat split.
Qed.

Lemma on_word_selected_cases self path (w : word) :
  letters_along (app_grid self) path = Some w →
  on_word_selected self path =
  Some (if bool_decide (is_target self w) then accept_word self w path
        else if bool_decide (is_target self (Py.reversed w))
             then accept_word self (Py.reversed w) path
             else self).
Proof.
  intros Hw. unfold on_word_selected, is_target. rewrite Hw. simpl.
  rewrite <- !bool_decide_and. by repeat case_bool_decide.
Qed.

Lemma letters_along_cons g (rc : cell) path :
  letters_along (Some g) (rc :: path) =
  c ← grid_get g rc.1 rc.2; w ← letters_along (Some g) path; Some (c :: w).
Proof. reflexivity. Qed.

Lemma letters_along_length g path (w : word) :
  letters_along g path = Some w → length w = length path.
Proof.
  destruct g as [g|]; [|done]. simpl. intros Hw.
  symmetry. by eapply length_mapM.
Qed.

(** The first three cells of a first row that starts with CATDOG. *)
Lemma letters_along_CAT (rest : list ascii) (rows : list (list ascii)) :
  letters_along (Some ((Py.str "CATDOG" ++ rest) :: rows))
    [(0, 0); (0, 1); (0, 2)] = Some (Py.str "CAT").
Proof.
  rewrite !letters_along_cons. rewrite !grid_get_letter_at by done.
  reflexivity.
Qed.

(** C7. At the end of a selection the letters along the path, read in
    the order of the path, are looked up in the word set as they are and
    reversed. When the string is a word not found yet, that word is
    marked found along the path; when it is not but the reversed string
    is, the reversed word is; in either case the word joins the found
    words, the set of the cells of the path joins the found paths and the
    word leaves the unfound words. When neither is, nothing changes. On
    a grid whose first row starts with CATDOG the path from (0,0) to
    (0,2) marks CAT found, and it marks TAC found when TAC is a word of
    the puzzle and CAT is not. *)
Theorem word_selected_marks_found (self : WordSearchApp) (path : list cell)
    (w : word) :
  letters_along (app_grid self) path = Some w →
  (is_target self w →
     ∃ self', on_word_selected self path = Some self'
              ∧ marks_found self self' w path)
  ∧ (¬ is_target self w → is_target self (Py.reversed w) →
       ∃ self', on_word_selected self path = Some self'
                ∧ marks_found self self' (Py.reversed w) path)
  ∧ (¬ is_target self w → ¬ is_target self (Py.reversed w) →
       on_word_selected self path = Some self)
  ∧ (∀ rest rows,
       app_grid self = Some ((Py.str "CATDOG" ++ rest) :: rows) →
       path = [(0, 0); (0, 1); (0, 2)] →
       (is_target self (Py.str "CAT") →
          ∃ self', on_word_selected self path = Some self'
                   ∧ marks_found self self' (Py.str "CAT") path)
       ∧ (Py.str "CAT" ∉ words self → is_target self (Py.str "TAC") →
            ∃ self', on_word_selected self path = Some self'
                     ∧ marks_found self self' (Py.str "TAC") path)).
Proof.
  intros Hw. pose proof (on_word_selected_cases self path w Hw) as Hsel.
  split; [|split; [|split]].
  - intros Ht. rewrite bool_decide_eq_true_2 in Hsel by done.
    eexists. split; [done|]. apply accept_word_marks.
  - intros Hnt Ht. rewrite bool_decide_eq_false_2 in Hsel by done.
    rewrite bool_decide_eq_true_2 in Hsel by done.
    eexists. split; [done|]. apply accept_word_marks.
  - intros Hnt Hnr. by rewrite !bool_decide_eq_false_2 in Hsel by done.
  - intros rest rows Hgrid ->. rewrite Hgrid, letters_along_CAT in Hw.
    injection Hw as <-. split.
    + intros Ht. rewrite bool_decide_eq_true_2 in Hsel by done.
      eexists. split; [done|]. apply accept_word_marks.
    + intros Hnot Ht.
      rewrite bool_decide_eq_false_2 in Hsel by (intros [? _]; done).
      change (Py.reversed (Py.str "CAT")) with (Py.str "TAC") in Hsel.
      rewrite bool_decide_eq_true_2 in Hsel by done.
      eexists. split; [done|]. apply accept_word_marks.
Qed.

(** A consistent solver state: no unfound word is among the found. *)
Lemma accept_word_disjoint self (x : word) path :
  unfound_words self ## found_words self →
  unfound_words (accept_word self x path)
    ## found_words (accept_word self x path).
Proof.
  intros Hdisj.
  destruct (accept_word_marks self x path) as (-> & _ & -> & _).
  apply elem_of_disjoint.
  intros y [Hy Hne]%elem_of_difference [Hx|Hf]%elem_of_union.
  - done.
  - by apply (proj1 (elem_of_disjoint _ _) Hdisj y).
Qed.

(** No step of the solver puts an unfound word among the found. *)
Lemma on_word_selected_disjoint self path self' :
  unfound_words self ## found_words self →
  on_word_selected self path = Some self' →
  unfound_words self' ## found_words self'.
Proof.
  intros Hdisj Hsel.
  destruct (letters_along (app_grid self) path) as [w|] eqn:Hw;
    [|by unfold on_word_selected in Hsel; rewrite Hw in Hsel].
  rewrite (on_word_selected_cases self path w Hw) in Hsel.
  injection Hsel as <-.
  repeat case_bool_decide; try done; by apply accept_word_disjoint.
Qed.

Lemma load_puzzle_disjoint self size_spin file :
  unfound_words self ## found_words self →
  unfound_words (load_puzzle self size_spin file)
    ## found_words (load_puzzle self size_spin file).
Proof.
  intros Hdisj. unfold load_puzzle.
  destruct file as [| |[[g|] [ws|] [pws|] [n|]]]; simpl; try done.
Qed.

(** A press of the left button on a cell of the grid starts a drag whose
    path is that cell, and clears the hints and the selected word. *)
Lemma mousePressEvent_starts_drag self pos c :
  truthy (pg_grid (puzzle_grid self)) = true →
  Widgets.get_cell_from_pos (puzzle_grid (on_puzzle_clicked self)) pos = Some c →
  is_dragging (puzzle_grid (mousePressEvent self true pos)) = true
  ∧ drag_start_cell (puzzle_grid (mousePressEvent self true pos)) = Some c
  ∧ current_temp_path (puzzle_grid (mousePressEvent self true pos)) = [c]
  ∧ hint_paths (mousePressEvent self true pos) = ∅
  ∧ selected_word (mousePressEvent self true pos) = None
  ∧ words (mousePressEvent self true pos) = words self
  ∧ app_grid (mousePressEvent self true pos) = app_grid self.
Proof.
  intros Hgrid Hcell. unfold mousePressEvent. rewrite Hgrid, Hcell. done.
Qed.

(** C9. With every word of the puzzle at least two letters long, the
    release of the button on a path of one cell (a click without a
    drag) matches no word: the found words, the found paths and the
    unfound words are what they were, and the path of the drag is
    dropped. *)
Theorem click_without_drag_matches_nothing (self : WordSearchApp) (c : cell) :
  (∀ w : word, w ∈ words self → (2 ≤ length w)%nat) →
  is_dragging (puzzle_grid self) = true →
  current_temp_path (puzzle_grid self) = [c] →
  is_Some (letters_along (app_grid self) [c]) →
  ∃ self', mouseReleaseEvent self true = Some self'
    ∧ found_words self' = found_words self
    ∧ found_paths self' = found_paths self
    ∧ unfound_words self' = unfound_words self
    ∧ current_temp_path (puzzle_grid self') = []
    ∧ is_dragging (puzzle_grid self') = false.
Proof.
  intros Hlen Hdrag Hpath [w Hw].
  pose proof (letters_along_length _ _ _ Hw) as Hone. simpl in Hone.
  assert (∀ x : word, length x = 1%nat → ¬ is_target self x) as Hshort.
  { intros x Hx [Hin _]. apply Hlen in Hin. lia. }
  unfold mouseReleaseEvent. rewrite Hdrag, Hpath. simpl.
  set (self1 := with_widget self _).
  pose proof (on_word_selected_cases self1 [c] w Hw) as Hsel.
  rewrite !bool_decide_eq_false_2 in Hsel.
  - rewrite Hsel. simpl. eexists. split; [done|]. done.
  - apply Hshort. unfold Py.reversed. by rewrite length_reverse.
  - by apply Hshort.
Qed.

End Selection.

(** ** Hints *)

Section Hints.
Import App.

Lemma hint_search_unknown self (w : word) pws :
  (∀ q, q ∈ pws → pw_word q ≠ w) →
  hint_search self w pws = Some (notify self (WordNotFound w)).
Proof.
  induction pws as [|q pws IH]; intros Hnone; simpl; [done|].
  rewrite bool_decide_eq_false_2 by (apply Hnone; left).
  apply IH. intros q' Hq'. apply Hnone. by right.
Qed.

Lemma hint_search_first self (w : word) pre p post first rest :
  (∀ q, q ∈ pre → pw_word q ≠ w) →
  pw_word p = w → pw_path p = first :: rest →
  hint_search self w (pre ++ p :: post)
    = Some (notify (refresh_widget (with_hint_paths self {[ {[first]} ]}))
              (HintShown w)).
Proof.
  intros Hpre Hp Hpath. induction pre as [|q pre IH]; simpl.
  - rewrite bool_decide_eq_true_2 by done. by rewrite Hpath.
  - rewrite bool_decide_eq_false_2 by (apply Hpre; left).
    apply IH. intros q' Hq'. apply Hpre. by right.
Qed.

(** C8. A hint for the selected word [w] of a puzzle.
    When [w] is an unfound word and [p] is its stored placement (the
    first entry of [placed_words] for [w]), the hint set becomes the one
    path made of the first cell of the path of [p], whatever it held
    before. When [w] is already found, or when no placement is stored for
    it, the hint set is left as it is and the user is told so. *)
Theorem give_hint_first_cell (self : WordSearchApp) (w : word) :
  truthy (app_grid self) = true →
  selected_word self = Some w → w ≠ [] →
  (∀ pre p post first rest,
     unfound_words self ## found_words self → w ∈ unfound_words self →
     placed_words self = pre ++ p :: post →
     (∀ q, q ∈ pre → pw_word q ≠ w) →
     pw_word p = w → pw_path p = first :: rest →
     ∃ self', give_hint self = Some self'
       ∧ hint_paths self' = {[ {[first]} ]}
       ∧ pg_hint_paths (puzzle_grid self') = {[ {[first]} ]}
       ∧ notices self' = notices self ++ [HintShown w])
  ∧ (w ∈ found_words self →
       ∃ self', give_hint self = Some self'
         ∧ hint_paths self' = hint_paths self
         ∧ puzzle_grid self' = puzzle_grid self
         ∧ notices self' = notices self ++ [AlreadyFound w])
  ∧ (w ∉ found_words self →
     (∀ q, q ∈ placed_words self → pw_word q ≠ w) →
       ∃ self', give_hint self = Some self'
         ∧ hint_paths self' = hint_paths self
         ∧ puzzle_grid self' = puzzle_grid self
         ∧ notices self' = notices self ++ [WordNotFound w]).
Proof.
  intros Hgrid Hsel Hw.
  assert (give_hint self =
          if bool_decide (w ∈ found_words self)
          then Some (notify self (AlreadyFound w))
          else hint_search self w (placed_words self)) as Hhint.
  { unfold give_hint. rewrite Hgrid, Hsel. simpl. by destruct w. }
  split; [|split].
  - intros pre p post first rest Hdisj Hun Hplaced Hpre Hp Hpath.
    rewrite bool_decide_eq_false_2 in Hhint
      by (intros Hf; by apply (proj1 (elem_of_disjoint _ _) Hdisj w)).
    rewrite Hplaced, (hint_search_first _ _ _ _ _ first rest) in Hhint
      by done.
    eexists. split; [done|]. done.
  - intros Hfound. rewrite bool_decide_eq_true_2 in Hhint by done.
    eexists. split; [done|]. done.
  - intros Hnot Hnone. rewrite bool_decide_eq_false_2 in Hhint by done.
    rewrite hint_search_unknown in Hhint by done.
    eexists. split; [done|]. done.
Qed.

End Hints.

(** ** Loading a puzzle file *)

Section Loading.
Import App.

(** [redraw] returns exactly on the grids whose rows are long enough. *)
Lemma draw_cell_is_Some (self : PuzzleGrid) (g : grid) (r c : Z) :
  0 ≤ r → 0 ≤ c →
  is_Some (Widgets.draw_cell self g r c)
  ↔ ∃ row, g !! Z.to_nat r = Some row ∧ (Z.to_nat c < length row)%nat.
Proof.
  intros Hr Hc. unfold Widgets.draw_cell, grid_get.
  rewrite getitem_nonneg by done.
  destruct (g !! Z.to_nat r) as [row|]; cbn [mbind option_bind].
  - rewrite getitem_nonneg by done.
    destruct (row !! Z.to_nat c) as [x|] eqn:Hx; cbn [mbind option_bind].
    + split; [|by eexists]. intros _. exists row. split; [done|].
      by eapply lookup_lt_Some.
    + split; [by intros [? ?]|]. intros (row' & [= <-] & Hlt).
      apply lookup_ge_None in Hx. lia.
  - split; [by intros [? ?]|]. by intros (row' & [=] & _).
Qed.

Lemma redraw_returns (self : PuzzleGrid) (g : grid) :
  pg_grid self = Some g → pg_grid_size self = Z.of_nat (length g) →
  is_Some (Widgets.redraw self) ↔ drawable g.
Proof.
  intros Hgrid Hsize. unfold Widgets.redraw. rewrite Hgrid, Hsize.
  destruct g as [|row0 rows] eqn:Hg.
  { split; [intros _; constructor|by eexists]. }
  rewrite <- Hg. clear Hg row0 rows Hgrid Hsize.
  set (n := length g).
  transitivity
    (is_Some (mapM (λ r, mapM (λ c, Widgets.draw_cell self g r c)
                           (seqZ 0 (Z.of_nat n))) (seqZ 0 (Z.of_nat n)))).
  { destruct (mapM _ (seqZ 0 (Z.of_nat n))); cbn [mbind option_bind].
    - split; by eexists.
    - split; by intros [? ?]. }
  rewrite mapM_is_Some, Forall_seqZ. unfold drawable.
  rewrite Forall_lookup. fold n. split.
  - intros Hall i row Hrow.
    assert (i < n)%nat as Hi by (by eapply lookup_lt_Some).
    specialize (Hall (Z.of_nat i) ltac:(lia)). cbn in Hall.
    rewrite mapM_is_Some, Forall_seqZ in Hall.
    specialize (Hall (Z.of_nat n - 1) ltac:(lia)). cbn in Hall.
    apply draw_cell_is_Some in Hall as (row' & Hrow' & Hlt); [|lia..].
    rewrite Nat2Z.id in Hrow'. assert (row' = row) as -> by congruence. lia.
  - intros Hwide r Hr. cbn. rewrite mapM_is_Some, Forall_seqZ.
    intros c Hc. cbn. apply draw_cell_is_Some; [lia..|].
    destruct (lookup_lt_is_Some_2 g (Z.to_nat r)) as [row Hrow];
      [fold n; lia|].
    exists row. split; [done|]. specialize (Hwide _ _ Hrow). lia.
Qed.

(** Whether [redraw] returns depends on the grid of the widget and on the
    side it counts only. *)
Lemma redraw_same_grid (self self' : PuzzleGrid) :
  pg_grid self' = pg_grid self → pg_grid_size self' = pg_grid_size self →
  is_Some (Widgets.redraw self) → is_Some (Widgets.redraw self').
Proof.
  intros Hgrid Hsize. unfold Widgets.redraw. rewrite Hgrid, Hsize.
  destruct (pg_grid self) as [[|row rows]|]; [by eexists| |by eexists].
  set (g := row :: rows). set (n := pg_grid_size self).
  intros Hdraws.
  assert (is_Some (mapM (λ r, mapM (λ c, Widgets.draw_cell self g r c)
                                (seqZ 0 n)) (seqZ 0 n))) as Hrows.
  { destruct (mapM _ (seqZ 0 n)); [by eexists|by destruct Hdraws]. }
  assert (is_Some (mapM (λ r, mapM (λ c, Widgets.draw_cell self' g r c)
                                (seqZ 0 n)) (seqZ 0 n))) as [rows' Hrows'].
  { rewrite mapM_is_Some, Forall_seqZ in Hrows.
    rewrite mapM_is_Some, Forall_seqZ. intros r Hr.
    specialize (Hrows r Hr). cbn in Hrows. cbn.
    rewrite mapM_is_Some, Forall_seqZ in Hrows.
    rewrite mapM_is_Some, Forall_seqZ. intros c Hc.
    specialize (Hrows c Hc). cbn in Hrows. cbn.
    apply draw_cell_is_Some; [lia..|].
    by apply (draw_cell_is_Some self); [lia..|]. }
  rewrite Hrows'. by eexists.
Qed.

(** [set_grid] ends with a [redraw] that returns when the rows of the
    grid are long enough. *)
Lemma set_grid_redraw (self : PuzzleGrid) (g : option grid)
    (found hint : option (gset (gset cell))) :
  (∀ g', g = Some g' → drawable g') →
  is_Some (Widgets.redraw (Widgets.set_grid self g found hint)).
Proof.
  intros Hwide. destruct g as [g|]; [|by eexists].
  destruct g as [|row rows] eqn:Hg; [by eexists|]. rewrite <- Hg in *.
  apply (redraw_returns _ g); [done| |by apply Hwide].
  unfold Widgets.set_grid. cbn. by rewrite Hg.
Qed.

Lemma mouseMoveEvent_same_grid (self self' : PuzzleGrid) (pos : Z * Z) :
  Widgets.mouseMoveEvent self pos = Some self' →
  pg_grid self' = pg_grid self ∧ pg_grid_size self' = pg_grid_size self.
Proof.
  unfold Widgets.mouseMoveEvent.
  destruct (is_dragging self && truthy (pg_grid self));
    [|by intros [= <-]].
  destruct (Widgets.get_cell_from_pos self pos) as [c|]; [|by intros [= <-]].
  destruct (bool_decide _); [|by intros [= <-]].
  destruct (drag_start_cell self) as [start|]; [|done].
  cbn [mbind option_bind].
  destruct (Widgets.is_valid_drag_path start c); by intros [= <-].
Qed.

Lemma lacks_a_key_malformed (pd : puzzle_data) :
  lacks_a_key pd → malformed (Json pd).
Proof.
  intros Hkey (g & ws & pws & n & -> & _).
  destruct Hkey as [?|[?|[?|?]]]; discriminate.
Qed.

(** What [load_puzzle] does with a file that has the four keys. *)
Lemma load_puzzle_complete (self : WordSearchApp) (size_spin : Z)
    (g : grid) (ws : list word) (pws : list placement) (n : Z) :
  let self' :=
    load_puzzle self size_spin
      (Json {| pd_grid := Some g; pd_words := Some ws;
               pd_placed_words := Some pws; pd_grid_size := Some n |}) in
  app_grid self' = Some g
  ∧ words self' = list_to_set ws
  ∧ placed_words self' = pws
  ∧ grid_size self' = (if bool_decide (bound n = size_spin) then n
                       else bound n)
  ∧ unfound_words self' = list_to_set ws
  ∧ found_words self' = ∅
  ∧ found_paths self' = ∅
  ∧ hint_paths self' = ∅
  ∧ selected_word self' = selected_word self
  ∧ pg_grid (puzzle_grid self') = Some g
  ∧ pg_found_paths (puzzle_grid self') = ∅
  ∧ pg_hint_paths (puzzle_grid self') = ∅
  ∧ (drawable g →
       notices self' = notices self ++ [PuzzleLoaded]
       ∧ unsaved_changes self' = false)
  ∧ (¬ drawable g →
       notices self' = notices self ++ [LoadFailed IndexError]
       ∧ unsaved_changes self' = unsaved_changes self).
Proof.
  cbn zeta. unfold load_puzzle.
  cbn [pd_grid pd_words pd_placed_words pd_grid_size].
  unfold finish_load.
  cbn [app_grid words placed_words grid_size unfound_words found_words
       found_paths hint_paths selected_word puzzle_grid notices
       unsaved_changes with_placed_words with_words with_grid].
  set (pg := Widgets.set_grid (puzzle_grid self) (Some g) None None).
  assert (drawable g ↔ is_Some (Widgets.redraw pg)) as Hdraw.
  { destruct g as [|row rows] eqn:Hg.
    - split; [by eexists|intros _; constructor].
    - rewrite <- Hg. symmetry. apply redraw_returns; [by rewrite Hg|].
      unfold pg, Widgets.set_grid. cbn. by rewrite Hg. }
  repeat (split; [done|]). split.
  - intros [sc ->]%Hdraw. done.
  - intros Hno. destruct (Widgets.redraw pg) as [sc|] eqn:Hsc; [|done].
    destruct Hno. apply Hdraw. by eexists.
Qed.

(** C2. Loading a malformed file: one that is not JSON, or whose content
    breaks the schema by a missing key, a coordinate out of range, a grid
    that is not a square of the grid size or a direction that is none of
    the eight.
    - A file that is not JSON shows a load error and leaves the whole
      puzzle state and the widget as they were.
    - A file that lacks one of the keys ['grid'], ['words'],
      ['placed_words'] and ['grid_size'] shows a load error and leaves the
      grid size, the solver sets and the widget as they were; the fields
      [grid], [words] and [placed_words] that the loader assigns before it
      reads the missing key hold the values of the file and the ones after
      it are as they were; the whole puzzle state is as it was when
      ['grid'] is the missing key.
    - A file that has the four keys is loaded as it is, for nothing is
      validated: the grid, the words and the placements are those of the
      file, the grid size is the one of the file bound to the range of the
      size control (unless the control shows that bound value already),
      every word is unfound and no word, path or hint is left, and the
      widget has the grid of the file. It reports success when each row of
      the grid is as long as the grid has rows; on a shorter row [redraw]
      raises after all of this, and the load error is shown with the
      state replaced. *)
Theorem load_puzzle_malformed (self : WordSearchApp) (size_spin : Z)
    (file : chosen_file) :
  malformed file →
  let self' := load_puzzle self size_spin file in
  match file with
  | NoFile => False
  | NotJson =>
      load_error_shown self self'
      ∧ puzzle_grid self' = puzzle_grid self
      ∧ puzzle_state_kept self self'
  | Json pd =>
      (lacks_a_key pd →
         load_error_shown self self'
         ∧ grid_size self' = grid_size self
         ∧ solver_sets_kept self self'
         ∧ puzzle_grid self' = puzzle_grid self
         ∧ app_grid self' = match pd_grid pd with
                            | Some g => Some g
                            | None => app_grid self
                            end
         ∧ words self' = match pd_grid pd, pd_words pd with
                         | Some _, Some ws => list_to_set ws
                         | _, _ => words self
                         end
         ∧ placed_words self'
           = match pd_grid pd, pd_words pd, pd_placed_words pd with
             | Some _, Some _, Some pws => pws
             | _, _, _ => placed_words self
             end
         ∧ (pd_grid pd = None → puzzle_state_kept self self'))
      ∧ (∀ g ws pws n,
           pd = {| pd_grid := Some g; pd_words := Some ws;
                   pd_placed_words := Some pws; pd_grid_size := Some n |} →
           app_grid self' = Some g
           ∧ words self' = list_to_set ws
           ∧ placed_words self' = pws
           ∧ grid_size self' = (if bool_decide (bound n = size_spin) then n
                                else bound n)
           ∧ unfound_words self' = list_to_set ws
           ∧ found_words self' = ∅
           ∧ found_paths self' = ∅
           ∧ hint_paths self' = ∅
           ∧ pg_grid (puzzle_grid self') = Some g
           ∧ pg_found_paths (puzzle_grid self') = ∅
           ∧ pg_hint_paths (puzzle_grid self') = ∅
           ∧ (drawable g →
                notices self' = notices self ++ [PuzzleLoaded]
                ∧ unsaved_changes self' = false)
           ∧ (¬ drawable g →
                load_error_shown self self'
                ∧ notices self' = notices self ++ [LoadFailed IndexError]
                ∧ unsaved_changes self' = unsaved_changes self))
  end.
Proof.
  intros Hbad. destruct file as [| |pd]; [done| |].
  { unfold load_error_shown. cbn. repeat split; by eexists. }
  cbn zeta. split.
  - intros Hkey. clear Hbad. unfold load_puzzle, load_error_shown.
    destruct pd as [[g|] [ws|] [pws|] [n|]]; simpl in *;
      try (destruct Hkey as [?|[?|[?|?]]]; discriminate);
      repeat split; try done; try (by eexists).
  - intros g ws pws n ->.
    destruct (load_puzzle_complete self size_spin g ws pws n)
      as (H1 & H2 & H3 & H4 & H5 & H6 & H7 & H8 & _ & H9 & H10 & H11
          & Hok & Hraise).
    repeat (split; [assumption|]).
    intros Hno. destruct (Hraise Hno) as [Hn Hu].
    split; [by eexists|done].
Qed.

End Loading.


(** ** The properties on the sample data *)

Section Instances.
Import Engine Generator Widgets App.

Example can_place_word_on_blank :
  can_place_word (empty_grid 3) Sample.CAT 0 0 (1, 1) = Some true.
Proof. reflexivity. Qed.

Example can_place_word_out_of_bounds :
  can_place_word (empty_grid 3) Sample.CAT 0 1 (0, 1) = Some false.
Proof. reflexivity. Qed.

Example can_place_word_crossing :
  can_place_word Sample.rows Sample.TAC 2 0 (-1, 0) = Some false
  ∧ can_place_word Sample.rows (Py.str "ARC") 2 0 (-1, 1) = Some false
  ∧ can_place_word Sample.rows (Py.str "TEA") 1 4 (-1, -1) = Some false
  ∧ can_place_word Sample.rows (Py.str "AQC") 2 0 (-1, 0) = Some true.
Proof. repeat split. Qed.

Example place_word_null_vector :
  place_word (empty_grid 2) (Py.str "AB") 0 0 (0, 0)
    = Some (Py.str <$> ["B "; "  "]%string).
Proof. reflexivity. Qed.

Example sorted_longest_first_stable :
  sorted_longest_first (Py.str <$> ["ab"; "cd"; "efg"; "h"; "ijk"]%string)
    = Py.str <$> ["efg"; "ijk"; "ab"; "cd"; "h"]%string.
Proof. reflexivity. Qed.

Example get_path_between_diagonal :
  get_path_between (Sample.widget (4, 1) [(4, 1)]) (4, 1) (1, 4)
    = [(4, 1); (3, 2); (2, 3); (1, 4)].
Proof. reflexivity. Qed.

Lemma generate_word_search_success_witness :
  ∃ g placed s',
    generate_word_search 6 [Sample.CAT; Sample.DOG] Sample.lcg
      = Some (Some (g, placed), s')
    ∧ pw_word <$> placed ≡ₚ [Sample.CAT; Sample.DOG]
    ∧ ∀ row, row ∈ g → length row = 6%nat ∧ blank ∉ row.
Proof.
  assert (∃ g placed s',
            generate_word_search 6 [Sample.CAT; Sample.DOG] Sample.lcg
              = Some (Some (g, placed), s')) as (g & placed & s' & Hrun).
  { vm_compute. do 3 eexists. reflexivity. }
  exists g, placed, s'. split; [exact Hrun|].
  destruct (generate_word_search_success 6 _ _ _ _ _ Hrun)
    as ((Hperm & _) & _ & _ & _ & Hrows).
  split; [exact Hperm|exact Hrows].
Defined.

Lemma can_place_word_true_iff_witness :
  fits Sample.rows 2 0 (-1, 0) 1 "Q"%char.
Proof.
  apply (proj1 (can_place_word_true_iff Sample.rows (Py.str "AQC") 2 0 (-1, 0))
           eq_refl 1%nat).
  reflexivity.
Defined.

Lemma too_long_word_fails_witness :
  generate_word_search 4 [Sample.CAT; Py.str "MOUSE"] Sample.lcg
    = Some (None, Sample.lcg).
Proof.
  apply (too_long_word_fails 4 _ (Py.str "MOUSE")).
  - apply list_elem_of_In. simpl. auto.
  - vm_compute. reflexivity.
Defined.

Lemma retry_budget_exhausted_fails_witness :
  generate_word_search 1 [Py.str "A"; Py.str "B"] Sample.zeros
    = Some (None, advance (advance Sample.zeros 3) (3 * MAX_PLACEMENT_ATTEMPTS)).
Proof.
  destruct (retry_budget_exhausted_fails 1 [Py.str "A"; Py.str "B"])
    as [_ Hfail].
  apply (Hfail [Py.str "A"] [] (Py.str "B") [Py.str "A"]
           [ {| pw_word := Py.str "A"; pw_path := [(0, 0)];
                pw_direction := (0, 1) |} ]).
  - intros w' Hw'. apply list_elem_of_In in Hw'. simpl in Hw'.
    destruct Hw' as [<-|[<-|[]]]; vm_compute; discriminate.
  - reflexivity.
  - reflexivity.
  - intros k _. exists 0, 0, (0, 1). split; reflexivity.
Defined.

Lemma extend_selection_witness :
  current_temp_path
    <$> Widgets.mouseMoveEvent (Sample.widget (2, 2) [(2, 2)]) (150, 60)
    = Some [(2, 2); (2, 3); (2, 4); (2, 5)].
Proof.
  destruct (extend_selection (Sample.widget (2, 2) [(2, 2)]) (150, 60)
              (2, 2) (2, 5)) as (_ & Hrow & _).
  - reflexivity.
  - reflexivity.
  - reflexivity.
  - reflexivity.
  - discriminate.
  - apply Hrow; reflexivity.
Defined.

Lemma word_selected_marks_found_witness :
  ∃ self',
    on_word_selected
      (Sample.app {[Sample.CAT; Sample.DOG]} None (Sample.widget (0, 0) []))
      [(0, 0); (0, 1); (0, 2)] = Some self'
    ∧ marks_found
        (Sample.app {[Sample.CAT; Sample.DOG]} None (Sample.widget (0, 0) []))
        self' Sample.CAT [(0, 0); (0, 1); (0, 2)].
Proof.
  destruct (word_selected_marks_found
              (Sample.app {[Sample.CAT; Sample.DOG]} None (Sample.widget (0, 0) []))
              [(0, 0); (0, 1); (0, 2)] Sample.CAT) as (Hfwd & _).
  - reflexivity.
  - apply Hfwd. split.
    + apply elem_of_union_l, elem_of_singleton. reflexivity.
    + apply not_elem_of_empty.
Defined.

Lemma give_hint_first_cell_witness :
  ∃ self',
    give_hint (Sample.app {[Sample.CAT; Sample.DOG]} (Some Sample.CAT)
                 (Sample.widget (0, 0) [])) = Some self'
    ∧ hint_paths self' = {[ {[ (0, 0) ]} ]}.
Proof.
  destruct (give_hint_first_cell
              (Sample.app {[Sample.CAT; Sample.DOG]} (Some Sample.CAT)
                 (Sample.widget (0, 0) [])) Sample.CAT) as (Hhint & _).
  - reflexivity.
  - reflexivity.
  - discriminate.
  - destruct (Hhint [] (Placement Sample.CAT [(0, 0); (0, 1); (0, 2)] (0, 1))
                [Placement Sample.DOG [(0, 3); (0, 4); (0, 5)] (0, 1)]
                (0, 0) [(0, 1); (0, 2)]) as (self' & Hrun & Hset & _).
    + apply disjoint_empty_r.
    + apply elem_of_union_l, elem_of_singleton. reflexivity.
    + reflexivity.
    + intros q Hq. by apply elem_of_nil in Hq.
    + reflexivity.
    + reflexivity.
    + exists self'. split; [exact Hrun|exact Hset].
Defined.

Lemma click_without_drag_matches_nothing_witness :
  ∃ self',
    mouseReleaseEvent
      (Sample.app {[Sample.CAT; Sample.DOG]} None (Sample.widget (1, 1) [(1, 1)]))
      true = Some self'
    ∧ found_words self' = ∅
    ∧ current_temp_path (puzzle_grid self') = [].
Proof.
  destruct (click_without_drag_matches_nothing
              (Sample.app {[Sample.CAT; Sample.DOG]} None
                 (Sample.widget (1, 1) [(1, 1)])) (1, 1))
    as (self' & Hrun & Hfound & _ & _ & Hpath & _).
  - intros w Hw. apply elem_of_union in Hw.
    destruct Hw as [Hw|Hw]; apply elem_of_singleton in Hw; subst w;
      vm_compute; lia.
  - reflexivity.
  - reflexivity.
  - eexists. reflexivity.
  - exists self'. split; [exact Hrun|]. split; [exact Hfound|exact Hpath].
Defined.

Lemma place_word_writes_path_only_witness :
  ∃ g', place_word (empty_grid 3) Sample.CAT 0 0 (1, 1) = Some g'
        ∧ letter_at g' (1, 1) = Some "A"%char
        ∧ letter_at g' (0, 1) = Some blank.
Proof.
  destruct (place_word_writes_path_only (empty_grid 3) Sample.CAT 0 0 (1, 1))
    as (g' & Hrun & _ & Hpath & Hframe).
  - reflexivity.
  - exists g'. split; [exact Hrun|]. split.
    + apply (Hpath ltac:(discriminate) 1%nat). reflexivity.
    + rewrite Hframe; [reflexivity|].
      intros Hin. apply list_elem_of_In in Hin. simpl in Hin.
      destruct Hin as [Hin|[Hin|[Hin|[]]]]; discriminate Hin.
Defined.

Lemma file_with_outside_path_malformed :
  malformed (Json Sample.file_with_outside_path).
Proof.
  intros (g & ws & pws & n & [= <- <- <- <-] & _ & Hall).
  apply Forall_cons in Hall as [[Hpath _] _].
  apply Forall_cons in Hpath as [_ Hpath].
  apply Forall_cons in Hpath as [[_ Hcol] _]. simpl in Hcol. lia.
Qed.

Lemma file_with_short_row_malformed :
  malformed (Json Sample.file_with_short_row).
Proof.
  intros (g & ws & pws & n & [= <- <- <- <-] & Hrows & _).
  discriminate Hrows.
Qed.

Lemma file_with_short_row_not_drawable :
  ¬ drawable (Py.str <$> ["AB"; "C"]%string).
Proof.
  intros Hwide. apply Forall_cons in Hwide as [_ Hwide].
  apply Forall_cons in Hwide as [Hrow _]. simpl in Hrow. lia.
Qed.

(** Three malformed files, loaded while the size control shows 10.
    - The first lacks ['placed_words']: the load shows its error, and the
      grid and the words of the application are already those of the file.
    - The second has a path cell outside its grid: the load reports
      success and shows no error, and the puzzle state and the solver sets
      are those of the file.
    - The third has a row shorter than its grid has rows: the load shows
      its error, and the puzzle state and the solver sets are those of the
      file already. *)
Lemma load_puzzle_overwrites_before_error :
  (malformed (Json Sample.file_without_placed_words)
   ∧ load_error_shown Sample.playing
       (load_puzzle Sample.playing 10 (Json Sample.file_without_placed_words))
   ∧ ¬ puzzle_state_kept Sample.playing
         (load_puzzle Sample.playing 10
            (Json Sample.file_without_placed_words)))
  ∧ (malformed (Json Sample.file_with_outside_path)
     ∧ notices (load_puzzle Sample.playing 10
                  (Json Sample.file_with_outside_path))
       = [PuzzleLoaded]
     ∧ ¬ load_error_shown Sample.playing
           (load_puzzle Sample.playing 10 (Json Sample.file_with_outside_path))
     ∧ ¬ puzzle_state_kept Sample.playing
           (load_puzzle Sample.playing 10 (Json Sample.file_with_outside_path))
     ∧ ¬ solver_sets_kept Sample.playing
           (load_puzzle Sample.playing 10
              (Json Sample.file_with_outside_path)))
  ∧ (malformed (Json Sample.file_with_short_row)
     ∧ load_error_shown Sample.playing
         (load_puzzle Sample.playing 10 (Json Sample.file_with_short_row))
     ∧ ¬ puzzle_state_kept Sample.playing
           (load_puzzle Sample.playing 10 (Json Sample.file_with_short_row))
     ∧ ¬ solver_sets_kept Sample.playing
           (load_puzzle Sample.playing 10 (Json Sample.file_with_short_row))).
Proof.
  split; [|split].
  - split; [apply lacks_a_key_malformed; right; right; left; reflexivity|].
    split; [eexists; reflexivity|].
    intros (Hgrid & _). discriminate Hgrid.
  - split; [apply file_with_outside_path_malformed|].
    split; [reflexivity|].
    split; [intros [e He]; discriminate He|].
    split; [intros (Hgrid & _); discriminate Hgrid|].
    intros (_ & _ & _ & Hhints). symmetry in Hhints.
    by apply (non_empty_singleton_L ({[ (3, 3) ]} : gset cell)) in Hhints.
  - split; [apply file_with_short_row_malformed|].
    split; [eexists; reflexivity|].
    split; [intros (Hgrid & _); discriminate Hgrid|].
    intros (_ & _ & _ & Hhints). symmetry in Hhints.
    by apply (non_empty_singleton_L ({[ (3, 3) ]} : gset cell)) in Hhints.
Qed.

Lemma load_puzzle_malformed_witness :
  (load_error_shown Sample.playing
     (load_puzzle Sample.playing 10 (Json Sample.file_without_placed_words))
   ∧ solver_sets_kept Sample.playing
       (load_puzzle Sample.playing 10
          (Json Sample.file_without_placed_words)))
  ∧ (notices (load_puzzle Sample.playing 10
                (Json Sample.file_with_outside_path))
     = notices Sample.playing ++ [PuzzleLoaded]
     ∧ placed_words (load_puzzle Sample.playing 10
                       (Json Sample.file_with_outside_path))
       = [ {| pw_word := Py.str "AB"; pw_path := [(0, 0); (0, 7)];
              pw_direction := (0, 1) |} ])
  ∧ (load_error_shown Sample.playing
       (load_puzzle Sample.playing 10 (Json Sample.file_with_short_row))
     ∧ found_paths (load_puzzle Sample.playing 10
                      (Json Sample.file_with_short_row)) = ∅).
Proof.
  split; [|split].
  - destruct (load_puzzle_malformed Sample.playing 10
                (Json Sample.file_without_placed_words)) as [Hkey _].
    + apply lacks_a_key_malformed. right; right; left; reflexivity.
    + destruct Hkey as (Hshown & _ & Hkept & _).
      * right; right; left; reflexivity.
      * split; [exact Hshown|exact Hkept].
  - destruct (load_puzzle_malformed Sample.playing 10
                (Json Sample.file_with_outside_path)) as [_ Hfull].
    + apply file_with_outside_path_malformed.
    + destruct (Hfull _ _ _ _ eq_refl)
        as (_ & _ & Hplaced & _ & _ & _ & _ & _ & _ & _ & _ & Hok & _).
      split; [|exact Hplaced]. apply Hok.
      repeat constructor.
  - destruct (load_puzzle_malformed Sample.playing 10
                (Json Sample.file_with_short_row)) as [_ Hfull].
    + apply file_with_short_row_malformed.
    + destruct (Hfull _ _ _ _ eq_refl)
        as (_ & _ & _ & _ & _ & _ & Hpaths & _ & _ & _ & _ & _ & Hraise).
      split; [|exact Hpaths].
      apply Hraise, file_with_short_row_not_drawable.
Defined.

End Instances.

(** * Further properties of the program *)

(** ** puzzle_engine.py *)

Section GenerateRaises.
Import Engine Generator.

Lemma draw_candidate_zero s : draw_candidate 0 s = None.
Proof. reflexivity. Qed.

Lemma generate_word_search_no_words grid_size s :
  grid_size ≤ 0 → generate_word_search grid_size [] s = Some (Some ([], []), s).
Proof.
  intros Hle. unfold generate_word_search, empty_grid.
  replace (Z.to_nat grid_size) with 0%nat by lia. reflexivity.
Qed.

(** X1. [generate_word_search] raises an exception in one case only: the
    grid size is 0 and the list of words is a non-empty list of empty
    strings, for which [random.randint(0, -1)] raises. For every other
    input it returns a pair. *)
Theorem generate_word_search_raises_iff (grid_size : Z) (words : list word)
    (s : rng) :
  generate_word_search grid_size words s = None
  ↔ grid_size = 0 ∧ words ≠ [] ∧ Forall (λ w : word, w = []) words.
Proof.
  split.
  - intros Hnone.
    destruct (decide (0 < grid_size)) as [Hpos|Hle].
    { destruct (generate_word_search_returns grid_size words s Hpos)
        as [x Hx]. congruence. }
    destruct words as [|w ws].
    { rewrite generate_word_search_no_words in Hnone by lia. done. }
    destruct (decide (grid_size = 0
                      ∧ Forall (λ w : word, w = []) (w :: ws)))
      as [[-> Hall]|Hnot]; [done|].
    exfalso.
    assert (∃ x : word, x ∈ w :: ws ∧ ¬ Z.of_nat (length x) ≤ grid_size)
      as (x & Hx & Hlen).
    { destruct (decide (grid_size = 0)) as [->|Hne].
      - apply not_and_r in Hnot as [?|Hnot]; [done|].
        apply not_Forall_Exists in Hnot; [|intros ?; apply _].
        apply Exists_exists in Hnot as (x & Hx & Hx').
        exists x. split; [done|]. destruct x as [|a x]; [by destruct Hx'|].
        simpl. lia.
      - exists w. split; [by left|]. lia. }
    unfold generate_word_search in Hnone.
    rewrite bool_decide_eq_true_2 in Hnone; [done|].
    by eapply length_filter_lt.
  - intros (-> & Hne & Hall).
    rewrite generate_word_search_fitting.
    2:{ intros w Hw. rewrite Forall_forall in Hall.
        rewrite (Hall w Hw). done. }
    destruct (sorted_longest_first words) as [|w ws] eqn:Hsorted.
    { apply (f_equal length) in Hsorted.
      rewrite (Permutation_length (sorted_longest_first_perm words)) in Hsorted.
      by destruct words. }
    unfold bind at 1. rewrite place_words_cons. unfold bind at 1.
    change MAX_PLACEMENT_ATTEMPTS with (S 99).
    rewrite place_attempts_S, draw_candidate_zero. done.
Qed.

End GenerateRaises.

Section FillEmptyCells.
Import Engine Generator.

Lemma fill_row_draws (row : list ascii) s :
  ∃ row', fill_row row s
            = Some (row', advance s (length (filter (λ c, c = blank) row)))
    ∧ (∀ (i : nat), row !! i = Some blank →
         ∃ x, x ∈ ALPHABET ∧ row' !! i = Some x)
    ∧ (blank ∉ row → row' = row).
Proof.
  revert s. induction row as [|c rest IH]; intros s.
  { exists []. simpl. rewrite advance_0. split; [done|]. split; [|done].
    intros i Hi. by rewrite lookup_nil in Hi. }
  cbn [fill_row]. unfold bind at 1. case_bool_decide as Hc.
  - destruct (choice_total ALPHABET s) as [x Hx]; [done|].
    rewrite Hx. apply choice_Some in Hx as [Hx _].
    destruct (IH (advance s 1)) as (rest' & Hrest & Hnew & Hsame).
    unfold bind at 1. rewrite Hrest. exists (x :: rest'). split.
    { unfold ret. rewrite filter_cons_True by done. cbn [length].
      rewrite advance_advance. done. }
    split.
    + intros [|i] Hi; [by exists x|]. by apply Hnew.
    + intros Hnot. exfalso. apply Hnot. subst c. by left.
  - destruct (IH s) as (rest' & Hrest & Hnew & Hsame).
    unfold ret at 1. unfold bind at 1. rewrite Hrest.
    exists (c :: rest'). split.
    { unfold ret. by rewrite filter_cons_False by done. }
    split.
    + intros [|i] Hi; [simpl in Hi; congruence|]. by apply Hnew.
    + intros Hnot. f_equal. apply Hsame. intros Hin. apply Hnot. by right.
Qed.

End FillEmptyCells.

Section FillEmptyCellsGrid.
Import Engine Generator.

Lemma letter_at_Some (g : grid) (rc : cell) ch :
  letter_at g rc = Some ch
  ↔ 0 ≤ rc.1 ∧ 0 ≤ rc.2
    ∧ ∃ row, g !! Z.to_nat rc.1 = Some row ∧ row !! Z.to_nat rc.2 = Some ch.
Proof.
  unfold letter_at. case_bool_decide as Hpos.
  - destruct (g !! Z.to_nat rc.1) as [row|] eqn:Hrow; simpl.
    + split.
      * intros Hch. repeat split; [lia..|]. by exists row.
      * intros (_ & _ & row' & [= <-] & Hch). done.
    + split; [done|]. by intros (_ & _ & row' & [=] & _).
  - split; [done|]. intros (? & ? & _). lia.
Qed.

Lemma blank_cells_cons (row : list ascii) (rows : grid) :
  blank_cells (row :: rows)
    = (length (filter (λ c, c = blank) row) + blank_cells rows)%nat.
Proof. unfold blank_cells. simpl. by rewrite filter_app, length_app. Qed.

Lemma no_blank_filter (row : list ascii) :
  length (filter (λ c, c = blank) row) = 0%nat → blank ∉ row.
Proof.
  intros Hlen Hin.
  assert (blank ∈ filter (λ c, c = blank) row) as Hf
    by by apply list_elem_of_filter.
  destruct (filter (λ c, c = blank) row); [by apply elem_of_nil in Hf|done].
Qed.

Lemma fill_empty_cells_draws (g : grid) s :
  ∃ g', fill_empty_cells g s = Some (g', advance s (blank_cells g))
    ∧ (∀ (i j : nat) row, g !! i = Some row → row !! j = Some blank →
         ∃ row' x, g' !! i = Some row' ∧ x ∈ ALPHABET ∧ row' !! j = Some x)
    ∧ (blank_cells g = 0%nat → g' = g).
Proof.
  revert s. induction g as [|row rows IH]; intros s.
  { exists []. simpl. unfold blank_cells. simpl. rewrite advance_0.
    split; [done|]. split; [|done]. intros i j row Hi.
    by rewrite lookup_nil in Hi. }
  cbn [fill_empty_cells].
  destruct (fill_row_draws row s) as (row' & Hrow & Hnew & Hsame).
  destruct (IH (advance s (length (filter (λ c, c = blank) row))))
    as (rows' & Hrows & Hnews & Hsames).
  exists (row' :: rows'). split.
  { unfold bind at 1. rewrite Hrow. unfold bind at 1. rewrite Hrows.
    unfold ret. by rewrite advance_advance, blank_cells_cons. }
  split.
  - intros [|i] j r Hi Hj; simpl in Hi.
    + injection Hi as <-. destruct (Hnew j Hj) as (x & Hx & Hx').
      by exists row', x.
    + by apply (Hnews i j r).
  - rewrite blank_cells_cons. intros Hzero. f_equal.
    + apply Hsame, no_blank_filter. lia.
    + apply Hsames. lia.
Qed.

(** X2. [fill_empty_cells] never raises and reads one random number for
    each blank cell, in this order: the grid it returns has the shape of the
    one it was given, holds every letter that was there, has a capital
    letter of the alphabet in every cell that was blank and has no blank
    cell left. On a grid without blank cell it reads nothing and returns
    the grid as it is. *)
Theorem fill_empty_cells_fills_blanks (g : grid) (s : rng) :
  ∃ g', fill_empty_cells g s = Some (g', advance s (blank_cells g))
    ∧ length <$> g' = length <$> g
    ∧ keeps_letters g g'
    ∧ (∀ rc, letter_at g rc = Some blank →
         ∃ x, x ∈ ALPHABET ∧ letter_at g' rc = Some x)
    ∧ (∀ row, row ∈ g' → blank ∉ row)
    ∧ (blank_cells g = 0%nat → g' = g).
Proof.
  destruct (fill_empty_cells_draws g s) as (g' & Hfill & Hnew & Hsame).
  exists g'. split; [done|].
  destruct (fill_empty_cells_filled g s g' _ Hfill) as (Hshape & Hkeep & Hnb).
  repeat split; try done.
  intros rc (Hr & Hc & row & Hrow & Hcell)%letter_at_Some.
  destruct (Hnew _ _ _ Hrow Hcell) as (row' & x & Hrow' & Hx & Hcell').
  exists x. split; [done|]. apply letter_at_Some. repeat split; [done..|].
  by exists row'.
Qed.

End FillEmptyCellsGrid.

Section PlacementOrder.
Import Engine Generator.

Lemma insert_by_len_elem (w x : word) l :
  x ∈ insert_by_len w l ↔ x = w ∨ x ∈ l.
Proof.
  rewrite (elem_of_Permutation_proper _ _ _ (insert_by_len_perm w l)).
  apply elem_of_cons.
Qed.

Lemma insert_by_len_sorted (w : word) l :
  StronglySorted (λ a b : word, (length b ≤ length a)%nat) l →
  StronglySorted (λ a b : word, (length b ≤ length a)%nat) (insert_by_len w l).
Proof.
  induction 1 as [|h t Ht IH Hh]; simpl.
  { constructor; [constructor|constructor]. }
  case_bool_decide as Hlen.
  - constructor; [by constructor|].
    constructor; [done|]. eapply Forall_impl; [exact Hh|].
    simpl. intros b Hb. lia.
  - constructor; [done|]. apply Forall_forall.
    intros x [->|Hx]%insert_by_len_elem; [lia|].
    rewrite Forall_forall in Hh. by apply Hh.
Qed.

Lemma insert_by_len_stable (n : nat) (w : word) l :
  filter (λ x : word, length x = n) (insert_by_len w l)
    = filter (λ x : word, length x = n) (w :: l).
Proof.
  induction l as [|h t IH]; simpl; [done|].
  case_bool_decide as Hlen; [done|].
  destruct (decide (length h = n)) as [Hh|Hh].
  - rewrite filter_cons_True by done. rewrite IH.
    rewrite (filter_cons_False _ w) by lia.
    rewrite (filter_cons_False _ w) by lia.
    by rewrite filter_cons_True by done.
  - rewrite filter_cons_False by done. rewrite IH.
    destruct (decide (length w = n)) as [Hw|Hw].
    + rewrite !(filter_cons_True _ w) by done.
      by rewrite filter_cons_False by done.
    + rewrite !(filter_cons_False _ w) by done.
      by rewrite filter_cons_False by done.
Qed.

(** X3. The order in which [generate_word_search] places the words,
    [sorted(valid_words, key=len, reverse=True)]: the same words, the
    longer before the shorter, and the words of one length in the order
    of the list. *)
Theorem sorted_longest_first_stable_sort (l : list word) :
  sorted_longest_first l ≡ₚ l
  ∧ StronglySorted (λ a b : word, (length b ≤ length a)%nat)
      (sorted_longest_first l)
  ∧ ∀ n : nat,
      filter (λ x : word, length x = n) (sorted_longest_first l)
        = filter (λ x : word, length x = n) l.
Proof.
  split; [apply sorted_longest_first_perm|]. split.
  - induction l as [|w l IH]; simpl; [constructor|].
    by apply insert_by_len_sorted.
  - intros n. induction l as [|w l IH]; simpl; [done|].
    change (foldr insert_by_len [] l) with (sorted_longest_first l).
    rewrite insert_by_len_stable.
    destruct (decide (length w = n)) as [Hw|Hw].
    + rewrite !(filter_cons_True _ w) by done. by rewrite IH.
    + by rewrite !(filter_cons_False _ w) by done.
Qed.

(** X4. A word can be placed only where there is room for it: when
    [can_place_word] returns [True] for a non-empty word and a vector that
    is not null, the word is no longer than the side of the grid and its
    first and last cells are cells of the grid. *)
Theorem can_place_word_needs_room (g : grid) (w : word)
    (start_row start_col : Z) (d : direction) :
  can_place_word g w start_row start_col d = Some true →
  w ≠ [] → d ≠ (0, 0) →
  (length w ≤ length g)%nat
  ∧ (0 ≤ start_row < Z.of_nat (length g)
     ∧ 0 ≤ start_col < Z.of_nat (length g))
  ∧ (0 ≤ start_row + (Z.of_nat (length w) - 1) * d.1 < Z.of_nat (length g)
     ∧ 0 ≤ start_col + (Z.of_nat (length w) - 1) * d.2 < Z.of_nat (length g)).
Proof.
  destruct d as [dr dc]. intros Hcan Hw Hd.
  pose proof (proj1 (can_place_word_true_iff_aux g w start_row start_col dr dc)
                Hcan) as Hfits.
  destruct w as [|a w]; [done|].
  destruct (Hfits 0%nat a eq_refl) as [[Hr0 Hc0] _]. simpl in Hr0, Hc0.
  destruct (lookup_lt_is_Some_2 (a :: w) (length w)) as [z Hz];
    [simpl; lia|].
  destruct (Hfits (length w) z Hz) as [[Hr1 Hc1] _]. simpl in Hr1, Hc1.
  cbn [length fst snd].
  replace (Z.of_nat (S (length w)) - 1) with (Z.of_nat (length w)) by lia.
  split; [|split; [lia|done]].
  assert (dr ≠ 0 ∨ dc ≠ 0) as [Hdr|Hdc].
  { destruct (decide (dr = 0)) as [->|]; [|by left].
    right. intros ->. done. }
  - nia.
  - nia.
Qed.

End PlacementOrder.

Section PlacementLines.
Import Engine Generator.

(** The two stages of a run of [generate_word_search] that returns a
    grid. *)
Lemma generate_word_search_stages grid_size (words : list word) s g placed s' :
  generate_word_search grid_size words s = Some (Some (g, placed), s') →
  (∀ w, w ∈ words → Z.of_nat (length w) ≤ grid_size)
  ∧ ∃ g1 s1,
      place_words grid_size (empty_grid grid_size) []
        (sorted_longest_first words) s = Some (Some (g1, placed), s1)
      ∧ fill_empty_cells g1 s1 = Some (g, s').
Proof.
  intros Hgen.
  assert (∀ w, w ∈ words → Z.of_nat (length w) ≤ grid_size) as Hfit.
  { intros w Hw. destruct (decide (Z.of_nat (length w) ≤ grid_size)); [done|].
    unfold generate_word_search in Hgen.
    rewrite bool_decide_eq_true_2 in Hgen; [by apply ret_Some in Hgen as [? _]|].
    apply (length_filter_lt _ _ w); [done|lia]. }
  split; [done|].
  rewrite generate_word_search_fitting in Hgen by done.
  apply bind_Some in Hgen as ([[g1 placed1]|] & s1 & Hplace & Hrest);
    [|by apply ret_Some in Hrest as [? _]].
  apply bind_Some in Hrest as (g2 & s2 & Hfill & [[= <- <-] <-]%ret_Some).
  by exists g1, s1.
Qed.

Lemma place_words_straight grid_size (ws : list word) g placed s g' placed' s' :
  place_words grid_size g placed ws s = Some (Some (g', placed'), s') →
  Forall (straight grid_size) placed → Forall (straight grid_size) placed'.
Proof.
  revert g placed s. induction ws as [|w ws IH]; intros g placed s.
  - simpl. by intros [[= <- <-] _]%ret_Some.
  - rewrite place_words_cons.
    intros ([[g1 p]|] & s1 & Hw & Hrest)%bind_Some;
      [|by apply ret_Some in Hrest as [? _]].
    intros Hplaced. apply IH in Hrest; [done|].
    apply Forall_app. split; [done|]. constructor; [|constructor].
    apply place_attempts_Some in Hw
      as (n & r & c & d & _ & _ & _ & Hr & Hc & Hd & _ & _ & -> & _).
    by exists r, c.
Qed.

Lemma generate_word_search_straight grid_size (words : list word)
    s g placed s' :
  generate_word_search grid_size words s = Some (Some (g, placed), s') →
  Forall (straight grid_size) placed.
Proof.
  intros (_ & g1 & s1 & Hplace & _)%generate_word_search_stages.
  by eapply place_words_straight.
Qed.

Lemma NoDup_get_word_path (w : word) start_row start_col d :
  d ≠ (0, 0) → NoDup (get_word_path w start_row start_col d).
Proof.
  destruct d as [dr dc]. intros Hd. apply NoDup_alt. intros i j rc Hi Hj.
  apply lookup_get_word_path in Hi as [_ ->].
  apply lookup_get_word_path in Hj as [_ Heq].
  apply path_cell_inj in Heq; [lia|done].
Qed.

(** X5. Every placement that [generate_word_search] returns is a straight
    line: its direction is one of the eight of [DIRECTIONS], its path is
    the one [get_word_path] gives for its word from a start cell of the
    grid, so each cell of the path is the one before it moved by the
    direction, and no cell occurs twice in the path. *)
Theorem placements_are_straight_lines (grid_size : Z) (words : list word)
    (s s' : rng) (g : grid) (placed : list placement) :
  generate_word_search grid_size words s = Some (Some (g, placed), s') →
  ∀ p, p ∈ placed →
    straight grid_size p
    ∧ NoDup (pw_path p)
    ∧ ∀ (i : nat) a b,
        pw_path p !! i = Some a → pw_path p !! S i = Some b →
        b = (a.1 + (pw_direction p).1, a.2 + (pw_direction p).2).
Proof.
  intros Hgen p Hp.
  pose proof (generate_word_search_straight _ _ _ _ _ _ Hgen) as Hall.
  rewrite Forall_forall in Hall. specialize (Hall p Hp).
  split; [done|].
  destruct Hall as (r & c & _ & _ & Hd & Hpath). rewrite Hpath.
  split; [by apply NoDup_get_word_path, DIRECTIONS_nonzero|].
  destruct (pw_direction p) as [dr dc]. intros i a b Ha Hb.
  apply lookup_get_word_path in Ha as [_ ->].
  apply lookup_get_word_path in Hb as [_ ->].
  simpl. f_equal; lia.
Qed.

(** X6. Where two placements of a generated puzzle cross, they agree: a
    cell that is the cell of index [i] of one path and of index [j] of
    another holds one letter, which is letter [i] of the first word and
    letter [j] of the second. *)
Theorem crossing_placements_agree (grid_size : Z) (words : list word)
    (s s' : rng) (g : grid) (placed : list placement) :
  generate_word_search grid_size words s = Some (Some (g, placed), s') →
  ∀ p q (i j : nat) rc a b,
    p ∈ placed → q ∈ placed →
    pw_path p !! i = Some rc → pw_path q !! j = Some rc →
    pw_word p !! i = Some a → pw_word q !! j = Some b →
    a ≠ blank → b ≠ blank →
    letter_at g rc = Some a ∧ a = b.
Proof.
  intros Hgen p q i j rc a b Hp Hq Hi Hj Ha Hb Hab Hbb.
  destruct (generate_word_search_inv _ _ _ _ _ _ Hgen) as (_ & _ & Hon & _).
  rewrite Forall_forall in Hon.
  destruct (Hon p Hp) as (_ & _ & Hpl).
  destruct (Hon q Hq) as (_ & _ & Hql).
  destruct (Hpl i a Ha Hab) as (rc1 & Hrc1 & Hg1).
  destruct (Hql j b Hb Hbb) as (rc2 & Hrc2 & Hg2).
  assert (rc1 = rc) as -> by congruence.
  assert (rc2 = rc) as -> by congruence.
  split; [done|congruence].
Qed.

Lemma place_words_draws grid_size (ws : list word) g placed s r s' :
  place_words grid_size g placed ws s = Some (r, s') →
  ∃ n : nat, (n ≤ 3 * MAX_PLACEMENT_ATTEMPTS * length ws)%nat
             ∧ s' = advance s n.
Proof.
  revert g placed s. induction ws as [|w ws IH]; intros g placed s.
  - simpl. intros [_ <-]%ret_Some. exists 0%nat. by rewrite advance_0.
  - rewrite place_words_cons.
    intros (r1 & s1 & Hw & Hrest)%bind_Some.
    apply place_attempts_budget in Hw as (n1 & Hn1 & ->).
    destruct r1 as [[g1 p]|].
    + apply IH in Hrest as (n2 & Hn2 & ->).
      exists (3 * n1 + n2)%nat. rewrite advance_advance.
      split; [|done]. cbn [length]. lia.
    + apply ret_Some in Hrest as [_ <-]. exists (3 * n1)%nat.
      split; [|done]. cbn [length]. lia.
Qed.

Lemma blank_cells_square (n : nat) (g : grid) :
  length <$> g = replicate n n → (blank_cells g ≤ n * n)%nat.
Proof.
  intros Hshape. unfold blank_cells.
  etransitivity; [apply length_filter|].
  rewrite length_concat.
  change (map length g) with (length <$> g). rewrite Hshape.
  generalize n at 1 3. intros k. induction k as [|k IH]; simpl; lia.
Qed.

(** X7. A run of [generate_word_search] ends after a bounded number of
    random draws: three for each candidate position, of which there are at
    most [MAX_PLACEMENT_ATTEMPTS] for a word, and one for each cell left
    blank. *)
Theorem generate_word_search_draws (grid_size : Z) (words : list word)
    (s s' : rng) (r : option (grid * list placement)) :
  generate_word_search grid_size words s = Some (r, s') →
  ∃ n : nat,
    s' = advance s n
    ∧ (n ≤ 3 * MAX_PLACEMENT_ATTEMPTS * length words
           + Z.to_nat grid_size * Z.to_nat grid_size)%nat.
Proof.
  intros Hgen. unfold generate_word_search in Hgen.
  case_bool_decide as Hshort.
  { apply ret_Some in Hgen as [_ <-]. exists 0%nat.
    rewrite advance_0. split; [done|lia]. }
  rewrite filter_fits_all in Hgen by done.
  apply bind_Some in Hgen as (r1 & s1 & Hplace & Hrest).
  pose proof (place_words_draws _ _ _ _ _ _ _ Hplace) as (n1 & Hn1 & ->).
  rewrite (Permutation_length (sorted_longest_first_perm words)) in Hn1.
  destruct r1 as [[g1 placed1]|].
  - apply bind_Some in Hrest as (g2 & s2 & Hfill & [_ <-]%ret_Some).
    destruct (fill_empty_cells_draws g1 (advance s n1)) as (g2' & Hfill' & _).
    rewrite Hfill in Hfill'. injection Hfill' as _ ->.
    exists (n1 + blank_cells g1)%nat. rewrite advance_advance.
    split; [done|].
    apply place_words_placed in Hplace as (_ & _ & _ & Hshape & _).
    unfold empty_grid in Hshape.
    rewrite fmap_replicate, length_replicate in Hshape.
    apply blank_cells_square in Hshape. lia.
  - apply ret_Some in Hrest as [_ <-]. exists n1. split; [done|lia].
Qed.

End PlacementLines.

(** ** utils.py *)

Section ValidateWords.
Context (strip upper : word → word) (isalpha isupper : word → bool).

Hypothesis upper_of_upper : ∀ w : word, isupper w = true → upper w = w.

Local Abbreviation validate_loop :=
  (Utils.validate_loop strip upper isalpha isupper).
Local Abbreviation validate_words :=
  (Utils.validate_words strip upper isalpha isupper).
Local Abbreviation valid_word := (Utils.valid_word isalpha isupper).

Lemma upper_validated (validated : list word) :
  Forall valid_word validated → upper <$> validated = validated.
Proof.
  induction 1 as [|w l (_ & _ & Hw) _ IH]; [done|].
  by rewrite fmap_cons, IH, upper_of_upper.
Qed.

Lemma validate_loop_closed_form (validated words_list : list word) :
  Forall valid_word validated →
  validate_loop validated words_list
    = validated
      ++ filter (λ w, w ∉ validated)
           (first_occurrences
              (filter valid_word ((λ raw, upper (strip raw)) <$> words_list))).
Proof.
  revert validated.
  induction words_list as [|raw rest IH]; intros validated Hvalid.
  { simpl. by rewrite app_nil_r. }
  cbn [Utils.validate_loop]. rewrite fmap_cons.
  destruct (decide (valid_word (upper (strip raw)))) as [Hw|Hw].
  - pose proof Hw as (Hlen & Halpha & Hupper).
    rewrite bool_decide_eq_true_2 by done. rewrite Halpha, Hupper.
    cbn [negb orb]. rewrite upper_validated by done.
    rewrite filter_cons_True by done. cbn [first_occurrences].
    case_bool_decide as Hdup.
    + rewrite IH by done. rewrite filter_cons_False by (by intros ?).
      f_equal. symmetry. apply list_filter_filter_l.
      intros x Hx ->. done.
    + rewrite IH.
      2:{ apply Forall_app. split; [done|]. by apply Forall_singleton. }
      rewrite filter_cons_True by done. rewrite <- app_assoc. simpl.
      do 2 f_equal. rewrite list_filter_filter. apply list_filter_iff.
      intros x. rewrite not_elem_of_app, list_elem_of_singleton. done.
  - rewrite filter_cons_False by done.
    assert (negb (bool_decide (MIN_WORD_LEN ≤ length (upper (strip raw))
                               ≤ MAX_WORD_LEN)%nat)
            || (negb (isalpha (upper (strip raw)))
                || negb (isupper (upper (strip raw)))) = true) as Hskip.
    { case_bool_decide as Hlen; [|done]. simpl.
      destruct (isalpha (upper (strip raw))) eqn:Halpha; [|done].
      destruct (isupper (upper (strip raw))) eqn:Hupper; [|done].
      destruct Hw. done. }
    destruct (negb (bool_decide (MIN_WORD_LEN ≤ length (upper (strip raw))
                                 ≤ MAX_WORD_LEN)%nat)); [by apply IH|].
    simpl in Hskip. rewrite Hskip. by apply IH.
Qed.

Lemma filter_not_in_nil (l : list (list ascii)) :
  filter (λ x, x ∉ []) l = l.
Proof.
  induction l as [|x l IH]; [done|].
  rewrite filter_cons_True by apply not_elem_of_nil. by rewrite IH.
Qed.

(** X8. What [validate_words] returns: the words of the list stripped and
    put in upper case, without those that are not 2 to 15 upper-case
    letters and without the repetitions of a word, in the order of the
    list, cut after the first [MAX_WORDS_COUNT] words. *)
Theorem validate_words_closed_form (words_list : list word) :
  validate_words words_list
    = take MAX_WORDS_COUNT
        (first_occurrences
           (filter valid_word
              ((λ raw, upper (strip raw)) <$> words_list))).
Proof.
  unfold Utils.validate_words.
  rewrite validate_loop_closed_form by constructor.
  rewrite app_nil_l. f_equal. apply filter_not_in_nil.
Qed.

Lemma elem_of_first_occurrences {A} `{EqDecision A} (l : list A) x :
  x ∈ first_occurrences l ↔ x ∈ l.
Proof.
  induction l as [|y l IH]; [done|]. cbn [first_occurrences].
  rewrite !elem_of_cons, list_elem_of_filter, IH.
  destruct (decide (x = y)) as [->|Hne]; [by split; left|].
  split.
  - intros [?|[_ ?]]; [by left|by right].
  - intros [?|?]; [by left|by right].
Qed.

Lemma first_occurrences_NoDup {A} `{EqDecision A} (l : list A) :
  NoDup l → first_occurrences l = l.
Proof.
  induction 1 as [|x l Hx _ IH]; [done|]. cbn [first_occurrences].
  rewrite IH. f_equal. clear IH.
  induction l as [|y l IH]; [done|].
  apply not_elem_of_cons in Hx as [Hxy Hx].
  rewrite filter_cons_True by done. by rewrite IH.
Qed.

(** X9. [validate_words] is sound and complete: it returns at most
    [MAX_WORDS_COUNT] words, no two of them equal, each of them a word of
    the list stripped and put in upper case that has 2 to 15 letters, all
    of them upper case; and when it returns fewer than [MAX_WORDS_COUNT]
    words, every word of the list that is valid once stripped and put in
    upper case is among them. *)
Theorem validate_words_sound_complete (words_list : list word) :
  (length (validate_words words_list) ≤ MAX_WORDS_COUNT)%nat
  ∧ NoDup (validate_words words_list)
  ∧ (∀ w, w ∈ validate_words words_list →
       valid_word w ∧ ∃ raw, raw ∈ words_list ∧ w = upper (strip raw))
  ∧ ((length (validate_words words_list) < MAX_WORDS_COUNT)%nat →
     ∀ raw, raw ∈ words_list → valid_word (upper (strip raw)) →
       upper (strip raw) ∈ validate_words words_list).
Proof.
  destruct (validate_loop_valid strip upper isalpha isupper upper_of_upper
              [] words_list) as [Hvalid Hnodup]; [constructor|constructor|].
  pose proof (validate_loop_closed_form [] words_list) as Hform.
  rewrite app_nil_l in Hform. specialize (Hform (Forall_nil_2 _)).
  unfold Utils.validate_words.
  split; [rewrite length_take; lia|]. split.
  { eapply sublist_NoDup; [exact Hnodup|]. apply sublist_take. }
  split.
  - intros w (i & Hw%list_elem_of_lookup_2 & _)%elem_of_take.
    rewrite Forall_forall in Hvalid. split; [by apply Hvalid|].
    rewrite Hform in Hw.
    apply list_elem_of_filter in Hw as [_ Hw].
    apply elem_of_first_occurrences, list_elem_of_filter in Hw as [_ Hw].
    apply list_elem_of_fmap in Hw as (raw & -> & Hraw). by exists raw.
  - intros Hlen raw Hraw Hw. rewrite take_ge.
    2:{ rewrite length_take in Hlen. lia. }
    rewrite Hform. apply list_elem_of_filter.
    split; [apply not_elem_of_nil|].
    apply elem_of_first_occurrences, list_elem_of_filter. split; [done|].
    apply list_elem_of_fmap. by exists raw.
Qed.

Hypothesis strip_of_alpha : ∀ w : word, isalpha w = true → strip w = w.

Lemma validate_words_of_validated (l : list word) :
  Forall valid_word l → NoDup l → (length l ≤ MAX_WORDS_COUNT)%nat →
  validate_words l = l.
Proof.
  intros Hvalid Hnodup Hlen. unfold Utils.validate_words.
  rewrite validate_loop_closed_form by constructor.
  rewrite app_nil_l, filter_not_in_nil.
  assert ((λ raw, upper (strip raw)) <$> l = l) as ->.
  { clear Hnodup Hlen. induction Hvalid as [|w l (_ & Ha & Hu) _ IH]; [done|].
    by rewrite fmap_cons, IH, strip_of_alpha, upper_of_upper. }
  assert (filter valid_word l = l) as ->.
  { clear Hnodup Hlen. induction Hvalid as [|w l Hw _ IH]; [done|].
    rewrite filter_cons_True by done. by rewrite IH. }
  rewrite first_occurrences_NoDup by done. by apply take_ge.
Qed.

(** X10. [validate_words] is idempotent: a list that it returned is returned
    as it is when it is validated again, as happens to the words that
    [on_words_fetched] writes to the word box and [generate] reads back. *)
Theorem validate_words_idempotent (words_list : list word) :
  validate_words (validate_words words_list) = validate_words words_list.
Proof.
  destruct (validate_loop_valid strip upper isalpha isupper upper_of_upper
              [] words_list) as [Hvalid Hnodup]; [constructor|constructor|].
  apply validate_words_of_validated.
  - unfold Utils.validate_words. rewrite Forall_forall in Hvalid.
    apply Forall_forall.
    intros w (i & Hw%list_elem_of_lookup_2 & _)%elem_of_take.
    by apply Hvalid.
  - unfold Utils.validate_words.
    eapply sublist_NoDup; [exact Hnodup|]. apply sublist_take.
  - unfold Utils.validate_words. rewrite length_take. lia.
Qed.

End ValidateWords.

Section Themes.
Import Utils App.

Lemma lookup_custom_themes
    (themes : gmap (list ascii) (list (list ascii))) (k : list ascii) :
  filter (λ kv : list ascii * list (list ascii),
            DEFAULT_THEMES_DATA !! kv.1 = None) themes !! k
  = match DEFAULT_THEMES_DATA !! k with
    | Some _ => None
    | None => themes !! k
    end.
Proof.
  rewrite map_lookup_filter.
  destruct (themes !! k) as [ws|] eqn:Hk; simpl.
  - destruct (DEFAULT_THEMES_DATA !! k) as [d|] eqn:Hd.
    + rewrite option_guard_False; [done|]. simpl. congruence.
    + rewrite option_guard_True; [done|]. done.
  - by destruct (DEFAULT_THEMES_DATA !! k).
Qed.

(** X11. What comes back from [themes.json]: after [save_themes] wrote a
    dict of themes, [load_themes] gives under a default name the default
    word list, whatever the dict held under it, and under any other name
    what the dict held. So the dict comes back as it was exactly when it
    held the defaults unchanged. When the file cannot be written,
    [save_themes] returns [False] and leaves the file as it was; when it
    is missing or corrupt, [load_themes] gives the defaults. *)
Theorem load_themes_after_save
    (themes : gmap (list ascii) (list (list ascii)))
    (file : option (gmap (list ascii) (list (list ascii)))) :
  (∀ k, load_themes (save_themes themes file true).1 !! k
        = match DEFAULT_THEMES_DATA !! k with
          | Some ws => Some ws
          | None => themes !! k
          end)
  ∧ (load_themes (save_themes themes file true).1 = themes
     ↔ DEFAULT_THEMES_DATA ⊆ themes)
  ∧ save_themes themes file false = (file, false)
  ∧ load_themes None = DEFAULT_THEMES_DATA.
Proof.
  assert (∀ k, load_themes (save_themes themes file true).1 !! k
               = match DEFAULT_THEMES_DATA !! k with
                 | Some ws => Some ws
                 | None => themes !! k
                 end) as Hlookup.
  { intros k. unfold load_themes, save_themes. cbn [fst].
    rewrite lookup_union, lookup_custom_themes.
    destruct (DEFAULT_THEMES_DATA !! k) as [d|] eqn:Hd; [done|].
    by destruct (themes !! k). }
  split; [done|]. split; [|done].
  split.
  - intros <-. apply map_subseteq_spec. intros k ws Hk.
    by rewrite Hlookup, Hk.
  - intros Hsub. apply map_eq. intros k. rewrite Hlookup.
    destruct (DEFAULT_THEMES_DATA !! k) as [d|] eqn:Hd; [|done].
    symmetry. by eapply lookup_weaken.
Qed.

(** X12. A change to a built-in theme does not survive a restart: after
    [save_as_theme] stored words under a name or [delete_theme] removed
    the name, the dict of the running application has the change, and
    what [load_themes] reads from the file at the next start has it for a
    custom name, but has the default word list for the name of a default
    theme. *)
Theorem theme_change_after_restart
    (word_themes : gmap (list ascii) (list (list ascii)))
    (file : option (gmap (list ascii) (list (list ascii))))
    (theme_name : list ascii) (validated : list word) :
  (validated ≠ [] →
     (save_as_theme word_themes file theme_name validated true).1
       !! theme_name = Some validated
     ∧ load_themes (save_as_theme word_themes file theme_name validated true).2
         !! theme_name
       = match DEFAULT_THEMES_DATA !! theme_name with
         | Some ws => Some ws
         | None => Some validated
         end)
  ∧ (is_Some (word_themes !! theme_name) →
     (delete_theme word_themes file theme_name true).1 !! theme_name = None
     ∧ load_themes (delete_theme word_themes file theme_name true).2
         !! theme_name
       = DEFAULT_THEMES_DATA !! theme_name).
Proof.
  split.
  - intros Hne. unfold save_as_theme.
    rewrite bool_decide_eq_false_2 by done. cbn [fst snd].
    split; [by rewrite lookup_insert_eq|].
    unfold load_themes, save_themes. cbn [fst].
    rewrite lookup_union, lookup_custom_themes, lookup_insert_eq.
    by destruct (DEFAULT_THEMES_DATA !! theme_name).
  - intros Hin. unfold delete_theme.
    rewrite bool_decide_eq_true_2 by done. cbn [fst snd].
    split; [by rewrite lookup_delete_eq|].
    unfold load_themes, save_themes. cbn [fst].
    rewrite lookup_union, lookup_custom_themes, lookup_delete_eq.
    by destruct (DEFAULT_THEMES_DATA !! theme_name).
Qed.

End Themes.

(** ** widgets.py *)

Section DragLines.
Import Engine Widgets.

Lemma get_cell_from_pos_in_square (self : PuzzleGrid) (x y r c : Z) :
  within (pg_grid_size self) (r, c) →
  c * CELL_SIZE ≤ x < (c + 1) * CELL_SIZE →
  r * CELL_SIZE ≤ y < (r + 1) * CELL_SIZE →
  get_cell_from_pos self (x, y) = Some (r, c).
Proof.
  unfold get_cell_from_pos, within, CELL_SIZE. cbn [fst snd].
  intros [Hr Hc] Hx Hy.
  assert (x `div` 30 = c) as -> by (symmetry; apply Z.div_unique with (x - 30 * c); lia).
  assert (y `div` 30 = r) as -> by (symmetry; apply Z.div_unique with (y - 30 * r); lia).
  by rewrite !bool_decide_eq_true_2 by done.
Qed.

(** X13. [get_cell_from_pos] gives the cell whose square of side
    [CELL_SIZE] holds the position, when it is a cell of the grid, and
    [None] for every other position. *)
Theorem get_cell_from_pos_iff (self : PuzzleGrid) (x y r c : Z) :
  get_cell_from_pos self (x, y) = Some (r, c)
  ↔ within (pg_grid_size self) (r, c)
    ∧ c * CELL_SIZE ≤ x < (c + 1) * CELL_SIZE
    ∧ r * CELL_SIZE ≤ y < (r + 1) * CELL_SIZE.
Proof.
  split.
  - intros Hcell.
    pose proof (get_cell_from_pos_Some _ _ _ Hcell) as Hin.
    split; [done|]. unfold get_cell_from_pos in Hcell.
    destruct (bool_decide _ && bool_decide _); [|done].
    injection Hcell as <- <-. unfold CELL_SIZE.
    pose proof (Z.div_mod x 30 ltac:(lia)).
    pose proof (Z.mod_pos_bound x 30 ltac:(lia)).
    pose proof (Z.div_mod y 30 ltac:(lia)).
    pose proof (Z.mod_pos_bound y 30 ltac:(lia)).
    lia.
  - intros (Hin & Hx & Hy). by apply get_cell_from_pos_in_square.
Qed.

Lemma sgn_direction (a b : Z) :
  (a, b) ≠ (0, 0) → (Z.sgn a, Z.sgn b) ∈ DIRECTIONS.
Proof.
  intros Hne. unfold DIRECTIONS.
  destruct a as [|a|a], b as [|b|b]; simpl; try done;
    repeat first [ apply list_elem_of_here | apply list_elem_of_further ].
Qed.

Lemma DIRECTIONS_unit d :
  d ∈ DIRECTIONS →
  (d.1 = 0 ∨ d.2 = 0 ∨ Z.abs d.1 = Z.abs d.2)
  ∧ Z.max (Z.abs d.1) (Z.abs d.2) = 1
  ∧ Z.sgn d.1 = d.1 ∧ Z.sgn d.2 = d.2.
Proof.
  unfold DIRECTIONS. rewrite !elem_of_cons, elem_of_nil.
  intros [->|[->|[->|[->|[->|[->|[->|[->|[]]]]]]]]]; simpl; lia.
Qed.

Lemma is_valid_drag_path_along (start : cell) (k : Z) (d : direction) :
  d ∈ DIRECTIONS → is_valid_drag_path start (move start k d) = true.
Proof.
  intros (Hd & _)%DIRECTIONS_unit. apply is_valid_drag_path_true.
  unfold move. cbn [fst snd]. nia.
Qed.

(** X14. The drags that the widget accepts are the lines of the generator:
    [is_valid_drag_path] holds of two cells exactly when the second is the
    first, or is reached from it by a positive number of steps of one of
    the eight [DIRECTIONS]. *)
Theorem is_valid_drag_path_iff (start end_ : cell) :
  is_valid_drag_path start end_ = true
  ↔ end_ = start
    ∨ ∃ d k, d ∈ DIRECTIONS ∧ 0 < k ∧ end_ = move start k d.
Proof.
  split.
  - intros Hline%is_valid_drag_path_true.
    destruct start as [r1 c1], end_ as [r2 c2]. unfold move.
    cbn [fst snd] in *.
    destruct (decide ((r2 - r1, c2 - c1) = (0, 0))) as [[= Hr Hc]|Hne].
    { left. f_equal; lia. }
    right. exists (Z.sgn (r2 - r1), Z.sgn (c2 - c1)),
                  (Z.max (Z.abs (r2 - r1)) (Z.abs (c2 - c1))).
    split; [by apply sgn_direction|].
    assert (r2 - r1 ≠ 0 ∨ c2 - c1 ≠ 0) as Hnz.
    { destruct (decide (r2 - r1 = 0)) as [Hr|]; [|by left].
      right. intros Hc. apply Hne. by rewrite Hr, Hc. }
    split; [lia|]. cbn [fst snd]. f_equal; lia.
  - intros [->|(d & k & Hd & _ & ->)]; [|by apply is_valid_drag_path_along].
    apply is_valid_drag_path_true. lia.
Qed.

(** The cells of a straight line between two cells of the grid are cells
    of the grid. *)
Lemma line_within grid_size (start end_ : cell) :
  is_valid_drag_path start end_ = true →
  within grid_size start → within grid_size end_ →
  Forall (within grid_size)
    ((λ i, (start.1 + Z.sgn (end_.1 - start.1) * i,
            start.2 + Z.sgn (end_.2 - start.2) * i))
       <$> seqZ 0 (Z.max (Z.abs (end_.1 - start.1))
                         (Z.abs (end_.2 - start.2)) + 1)).
Proof.
  intros Hline%is_valid_drag_path_true Hstart Hend. apply Forall_forall.
  destruct start as [r1 c1], end_ as [r2 c2]. unfold within in *.
  cbn [fst snd] in *.
  intros rc (i & -> & Hi)%list_elem_of_fmap.
  apply elem_of_seqZ in Hi. cbn [fst snd]. nia.
Qed.

(** A straight drag between two cells of the grid is not clipped. *)
Lemma get_path_between_full self start end_ :
  is_valid_drag_path start end_ = true →
  within (pg_grid_size self) start → within (pg_grid_size self) end_ →
  get_path_between self start end_
    = (λ i, (start.1 + Z.sgn (end_.1 - start.1) * i,
             start.2 + Z.sgn (end_.2 - start.2) * i))
        <$> seqZ 0 (Z.max (Z.abs (end_.1 - start.1))
                          (Z.abs (end_.2 - start.2)) + 1).
Proof.
  intros Hline Hstart Hend.
  rewrite get_path_between_line by done. unfold inclusive_line.
  apply filter_within. by apply line_within.
Qed.

(** The line that [get_word_path] gives for a non-empty word, as the drag
    from its first cell to its last. *)
Lemma get_path_between_get_word_path self (w : word) start_row start_col d :
  w ≠ [] → d ∈ DIRECTIONS →
  within (pg_grid_size self) (start_row, start_col) →
  within (pg_grid_size self)
    (move (start_row, start_col) (Z.of_nat (length w) - 1) d) →
  is_valid_drag_path (start_row, start_col)
    (move (start_row, start_col) (Z.of_nat (length w) - 1) d) = true
  ∧ get_path_between self (start_row, start_col)
      (move (start_row, start_col) (Z.of_nat (length w) - 1) d)
    = get_word_path w start_row start_col d.
Proof.
  intros Hw Hd Hstart Hend.
  assert (0 ≤ Z.of_nat (length w) - 1) as Hlen.
  { destruct w; [done|]. simpl. lia. }
  assert (is_valid_drag_path (start_row, start_col)
            (move (start_row, start_col) (Z.of_nat (length w) - 1) d) = true)
    as Hline.
  { by apply is_valid_drag_path_along. }
  split; [done|].
  rewrite get_path_between_full by done.
  apply DIRECTIONS_unit in Hd as (_ & Hmax & Hsr & Hsc).
  destruct d as [dr dc]. unfold move, get_word_path. cbn [fst snd] in *.
  replace (start_row + (Z.of_nat (length w) - 1) * dr - start_row)
    with ((Z.of_nat (length w) - 1) * dr) by lia.
  replace (start_col + (Z.of_nat (length w) - 1) * dc - start_col)
    with ((Z.of_nat (length w) - 1) * dc) by lia.
  assert (Z.max (Z.abs ((Z.of_nat (length w) - 1) * dr))
                (Z.abs ((Z.of_nat (length w) - 1) * dc)) + 1
          = Z.of_nat (length w)) as -> by nia.
  apply list_fmap_ext. intros k i [-> Hi]%lookup_seqZ.
  destruct (decide (Z.of_nat (length w) - 1 = 0)) as [Hz|Hnz].
  - assert (k = 0%nat) as -> by lia. f_equal; lia.
  - rewrite !Z.sgn_mul, Hsr, Hsc.
    rewrite (Z.sgn_pos (Z.of_nat (length w) - 1)) by lia. f_equal; lia.
Qed.

Lemma get_word_path_reverse (w : word) start_row start_col d :
  reverse (get_word_path w start_row start_col d)
  = get_word_path w
      (move (start_row, start_col) (Z.of_nat (length w) - 1) d).1
      (move (start_row, start_col) (Z.of_nat (length w) - 1) d).2
      (- d.1, - d.2).
Proof.
  destruct d as [dr dc]. apply list_eq. intros i.
  destruct (decide (i < length w)%nat) as [Hi|Hi].
  - rewrite reverse_lookup by (by rewrite length_get_word_path).
    rewrite length_get_word_path.
    transitivity (Some (start_row + Z.of_nat (length w - S i) * dr,
                        start_col + Z.of_nat (length w - S i) * dc)).
    + apply lookup_get_word_path. split; [lia|done].
    + symmetry. apply lookup_get_word_path. split; [done|].
      unfold move. cbn [fst snd].
      replace (Z.of_nat (length w - S i))
        with (Z.of_nat (length w) - 1 - Z.of_nat i) by lia.
      f_equal; lia.
  - rewrite !lookup_ge_None_2; [done|..].
    + rewrite length_get_word_path. lia.
    + rewrite length_reverse, length_get_word_path. lia.
Qed.

Lemma DIRECTIONS_opposite d : d ∈ DIRECTIONS → (- d.1, - d.2) ∈ DIRECTIONS.
Proof.
  intros Hd. unfold DIRECTIONS in Hd. rewrite !elem_of_cons, elem_of_nil in Hd.
  destruct Hd as [->|[->|[->|[->|[->|[->|[->|[->|[]]]]]]]]]; simpl;
    unfold DIRECTIONS;
    repeat first [ apply list_elem_of_here | apply list_elem_of_further ].
Qed.

Lemma get_path_between_reverse_word_path self (w : word)
    start_row start_col d :
  w ≠ [] → d ∈ DIRECTIONS →
  within (pg_grid_size self) (start_row, start_col) →
  within (pg_grid_size self)
    (move (start_row, start_col) (Z.of_nat (length w) - 1) d) →
  is_valid_drag_path
    (move (start_row, start_col) (Z.of_nat (length w) - 1) d)
    (start_row, start_col) = true
  ∧ get_path_between self
      (move (start_row, start_col) (Z.of_nat (length w) - 1) d)
      (start_row, start_col)
    = reverse (get_word_path w start_row start_col d).
Proof.
  intros Hw Hd Hstart Hend.
  rewrite get_word_path_reverse.
  pose proof (get_path_between_get_word_path self w
                (move (start_row, start_col) (Z.of_nat (length w) - 1) d).1
                (move (start_row, start_col) (Z.of_nat (length w) - 1) d).2
                (- d.1, - d.2) Hw (DIRECTIONS_opposite d Hd)) as Hrev.
  assert (move
            ((move (start_row, start_col) (Z.of_nat (length w) - 1) d).1,
             (move (start_row, start_col) (Z.of_nat (length w) - 1) d).2)
            (Z.of_nat (length w) - 1) (- d.1, - d.2)
          = (start_row, start_col)) as Hback.
  { unfold move. cbn [fst snd]. f_equal; lia. }
  rewrite Hback in Hrev.
  assert (((move (start_row, start_col) (Z.of_nat (length w) - 1) d).1,
           (move (start_row, start_col) (Z.of_nat (length w) - 1) d).2)
          = move (start_row, start_col) (Z.of_nat (length w) - 1) d) as Hpair
    by (by destruct (move (start_row, start_col) (Z.of_nat (length w) - 1) d)).
  rewrite Hpair in Hrev. by apply Hrev.
Qed.

(** X15. A drag along a line of the generator selects that line: for a
    non-empty word, a direction of [DIRECTIONS] and a start cell such that
    the first and the last cell of [get_word_path] are cells of the grid,
    the widget accepts the drag from the first cell to the last and
    [get_path_between] gives the path of [get_word_path]; it accepts the
    drag from the last cell to the first as well and gives the reversed
    path. *)
Theorem drag_selects_word_path (self : PuzzleGrid) (w : word)
    (start_row start_col : Z) (d : direction) :
  w ≠ [] → d ∈ DIRECTIONS →
  within (pg_grid_size self) (start_row, start_col) →
  within (pg_grid_size self)
    (move (start_row, start_col) (Z.of_nat (length w) - 1) d) →
  (is_valid_drag_path (start_row, start_col)
     (move (start_row, start_col) (Z.of_nat (length w) - 1) d) = true
   ∧ get_path_between self (start_row, start_col)
       (move (start_row, start_col) (Z.of_nat (length w) - 1) d)
     = get_word_path w start_row start_col d)
  ∧ (is_valid_drag_path
       (move (start_row, start_col) (Z.of_nat (length w) - 1) d)
       (start_row, start_col) = true
     ∧ get_path_between self
         (move (start_row, start_col) (Z.of_nat (length w) - 1) d)
         (start_row, start_col)
       = reverse (get_word_path w start_row start_col d)).
Proof.
  intros Hw Hd Hstart Hend.
  split; [by apply get_path_between_get_word_path|].
  by apply get_path_between_reverse_word_path.
Qed.

Lemma mouseMoveEvent_drag_line (self : PuzzleGrid) start current pos :
  drag_line self start current →
  ∃ self' current',
    mouseMoveEvent self pos = Some self'
    ∧ drag_line self' start current'
    ∧ is_dragging self' = is_dragging self.
Proof.
  intros Hline.
  pose proof Hline as (Hstart & Hcur & Hws & Hwc & Hvalid & Hpath).
  unfold mouseMoveEvent.
  destruct (is_dragging self && truthy (pg_grid self));
    [|by exists self, current].
  destruct (get_cell_from_pos self pos) as [c|] eqn:Hc;
    [|by exists self, current].
  case_bool_decide as Hnew; [|by exists self, current].
  rewrite Hstart. cbn [mbind option_bind].
  destruct (is_valid_drag_path start c) eqn:Hvalid';
    [|by exists self, current].
  eexists _, c. split; [done|]. split; [|done].
  apply get_cell_from_pos_Some in Hc.
  repeat split; try done; apply Hws || apply Hc.
Qed.

Lemma drag_line_path (self : PuzzleGrid) start current :
  drag_line self start current →
  head (current_temp_path self) = Some start
  ∧ last (current_temp_path self) = Some current
  ∧ Forall (within (pg_grid_size self)) (current_temp_path self)
  ∧ Z.of_nat (length (current_temp_path self))
    = Z.max (Z.abs (current.1 - start.1)) (Z.abs (current.2 - start.2)) + 1.
Proof.
  intros (_ & _ & Hws & Hwc & Hvalid & ->).
  rewrite get_path_between_full by done.
  set (steps := Z.max (Z.abs (current.1 - start.1))
                      (Z.abs (current.2 - start.2))).
  assert (0 ≤ steps) as Hsteps by (unfold steps; lia).
  split; [|split; [|split]].
  - rewrite head_lookup, list_lookup_fmap.
    rewrite (proj2 (lookup_seqZ 0 (steps + 1) 0 0)) by lia.
    simpl. destruct start. cbn [fst snd]. f_equal. f_equal; lia.
  - rewrite last_lookup, length_fmap, length_seqZ, list_lookup_fmap.
    rewrite (proj2 (lookup_seqZ 0 (steps + 1) _ steps)) by lia.
    apply is_valid_drag_path_true in Hvalid.
    simpl. destruct start, current. unfold steps in *. cbn [fst snd] in *.
    f_equal. f_equal; lia.
  - by apply line_within.
  - rewrite length_fmap, length_seqZ. lia.
Qed.

(** X16. Take a widget with a grid and an application whose grid has no
    row shorter than the grid has rows, so that the [redraw] of
    [set_grid] returns in the slot of the press. From a press on a cell
    of the grid on, whatever the positions the pointer moves over,
    [mouseMoveEvent] never raises, the drag stays on, and the temporary
    path is the whole line from the cell of the press to a current cell
    on one row, column or diagonal with it: it starts at the one, ends at
    the other, has one cell for each step and no cell outside the grid.
    The [redraw] that ends the press and each move returns: it returns on
    the widget that the events leave, whatever the positions. *)
Theorem drag_path_stays_a_line (self : WordSearchApp) (pos : Z * Z)
    (positions : list (Z * Z)) (c : cell) :
  truthy (pg_grid (puzzle_grid self)) = true →
  (∀ g, app_grid self = Some g → drawable g) →
  get_cell_from_pos (puzzle_grid (App.on_puzzle_clicked self)) pos = Some c →
  ∃ self' current,
    pointer_moves (App.mousePressEvent self true pos) positions = Some self'
    ∧ is_dragging (puzzle_grid self') = true
    ∧ drag_line (puzzle_grid self') c current
    ∧ head (current_temp_path (puzzle_grid self')) = Some c
    ∧ last (current_temp_path (puzzle_grid self')) = Some current
    ∧ Forall (within (pg_grid_size (puzzle_grid self')))
        (current_temp_path (puzzle_grid self'))
    ∧ Z.of_nat (length (current_temp_path (puzzle_grid self')))
      = Z.max (Z.abs (current.1 - c.1)) (Z.abs (current.2 - c.2)) + 1
    ∧ is_Some (redraw (puzzle_grid (App.on_puzzle_clicked self)))
    ∧ is_Some (redraw (puzzle_grid self')).
Proof.
  intros Hgrid Hwide Hc.
  assert (is_Some (redraw (puzzle_grid (App.on_puzzle_clicked self))))
    as Hslot by (by apply set_grid_redraw).
  assert (is_dragging (puzzle_grid (App.mousePressEvent self true pos)) = true
          ∧ drag_line (puzzle_grid (App.mousePressEvent self true pos)) c c
          ∧ is_Some (redraw (puzzle_grid
                               (App.mousePressEvent self true pos))))
    as (Hdrag & Hline & Hdraws).
  { unfold App.mousePressEvent. rewrite Hgrid, Hc. cbn [andb].
    split; [done|].
    pose proof (get_cell_from_pos_Some _ _ _ Hc) as Hin.
    split.
    - repeat split; try done; try apply Hin.
      + destruct c as [r c]. unfold is_valid_drag_path.
        rewrite Z.sub_diag. done.
      + destruct c as [r c]. unfold get_path_between.
        rewrite !Z.sub_diag. done.
    - by apply (redraw_same_grid (puzzle_grid (App.on_puzzle_clicked self))). }
  revert Hdrag Hline Hdraws.
  generalize (App.mousePressEvent self true pos) at 1 2 3 4.
  generalize c at 2.
  induction positions as [|p rest IH]; intros current st Hdrag Hline Hdraws.
  - exists st, current. split; [done|]. split; [done|]. split; [done|].
    destruct (drag_line_path _ _ _ Hline) as (? & ? & ? & ?). done.
  - cbn [pointer_moves]. unfold App.mouseMoveEvent.
    destruct (mouseMoveEvent_drag_line _ _ _ p Hline)
      as (pg' & current' & Hmove & Hline' & Hdrag').
    rewrite Hmove. cbn [mbind option_bind].
    apply mouseMoveEvent_same_grid in Hmove as [Hsame Hside].
    apply (IH current'); [by rewrite <- Hdrag|done|].
    by apply (redraw_same_grid (puzzle_grid st)).
Qed.

End DragLines.

(** ** main.py: finding a word with the mouse *)

Section Solving.
Import Engine Generator Widgets App.

Lemma letters_along_path (g : grid) (path : list cell) (w : word) :
  length path = length w →
  (∀ (i : nat) ch, w !! i = Some ch →
     ∃ rc, path !! i = Some rc ∧ grid_get g rc.1 rc.2 = Some ch) →
  letters_along (Some g) path = Some w.
Proof.
  revert w. induction path as [|rc path IH]; intros [|ch w] Hlen Hcells;
    try done.
  rewrite letters_along_cons.
  destruct (Hcells 0%nat ch eq_refl) as (rc' & [= <-] & ->).
  cbn [mbind option_bind]. rewrite (IH w); [done|by injection Hlen|].
  intros i x Hx. by apply (Hcells (S i)).
Qed.

(** The letters read along the path of a placement are its word. *)
Lemma letters_along_placement (g : grid) (p : placement) :
  placed_on g p → blank ∉ pw_word p →
  letters_along (Some g) (pw_path p) = Some (pw_word p).
Proof.
  intros (Hlen & Hin & Hletters) Hnb. apply letters_along_path; [done|].
  intros i ch Hch.
  destruct (Hletters i ch Hch) as (rc & Hrc & Hat).
  { intros ->. apply Hnb. by eapply list_elem_of_lookup_2. }
  exists rc. split; [done|].
  destruct (Hin rc) as [Hr Hc]; [by eapply list_elem_of_lookup_2|].
  destruct rc as [r c]. cbn [fst snd] in *.
  rewrite grid_get_letter_at by lia. done.
Qed.

Lemma get_cell_from_pos_corner (self : PuzzleGrid) (rc : cell) :
  within (pg_grid_size self) rc →
  get_cell_from_pos self (corner rc) = Some rc.
Proof.
  intros Hin. destruct rc as [r c]. unfold corner. cbn [fst snd].
  apply get_cell_from_pos_in_square; [done|unfold CELL_SIZE; lia..].
Qed.

(** The state in which [on_word_selected] runs at the end of a drag from
    the cell [first] to the cell [last_] of the grid, when the two are on
    one line: the path is the line between them. *)
Lemma drag_selects (self : WordSearchApp) (g : grid) (first last_ : cell) :
  shows self g →
  within (Z.of_nat (length g)) first → within (Z.of_nat (length g)) last_ →
  is_valid_drag_path first last_ = true →
  ∃ st,
    drag self (corner first) (corner last_)
    = (self2 ← on_word_selected st
                 (get_path_between (puzzle_grid self) first last_);
       Some (with_widget self2
               (with_drag (puzzle_grid self2)
                  (is_dragging (puzzle_grid self2))
                  (drag_start_cell (puzzle_grid self2))
                  (drag_current_cell (puzzle_grid self2)) [])))
    ∧ shows st g
    ∧ words st = words self
    ∧ placed_words st = placed_words self
    ∧ grid_size st = grid_size self
    ∧ unfound_words st = unfound_words self
    ∧ found_words st = found_words self
    ∧ found_paths st = found_paths self
    ∧ notices st = notices self
    ∧ hint_paths st = ∅
    ∧ selected_word st = None
    ∧ is_dragging (puzzle_grid st) = false
    ∧ pg_found_paths (puzzle_grid st) = found_paths self
    ∧ pg_hint_paths (puzzle_grid st) = ∅.
Proof.
  intros (Hgrid & Hpg & Hsize) Hfirst Hlast Hvalid.
  assert (truthy (Some g) = true) as Htruthy.
  { destruct g; [|done]. destruct Hfirst as [? _]. simpl in *. lia. }
  unfold drag, mousePressEvent. rewrite Hpg, Htruthy. cbn [andb].
  set (pg1 := puzzle_grid (on_puzzle_clicked self)).
  assert (pg_grid pg1 = Some g ∧ pg_grid_size pg1 = Z.of_nat (length g)
          ∧ pg_found_paths pg1 = found_paths self ∧ pg_hint_paths pg1 = ∅)
    as (Hpg1 & Hsize1 & Hfound1 & Hhint1).
  { unfold pg1, on_puzzle_clicked, clear_hints, refresh_widget, set_grid.
    cbn. rewrite Hgrid, Htruthy. done. }
  clearbody pg1.
  rewrite get_cell_from_pos_corner by (by rewrite Hsize1).
  unfold App.mouseMoveEvent, Widgets.mouseMoveEvent.
  cbn [puzzle_grid with_widget].
  cbn [is_dragging pg_grid with_drag]. rewrite Hpg1, Htruthy. cbn [andb].
  rewrite get_cell_from_pos_corner
    by (cbn [pg_grid_size with_drag]; by rewrite Hsize1).
  cbn [drag_current_cell drag_start_cell with_drag].
  assert (get_path_between (puzzle_grid self) first last_
          = get_path_between
              (with_drag pg1 true (Some first) (Some first) [first])
              first last_) as Hpath.
  { unfold get_path_between. cbn [pg_grid_size with_drag].
    by rewrite Hsize, Hsize1. }
  assert (get_path_between (puzzle_grid self) first last_ ≠ []) as Hne.
  { rewrite get_path_between_full by (by rewrite ?Hsize).
    intros Hnil%fmap_nil_inv.
    apply (f_equal length) in Hnil. rewrite length_seqZ in Hnil.
    simpl in Hnil. lia. }
  case_bool_decide as Hmoved.
  - cbn [mbind option_bind]. rewrite Hvalid. cbn [mbind option_bind].
    unfold mouseReleaseEvent.
    cbn [puzzle_grid with_widget is_dragging with_drag andb
         current_temp_path drag_start_cell drag_current_cell].
    rewrite <- Hpath.
    destruct (get_path_between (puzzle_grid self) first last_) as [|rc path]
      eqn:Hgpb; [done|].
    eexists. split; [reflexivity|].
    unfold shows. cbn. rewrite Hpg1, Hsize1, Hfound1, Hhint1, Hgrid. done.
  - assert (last_ = first) as -> by congruence.
    cbn [mbind option_bind]. unfold mouseReleaseEvent.
    cbn [puzzle_grid with_widget is_dragging with_drag andb
         current_temp_path drag_start_cell drag_current_cell].
    assert (get_path_between (puzzle_grid self) first first = [first])
      as ->.
    { destruct first as [r c]. unfold get_path_between.
      rewrite !Z.sub_diag. done. }
    eexists. split; [reflexivity|].
    unfold shows. cbn. rewrite Hpg1, Hsize1, Hfound1, Hhint1, Hgrid. done.
Qed.

Lemma straight_ends (g : grid) (p : placement) :
  straight (Z.of_nat (length g)) p → placed_on g p → pw_word p ≠ [] →
  ∃ start_row start_col,
    pw_direction p ∈ DIRECTIONS
    ∧ pw_path p
      = get_word_path (pw_word p) start_row start_col (pw_direction p)
    ∧ head (pw_path p) = Some (start_row, start_col)
    ∧ last (pw_path p)
      = Some (move (start_row, start_col)
                (Z.of_nat (length (pw_word p)) - 1) (pw_direction p))
    ∧ within (Z.of_nat (length g)) (start_row, start_col)
    ∧ within (Z.of_nat (length g))
        (move (start_row, start_col)
           (Z.of_nat (length (pw_word p)) - 1) (pw_direction p)).
Proof.
  intros (r & c & Hr & Hc & Hd & Hpath) (_ & Hin & _) Hw.
  exists r, c. split; [done|]. split; [done|].
  assert (0 < length (pw_word p))%nat as Hlen
    by (destruct (pw_word p); [done|simpl; lia]).
  assert (pw_path p !! (length (pw_word p) - 1)%nat
          = Some (move (r, c) (Z.of_nat (length (pw_word p)) - 1)
                    (pw_direction p))) as Hlast.
  { rewrite Hpath. destruct (pw_direction p) as [dr dc].
    apply lookup_get_word_path. split; [lia|].
    unfold move. cbn [fst snd].
    replace (Z.of_nat (length (pw_word p) - 1))
      with (Z.of_nat (length (pw_word p)) - 1) by lia. done. }
  split; [|split; [|split; [done|]]].
  - rewrite head_lookup, Hpath. destruct (pw_direction p) as [dr dc].
    apply lookup_get_word_path. split; [done|]. f_equal; lia.
  - rewrite last_lookup. rewrite <- Hlast. f_equal.
    rewrite Hpath, length_get_word_path. lia.
  - apply Hin. by eapply list_elem_of_lookup_2.
Qed.

Lemma accept_word_state (st : WordSearchApp) (g : grid) (x : word)
    (path : list cell) :
  shows st g → g ≠ [] →
  shows (accept_word st x path) g
  ∧ placed_words (accept_word st x path) = placed_words st
  ∧ grid_size (accept_word st x path) = grid_size st
  ∧ hint_paths (accept_word st x path) = hint_paths st
  ∧ selected_word (accept_word st x path) = selected_word st
  ∧ pg_hint_paths (puzzle_grid (accept_word st x path)) = hint_paths st
  ∧ is_dragging (puzzle_grid (accept_word st x path))
    = is_dragging (puzzle_grid st)
  ∧ notices (accept_word st x path)
    = notices st ++ Found x
        :: (if bool_decide (unfound_words st ∖ {[x]} = ∅)
            then [PuzzleCompleted] else []).
Proof.
  intros (Hgrid & Hpg & Hsize) Hne. unfold accept_word, shows.
  cbn [unfound_words notify refresh_widget with_widget record_found].
  destruct g as [|row rows]; [done|].
  destruct (bool_decide (unfound_words st ∖ {[x]} = ∅)); cbn;
    rewrite Hgrid; cbn; by rewrite <- ?app_assoc.
Qed.

Lemma brush_of_found (self : PuzzleGrid) (path : list cell) (rc : cell) :
  list_to_set path ∈ pg_found_paths self → pg_hint_paths self = ∅ →
  rc ∈ path → cell_brush self rc = found_color.
Proof.
  intros Hfound Hhint Hrc. unfold cell_brush. rewrite Hhint.
  rewrite (bool_decide_eq_false_2 (set_Exists _ ∅)).
  2:{ intros (X & HX & _). by apply elem_of_empty in HX. }
  rewrite bool_decide_eq_true_2; [done|].
  exists (list_to_set path). split; [done|]. by apply elem_of_list_to_set.
Qed.

Lemma letters_along_reverse (g : grid) (path : list cell) (w : word) :
  letters_along (Some g) path = Some w →
  letters_along (Some g) (reverse path) = Some (reverse w).
Proof.
  unfold letters_along. cbn [mbind option_bind]. rewrite !mapM_Some.
  apply Forall2_reverse.
Qed.

(** X17. A word that the puzzle holds can be found with the mouse. Take an
    application that shows a grid none of whose rows is shorter than the
    grid has rows, so that [redraw] returns on every widget that has this
    grid and counts its rows, as the widget does in each event and slot
    of the drag; take a placement that lies on the grid along a straight
    line, as the generator makes them, and whose word, with at least one
    letter and no blank, is a word of the puzzle that is not found yet.
    Pressing the left button on the first cell of its path, moving to the
    last cell and releasing the button marks the word found along the
    path: the three events return, the word and the path join the found
    sets, the hints and the selection of the word list are cleared, the
    drag is over, and [redraw] returns and paints every cell of the path
    with the found colour. The drag from the last cell to the first does
    the same along the reversed path, unless the word read backwards is
    itself a word of the puzzle that is not found yet. *)
Theorem placed_word_found_by_drag (self : WordSearchApp) (g : grid)
    (p : placement) :
  shows self g → drawable g →
  straight (Z.of_nat (length g)) p → placed_on g p →
  pw_word p ≠ [] → blank ∉ pw_word p →
  is_target self (pw_word p) →
  ∃ first last_,
    head (pw_path p) = Some first ∧ last (pw_path p) = Some last_
    ∧ (∃ self',
         drag self (corner first) (corner last_) = Some self'
         ∧ marks_found self self' (pw_word p) (pw_path p)
         ∧ shows self' g
         ∧ hint_paths self' = ∅ ∧ selected_word self' = None
         ∧ is_dragging (puzzle_grid self') = false
         ∧ current_temp_path (puzzle_grid self') = []
         ∧ (∀ rc, rc ∈ pw_path p →
              cell_brush (puzzle_grid self') rc = found_color)
         ∧ is_Some (redraw (puzzle_grid self')))
    ∧ (¬ is_target self (Py.reversed (pw_word p)) →
       ∃ self',
         drag self (corner last_) (corner first) = Some self'
         ∧ marks_found self self' (pw_word p) (reverse (pw_path p))
         ∧ shows self' g
         ∧ is_Some (redraw (puzzle_grid self')))
    ∧ (∀ pg, pg_grid pg = Some g → pg_grid_size pg = Z.of_nat (length g) →
         is_Some (redraw pg)).
Proof.
  intros Hshows Hwide Hstraight Hon Hw Hnb Htarget.
  assert (∀ pg, pg_grid pg = Some g → pg_grid_size pg = Z.of_nat (length g) →
            is_Some (redraw pg)) as Hdraws.
  { intros pg Hpg Hside. by apply (redraw_returns pg g). }
  destruct (straight_ends g p Hstraight Hon Hw)
    as (r & c & Hd & Hpath & Hhead & Hlast & Hwf & Hwl).
  exists (r, c), (move (r, c) (Z.of_nat (length (pw_word p)) - 1)
                    (pw_direction p)).
  split; [done|]. split; [done|].
  pose proof Hshows as (Hgrid & Hpg & Hsize).
  assert (g ≠ []) as Hg.
  { intros ->. destruct Hwf as [? _]. simpl in *. lia. }
  pose proof (letters_along_placement g p Hon Hnb) as Hletters.
  split.
  - destruct (get_path_between_get_word_path (puzzle_grid self) (pw_word p)
                r c (pw_direction p) Hw Hd) as [Hvalid Hgpb];
      [by rewrite Hsize..|].
    destruct (drag_selects self g _ _ Hshows Hwf Hwl Hvalid)
      as (st & Hdrag & Hst & Hwords & Hplaced & Hgs & Hunf & Hfw & Hfp & Hnt
          & Hhint & Hsel & Hdragging & Hpgf & Hpgh).
    rewrite Hgpb, <- Hpath in Hdrag. rewrite Hdrag.
    pose proof Hst as (Hgrid' & _).
    rewrite (on_word_selected_cases st (pw_path p) (pw_word p))
      by (by rewrite Hgrid').
    rewrite bool_decide_eq_true_2
      by (unfold is_target; by rewrite Hwords, Hfw).
    cbn [mbind option_bind]. eexists. split; [reflexivity|].
    destruct (accept_word_marks st (pw_word p) (pw_path p))
      as (Hm1 & Hm2 & Hm3 & Hm4 & Hm5 & Hm6).
    destruct (accept_word_state st g (pw_word p) (pw_path p) Hst Hg)
      as (Hs1 & Hs2 & Hs3 & Hs4 & Hs5 & Hs6 & Hs7 & Hs8).
    split.
    { unfold marks_found. cbn [found_words found_paths unfound_words words
        app_grid with_widget puzzle_grid pg_found_paths with_drag].
      rewrite Hm1, Hm2, Hm3, Hm4, Hm5, Hm6, Hm2.
      rewrite Hfw, Hfp, Hunf, Hwords, Hgrid', Hgrid. done. }
    split.
    { destruct Hs1 as (? & ? & ?). unfold shows.
      cbn [app_grid with_widget puzzle_grid pg_grid pg_grid_size with_drag].
      done. }
    cbn [hint_paths selected_word with_widget puzzle_grid is_dragging
         current_temp_path with_drag].
    split; [by rewrite Hs4|]. split; [by rewrite Hs5|].
    split; [by rewrite Hs7|]. split; [done|].
    split.
    { intros rc Hrc. apply (brush_of_found _ (pw_path p)); [| |done].
      + cbn [pg_found_paths with_drag]. rewrite Hm6, Hm2.
        apply elem_of_union_l, elem_of_singleton. done.
      + cbn [pg_hint_paths with_drag]. by rewrite Hs6. }
    destruct Hs1 as (? & ? & ?). by apply Hdraws.
  - split; [|done]. intros Hrev.
    destruct (get_path_between_reverse_word_path (puzzle_grid self)
                (pw_word p) r c (pw_direction p) Hw Hd) as [Hvalid Hgpb];
      [by rewrite Hsize..|].
    destruct (drag_selects self g _ _ Hshows Hwl Hwf Hvalid)
      as (st & Hdrag & Hst & Hwords & Hplaced & Hgs & Hunf & Hfw & Hfp & Hnt
          & Hhint & Hsel & Hdragging & Hpgf & Hpgh).
    rewrite Hgpb, <- Hpath in Hdrag. rewrite Hdrag.
    pose proof Hst as (Hgrid' & _).
    rewrite (on_word_selected_cases st (reverse (pw_path p))
               (reverse (pw_word p)))
      by (rewrite Hgrid'; by apply letters_along_reverse).
    rewrite bool_decide_eq_false_2
      by (unfold is_target; by rewrite Hwords, Hfw).
    unfold Py.reversed. rewrite reverse_involutive.
    rewrite bool_decide_eq_true_2
      by (unfold is_target; by rewrite Hwords, Hfw).
    cbn [mbind option_bind]. eexists. split; [reflexivity|].
    destruct (accept_word_marks st (pw_word p) (reverse (pw_path p)))
      as (Hm1 & Hm2 & Hm3 & Hm4 & Hm5 & Hm6).
    destruct (accept_word_state st g (pw_word p) (reverse (pw_path p))
                Hst Hg) as ((Hs1 & Hs2 & Hs3) & _).
    split.
    { unfold marks_found. cbn [found_words found_paths unfound_words words
        app_grid with_widget puzzle_grid pg_found_paths with_drag].
      rewrite Hm1, Hm2, Hm3, Hm4, Hm5, Hm6, Hm2.
      rewrite Hfw, Hfp, Hunf, Hwords, Hgrid', Hgrid. done. }
    split; [done|]. by apply Hdraws.
Qed.

Lemma reports_completion_refl self : reports_completion self self.
Proof. exists []. rewrite app_nil_r. split; [done|]. by left. Qed.

Lemma reports_completion_trans self1 self2 self3 :
  reports_completion self1 self2 → reports_completion self2 self3 →
  reports_completion self1 self3.
Proof.
  intros (e1 & Hn1 & Hc1) (e2 & Hn2 & Hc2). exists (e1 ++ e2).
  split; [by rewrite Hn2, Hn1, app_assoc|].
  intros Hdone. destruct (Hc2 Hdone) as [Hdone'|Hin].
  - destruct (Hc1 Hdone') as [?|Hin]; [by left|].
    right. apply elem_of_app. by left.
  - right. apply elem_of_app. by right.
Qed.

Lemma accept_word_consistent (st : WordSearchApp) (g : grid) (x : word)
    (path : list cell) :
  shows st g → g ≠ [] → consistent st → x ∈ words st →
  consistent (accept_word st x path)
  ∧ reports_completion st (accept_word st x path).
Proof.
  intros Hst Hg (Hsub & Hunf & Hpf & Hph) Hx.
  destruct (accept_word_marks st x path)
    as (Hm1 & Hm2 & Hm3 & Hm4 & Hm5 & Hm6).
  destruct (accept_word_state st g x path Hst Hg)
    as (Hs1 & Hs2 & Hs3 & Hs4 & Hs5 & Hs6 & Hs7 & Hs8).
  split.
  - unfold consistent. rewrite Hm1, Hm3, Hm4, Hm6, Hs4, Hs6, Hunf.
    split; [|split; [|done]].
    + intros y [->%elem_of_singleton|Hy]%elem_of_union; [done|by apply Hsub].
    + apply set_eq. intros y.
      rewrite !elem_of_difference, elem_of_union, elem_of_singleton. tauto.
  - eexists. split; [exact Hs8|]. rewrite Hm3. intros Hdone.
    rewrite bool_decide_eq_true_2 by done. right.
    apply elem_of_cons. right. apply list_elem_of_singleton. done.
Qed.

(** One selection of a path along which the grid reads a word of the
    puzzle. *)
Lemma on_word_selected_progress (st : WordSearchApp) (g : grid)
    (path : list cell) (w : word) :
  shows st g → g ≠ [] → consistent st →
  letters_along (Some g) path = Some w → w ∈ words st →
  ∃ st',
    on_word_selected st path = Some st'
    ∧ shows st' g ∧ consistent st'
    ∧ words st' = words st
    ∧ placed_words st' = placed_words st
    ∧ found_words st ⊆ found_words st'
    ∧ w ∈ found_words st'
    ∧ reports_completion st st'.
Proof.
  intros Hst Hg Hcons Hletters Hw.
  pose proof Hst as (Hgrid & _).
  rewrite (on_word_selected_cases st path w) by (by rewrite Hgrid).
  case_bool_decide as Hfwd.
  - destruct Hfwd as [_ Hnew].
    destruct (accept_word_consistent st g w path Hst Hg Hcons Hw)
      as [Hcons' Hrep].
    destruct (accept_word_marks st w path) as (Hm1 & _ & _ & Hm4 & _).
    destruct (accept_word_state st g w path Hst Hg) as (Hs1 & Hs2 & _).
    eexists. split; [done|]. split; [done|]. split; [done|].
    split; [done|]. split; [done|]. rewrite Hm1.
    split; [by apply union_subseteq_r|]. split; [|done].
    apply elem_of_union_l, elem_of_singleton. done.
  - assert (w ∈ found_words st) as Hfound.
    { destruct (decide (w ∈ found_words st)); [done|].
      exfalso. apply Hfwd. by split. }
    case_bool_decide as Hbwd.
    + destruct Hbwd as [Hrev _].
      destruct (accept_word_consistent st g (Py.reversed w) path Hst Hg
                  Hcons Hrev) as [Hcons' Hrep].
      destruct (accept_word_marks st (Py.reversed w) path)
        as (Hm1 & _ & _ & Hm4 & _).
      destruct (accept_word_state st g (Py.reversed w) path Hst Hg)
        as (Hs1 & Hs2 & _).
      eexists. split; [done|]. split; [done|]. split; [done|].
      split; [done|]. split; [done|]. rewrite Hm1.
      split; [by apply union_subseteq_r|]. split; [|done].
      by apply elem_of_union_r.
    + exists st. split; [done|]. split; [done|]. split; [done|].
      split; [done|]. split; [done|]. split; [done|]. split; [done|].
      apply reports_completion_refl.
Qed.

(** One drag along a placement whose word is a word of the puzzle. *)
Lemma drag_progress (self : WordSearchApp) (g : grid) (p : placement) :
  shows self g → consistent self →
  straight (Z.of_nat (length g)) p → placed_on g p →
  pw_word p ≠ [] → blank ∉ pw_word p → pw_word p ∈ words self →
  ∃ first last_ self',
    head (pw_path p) = Some first ∧ last (pw_path p) = Some last_
    ∧ drag self (corner first) (corner last_) = Some self'
    ∧ shows self' g ∧ consistent self'
    ∧ words self' = words self
    ∧ found_words self ⊆ found_words self'
    ∧ pw_word p ∈ found_words self'
    ∧ reports_completion self self'.
Proof.
  intros Hshows Hcons Hstraight Hon Hw Hnb Hin.
  destruct (straight_ends g p Hstraight Hon Hw)
    as (r & c & Hd & Hpath & Hhead & Hlast & Hwf & Hwl).
  pose proof Hshows as (Hgrid & Hpg & Hsize).
  assert (g ≠ []) as Hg.
  { intros ->. destruct Hwf as [? _]. simpl in *. lia. }
  pose proof (letters_along_placement g p Hon Hnb) as Hletters.
  destruct (get_path_between_get_word_path (puzzle_grid self) (pw_word p)
              r c (pw_direction p) Hw Hd) as [Hvalid Hgpb];
    [by rewrite Hsize..|].
  destruct (drag_selects self g _ _ Hshows Hwf Hwl Hvalid)
    as (st & Hdrag & Hst & Hwords & Hplaced & Hgs & Hunf & Hfw & Hfp & Hnt
        & Hhint & Hsel & Hdragging & Hpgf & Hpgh).
  rewrite Hgpb, <- Hpath in Hdrag.
  destruct Hcons as (Hsub & Hpart & _ & _).
  assert (consistent st) as Hcons.
  { unfold consistent. by rewrite Hfw, Hwords, Hunf, Hpgf, Hpgh, Hfp, Hhint. }
  destruct (on_word_selected_progress st g (pw_path p) (pw_word p) Hst Hg
              Hcons Hletters) as (st' & Hsel' & Hst' & Hcons' & Hwords'
                                  & Hplaced' & Hmono & Hfound' & Hrep);
    [by rewrite Hwords|].
  rewrite Hsel' in Hdrag. cbn [mbind option_bind] in Hdrag.
  eexists _, _, _. split; [done|]. split; [done|]. split; [exact Hdrag|].
  destruct Hst' as (? & ? & ?). destruct Hcons' as (Hsub' & ? & ? & ?).
  unfold shows, consistent, reports_completion.
  cbn [app_grid with_widget puzzle_grid pg_grid pg_grid_size with_drag
       found_words words unfound_words pg_found_paths pg_hint_paths
       found_paths hint_paths notices].
  split; [done|]. split; [done|]. split; [congruence|].
  split; [by rewrite <- Hfw|]. split; [done|].
  destruct Hrep as (extra & Hn & Hc). exists extra.
  rewrite Hn, Hnt, <- Hunf. done.
Qed.

End Solving.

(** ** main.py: solving a generated puzzle *)

Section SolvingAll.
Import Engine Generator Widgets App.

Lemma drag_each_progress (g : grid) (W : gset (list ascii))
    (ps : list placement) self :
  shows self g → consistent self → words self = W →
  Forall (λ p, straight (Z.of_nat (length g)) p ∧ placed_on g p
               ∧ (pw_word p ≠ []) ∧ (blank ∉ pw_word p)
               ∧ pw_word p ∈ W) ps →
  ∃ self',
    drag_each self ps = Some self'
    ∧ shows self' g ∧ consistent self'
    ∧ words self' = W
    ∧ found_words self ⊆ found_words self'
    ∧ (∀ p, p ∈ ps → pw_word p ∈ found_words self')
    ∧ reports_completion self self'.
Proof.
  intros Hshows Hcons HW Hall. revert self Hshows Hcons HW.
  induction Hall as [|p ps (Hstraight & Hon & Hw & Hnb & Hin) Hall IH];
    intros self Hshows Hcons HW.
  { exists self. split; [done|]. split; [done|]. split; [done|].
    split; [done|]. split; [done|]. split; [|apply reports_completion_refl].
    intros p Hp. by apply elem_of_nil in Hp. }
  destruct (drag_progress self g p Hshows Hcons Hstraight Hon Hw Hnb)
    as (first & last_ & self1 & Hhead & Hlast & Hdrag & Hshows1 & Hcons1
        & Hwords1 & Hmono1 & Hfound1 & Hrep1); [by rewrite HW|].
  destruct (IH self1 Hshows1 Hcons1) as (self2 & Heach & Hshows2 & Hcons2
    & Hwords2 & Hmono2 & Hfound2 & Hrep2); [congruence|].
  exists self2. cbn [drag_each]. rewrite Hhead, Hlast.
  cbn [mbind option_bind]. rewrite Hdrag. cbn [mbind option_bind].
  split; [done|]. split; [done|]. split; [done|]. split; [done|].
  split; [by etransitivity|]. split.
  - intros q [->|Hq]%elem_of_cons; [by apply Hmono2|by apply Hfound2].
  - by eapply reports_completion_trans.
Qed.

End SolvingAll.

Section GeneratedPuzzle.
Import Engine Generator Widgets App.
Context (strip upper : word → word) (isalpha isupper : word → bool).

Local Abbreviation validate_loop :=
  (Utils.validate_loop strip upper isalpha isupper).
Local Abbreviation validate_words :=
  (Utils.validate_words strip upper isalpha isupper).
Local Abbreviation valid_word := (Utils.valid_word isalpha isupper).
Local Abbreviation generate := (App.generate strip upper isalpha isupper).

Lemma validate_loop_all_valid validated words_list :
  Forall valid_word validated →
  Forall valid_word (validate_loop validated words_list).
Proof.
  revert validated.
  induction words_list as [|raw rest IH]; intros validated Hvalid; simpl;
    [done|].
  case_bool_decide as Hlen; simpl; [|by apply IH].
  destruct (isalpha (upper (strip raw))) eqn:Halpha; simpl; [|by apply IH].
  destruct (isupper (upper (strip raw))) eqn:Hupper; simpl; [|by apply IH].
  case_bool_decide as Hdup; [by apply IH|].
  apply IH, Forall_app. split; [done|]. apply Forall_singleton.
  split; [exact Hlen|]. split; [exact Halpha|exact Hupper].
Qed.

Lemma validate_words_all_valid words_list w :
  w ∈ validate_words words_list → valid_word w.
Proof.
  unfold Utils.validate_words.
  intros (i & Hw%list_elem_of_lookup_2 & _)%elem_of_take.
  pose proof (validate_loop_all_valid [] words_list (Forall_nil_2 _)) as Hall.
  rewrite Forall_forall in Hall. by apply Hall.
Qed.

(** The four outcomes of [generate]. *)
Lemma generate_cases (self : WordSearchApp) (text : word) (size : Z) s :
  generate self text size s =
  if bool_decide (strip text = []) then Some ((self, NoWords), s)
  else if bool_decide (validate_words (split "010" (strip text)) = [])
  then Some ((self, InvalidWords), s)
  else
    match generate_word_search size
            (validate_words (split "010" (strip text))) s with
    | None => None
    | Some (None, s') =>
        Some ((with_grid_size self size, GenerationFailed), s')
    | Some (Some (g, placed), s') =>
        Some ((show_generated (with_grid_size self size) g
                 (validate_words (split "010" (strip text))) placed,
               Generated (length (validate_words
                                    (split "010" (strip text))))), s')
    end.
Proof.
  unfold App.generate.
  case_bool_decide; [done|]. case_bool_decide; [done|].
  unfold bind. cbn [grid_size with_grid_size].
  destruct (generate_word_search size _ s) as [[[[g placed]|] s']|]; done.
Qed.

Lemma generated_grid_side grid_size (words : list word) s g placed s'
    (w : word) :
  generate_word_search grid_size words s = Some (Some (g, placed), s') →
  w ∈ words → w ≠ [] →
  0 < grid_size ∧ Z.of_nat (length g) = grid_size ∧ g ≠ [].
Proof.
  intros Hgen Hw Hne.
  pose proof (generate_word_search_stages _ _ _ _ _ _ Hgen) as [Hfit _].
  pose proof (generate_word_search_inv _ _ _ _ _ _ Hgen) as (_ & Hshape & _).
  apply (f_equal length) in Hshape.
  rewrite length_fmap, length_replicate in Hshape.
  specialize (Hfit w Hw).
  assert (0 < length w)%nat by (destruct w; [done|simpl; lia]).
  split; [lia|]. split; [lia|]. intros ->. simpl in Hshape. lia.
Qed.

(** The state that [generate] leaves when it succeeds. *)
Lemma show_generated_fresh (st : WordSearchApp) grid_size
    (validated : list word) s g placed s' :
  generate_word_search grid_size validated s = Some (Some (g, placed), s') →
  validated ≠ [] → (∀ w, w ∈ validated → w ≠ []) →
  shows (show_generated st g validated placed) g
  ∧ consistent (show_generated st g validated placed)
  ∧ Z.of_nat (length g) = grid_size.
Proof.
  intros Hgen Hne Hwords.
  destruct validated as [|w ws]; [done|].
  destruct (generated_grid_side _ _ _ _ _ _ w Hgen) as (Hpos & Hside & Hg);
    [by left|apply Hwords; by left|].
  split; [|split; [|done]].
  - unfold shows, show_generated, set_grid. cbn.
    destruct g; [done|]. done.
  - unfold consistent, show_generated, set_grid. cbn.
    split; [apply empty_subseteq|]. split; [|done].
    by rewrite difference_empty_L.
Qed.

Hypothesis isalpha_no_blank : ∀ w : word, isalpha w = true → blank ∉ w.

(** X18. A puzzle that [generate] made can be solved with the mouse. When
    [generate] reports a generated puzzle, dragging from the first to the
    last cell of each entry of [placed_words], in the order of the list,
    never raises and finds every word: at the end the found words are the
    words of the puzzle, no word is unfound, the completion message was
    shown, and the grid and the words are those [generate] made. *)
Theorem generated_puzzle_solvable (self : WordSearchApp) (text : word)
    (size : Z) (s s' : rng) (self1 : WordSearchApp) (count : nat) :
  generate self text size s = Some ((self1, Generated count), s') →
  ∃ self2 extra,
    drag_each self1 (placed_words self1) = Some self2
    ∧ found_words self2 = words self1
    ∧ unfound_words self2 = ∅
    ∧ notices self2 = notices self1 ++ extra
    ∧ PuzzleCompleted ∈ extra
    ∧ app_grid self2 = app_grid self1
    ∧ words self2 = words self1.
Proof.
  rewrite generate_cases.
  case_bool_decide as Htext; [done|]. case_bool_decide as Hvalid; [done|].
  set (validated := validate_words (split "010" (strip text))) in *.
  destruct (generate_word_search size validated s)
    as [[[[g placed]|] s1]|] eqn:Hgen; [|done..].
  intros [= <- <- <-].
  assert (∀ w, w ∈ validated → w ≠ [] ∧ blank ∉ w) as Hwords.
  { intros w Hw. apply validate_words_all_valid in Hw as (Hlen & Ha & _).
    split; [|by apply isalpha_no_blank].
    intros ->. unfold MIN_WORD_LEN in Hlen. simpl in Hlen. lia. }
  destruct (show_generated_fresh (with_grid_size self size) size validated
              s g placed s1 Hgen Hvalid) as (Hshows & Hcons & Hside);
    [intros w Hw; by apply Hwords|].
  pose proof (generate_word_search_inv _ _ _ _ _ _ Hgen)
    as (Hsorted & _ & Hon & _).
  pose proof (generate_word_search_straight _ _ _ _ _ _ Hgen) as Hstraight.
  assert (pw_word <$> placed ≡ₚ validated) as Hperm
    by (rewrite Hsorted; apply sorted_longest_first_perm).
  set (self1 := show_generated (with_grid_size self size) g validated placed)
    in *.
  destruct (drag_each_progress g (list_to_set validated) placed self1
              Hshows Hcons eq_refl)
    as (self2 & Heach & Hshows2 & Hcons2 & Hwords2 & _ & Hfound2 & Hrep).
  { rewrite Forall_forall in Hon, Hstraight. apply Forall_forall.
    intros p Hp.
    assert (pw_word p ∈ validated) as Hin.
    { rewrite <- Hperm. by apply list_elem_of_fmap_2. }
    destruct (Hwords _ Hin) as [Hne Hnb].
    split; [rewrite Hside; by apply Hstraight|]. split; [by apply Hon|].
    split; [done|]. split; [done|]. by apply elem_of_list_to_set. }
  destruct Hcons2 as (Hsub2 & Hpart2 & _ & _).
  assert (found_words self2 = list_to_set validated) as Hall.
  { apply set_eq. intros w. split.
    - intros Hw. rewrite <- Hwords2. by apply Hsub2.
    - intros Hw%elem_of_list_to_set. rewrite <- Hperm in Hw.
      apply list_elem_of_fmap in Hw as (p & -> & Hp). by apply Hfound2. }
  assert (unfound_words self2 = ∅) as Hnone.
  { rewrite Hpart2, Hwords2, Hall. apply difference_diag_L. }
  destruct Hrep as (extra & Hnotices & Hdone).
  exists self2, extra. change (placed_words self1) with placed.
  split; [done|]. split; [done|]. split; [done|]. split; [done|].
  split.
  - destruct (Hdone Hnone) as [Hempty|Hin]; [|done].
    exfalso. change (unfound_words self1) with
      (list_to_set validated : gset (list ascii)) in Hempty.
    destruct validated as [|w ws]; [done|].
    assert (w ∈ (∅ : gset (list ascii))) as Hw.
    { rewrite <- Hempty. apply elem_of_list_to_set. by left. }
    by apply elem_of_empty in Hw.
  - split; [|done]. destruct Hshows2 as (-> & _). done.
Qed.

End GeneratedPuzzle.

(** ** main.py: the invariant of the solver *)

Section SolverInvariant.
Import Engine Generator Widgets App.

Lemma refresh_widget_mirrors (self : WordSearchApp) :
  pg_found_paths (puzzle_grid (refresh_widget self)) = found_paths self
  ∧ pg_hint_paths (puzzle_grid (refresh_widget self)) = hint_paths self.
Proof. done. Qed.

Lemma accept_word_keeps_consistent (st : WordSearchApp) (x : word)
    (path : list cell) :
  consistent st → x ∈ words st → consistent (accept_word st x path).
Proof.
  intros (Hsub & Hunf & Hpf & Hph) Hx.
  destruct (accept_word_marks st x path)
    as (Hm1 & Hm2 & Hm3 & Hm4 & Hm5 & Hm6).
  unfold consistent. rewrite Hm1, Hm3, Hm4, Hm6, Hunf.
  split; [|split; [|split; [done|]]].
  - intros y [->%elem_of_singleton|Hy]%elem_of_union; [done|by apply Hsub].
  - apply set_eq. intros y.
    rewrite !elem_of_difference, elem_of_union, elem_of_singleton. tauto.
  - unfold accept_word.
    destruct (bool_decide _); done.
Qed.

Lemma on_word_selected_consistent (self : WordSearchApp) path self' :
  consistent self → on_word_selected self path = Some self' →
  consistent self'.
Proof.
  intros Hcons. unfold on_word_selected.
  destruct (letters_along (app_grid self) path) as [w|]; [|done].
  cbn [mbind option_bind].
  destruct (bool_decide (w ∈ words self)) eqn:Hw; cbn [andb].
  - destruct (bool_decide (w ∉ found_words self)).
    + intros [= <-]. apply accept_word_keeps_consistent; [done|].
      by apply bool_decide_eq_true_1 in Hw.
    + destruct (bool_decide (Py.reversed w ∈ words self)) eqn:Hr; cbn [andb].
      * destruct (bool_decide (Py.reversed w ∉ found_words self)).
        -- intros [= <-]. apply accept_word_keeps_consistent; [done|].
           by apply bool_decide_eq_true_1 in Hr.
        -- by intros [= <-].
      * by intros [= <-].
  - destruct (bool_decide (Py.reversed w ∈ words self)) eqn:Hr; cbn [andb].
    + destruct (bool_decide (Py.reversed w ∉ found_words self)).
      * intros [= <-]. apply accept_word_keeps_consistent; [done|].
        by apply bool_decide_eq_true_1 in Hr.
      * by intros [= <-].
    + by intros [= <-].
Qed.

Lemma hint_search_consistent (self : WordSearchApp) (w : word) pws self' :
  consistent self → hint_search self w pws = Some self' → consistent self'.
Proof.
  intros Hcons. induction pws as [|p pws IH]; simpl.
  - by intros [= <-].
  - case_bool_decide; [|done].
    destruct (pw_path p !! 0%nat) as [first|]; [|done].
    cbn [mbind option_bind]. intros [= <-].
    destruct Hcons as (? & ? & ? & ?). done.
Qed.

Lemma give_hint_consistent (self : WordSearchApp) self' :
  consistent self → give_hint self = Some self' → consistent self'.
Proof.
  intros Hcons. unfold give_hint.
  destruct (negb (truthy (app_grid self))); [by intros [= <-]|].
  destruct (selected_word self) as [[|a w]|]; [by intros [= <-]| |by intros [= <-]].
  case_bool_decide; [by intros [= <-]|].
  by apply hint_search_consistent.
Qed.

Lemma on_puzzle_clicked_consistent (self : WordSearchApp) :
  consistent self → consistent (on_puzzle_clicked self).
Proof. intros (? & ? & ? & ?). done. Qed.

Lemma mousePressEvent_consistent (self : WordSearchApp) b pos :
  consistent self → consistent (mousePressEvent self b pos).
Proof.
  intros Hcons. unfold mousePressEvent.
  destruct (b && truthy (pg_grid (puzzle_grid self))); [|done].
  apply on_puzzle_clicked_consistent in Hcons.
  destruct (get_cell_from_pos _ pos); [|done].
  destruct Hcons as (? & ? & ? & ?). done.
Qed.

Lemma mouseMoveEvent_consistent (self : WordSearchApp) pos self' :
  consistent self → App.mouseMoveEvent self pos = Some self' →
  consistent self'.
Proof.
  intros (Hsub & Hunf & Hpf & Hph). unfold App.mouseMoveEvent.
  destruct (Widgets.mouseMoveEvent (puzzle_grid self) pos) as [pg|] eqn:Hpg;
    [|done].
  cbn [mbind option_bind]. intros [= <-].
  assert (pg_found_paths pg = pg_found_paths (puzzle_grid self)
          ∧ pg_hint_paths pg = pg_hint_paths (puzzle_grid self)) as [Hf Hh].
  { unfold Widgets.mouseMoveEvent in Hpg.
    destruct (is_dragging (puzzle_grid self)
              && truthy (pg_grid (puzzle_grid self)));
      [|by injection Hpg as <-].
    destruct (get_cell_from_pos (puzzle_grid self) pos) as [c|];
      [|by injection Hpg as <-].
    destruct (bool_decide _); [|by injection Hpg as <-].
    destruct (drag_start_cell (puzzle_grid self)) as [start|]; [|done].
    cbn [mbind option_bind] in Hpg.
    destruct (is_valid_drag_path start c); by injection Hpg as <-. }
  unfold consistent. cbn. by rewrite Hf, Hh.
Qed.

Lemma mouseReleaseEvent_consistent (self : WordSearchApp) b self' :
  consistent self → mouseReleaseEvent self b = Some self' →
  consistent self'.
Proof.
  intros Hcons. unfold mouseReleaseEvent.
  destruct (b && is_dragging (puzzle_grid self)); [|by intros [= <-]].
  set (self1 := with_widget self _).
  assert (consistent self1) as Hcons1.
  { destruct Hcons as (? & ? & ? & ?). done. }
  clearbody self1.
  destruct (current_temp_path (puzzle_grid self)) as [|rc path].
  - cbn [mbind option_bind]. intros [= <-].
    destruct Hcons1 as (? & ? & ? & ?). done.
  - destruct (on_word_selected self1 (rc :: path)) as [self2|] eqn:Hsel;
      [|done].
    cbn [mbind option_bind]. intros [= <-].
    apply on_word_selected_consistent in Hsel; [|done].
    destruct Hsel as (? & ? & ? & ?). done.
Qed.

(** X19. The solver state stays consistent. Call it consistent when the
    found words are words of the puzzle, the unfound words are the other
    words of the puzzle, and the widget has the found paths and the hint
    paths of the application. Every solver entry point that returns keeps
    a consistent state consistent: [on_word_selected], [give_hint],
    [on_word_clicked], [clear_hints], [on_puzzle_clicked] and the three
    pointer events; [clear_all], [generate] when it makes a puzzle and
    [load_puzzle] on a file with its four keys leave a consistent state
    whatever the state was. *)
Theorem solver_state_stays_consistent (self : WordSearchApp) :
  (consistent self →
     (∀ path self', on_word_selected self path = Some self' →
        consistent self')
     ∧ (∀ self', give_hint self = Some self' → consistent self')
     ∧ (∀ w, consistent (on_word_clicked self w))
     ∧ consistent (clear_hints self)
     ∧ consistent (on_puzzle_clicked self)
     ∧ (∀ b pos, consistent (mousePressEvent self b pos))
     ∧ (∀ pos self', App.mouseMoveEvent self pos = Some self' →
          consistent self')
     ∧ (∀ b self', mouseReleaseEvent self b = Some self' →
          consistent self'))
  ∧ consistent (clear_all self true)
  ∧ (∀ size_spin g ws pws n,
       consistent (load_puzzle self size_spin
                     (Json {| pd_grid := Some g; pd_words := Some ws;
                              pd_placed_words := Some pws;
                              pd_grid_size := Some n |})))
  ∧ (∀ g validated placed,
       consistent (show_generated self g validated placed)).
Proof.
  split; [intros Hcons|].
  - split; [intros path self'; by apply on_word_selected_consistent|].
    split; [intros self'; by apply give_hint_consistent|].
    split.
    { intros w. unfold on_word_clicked.
      destruct Hcons as (? & ? & ? & ?). by destruct (bool_decide _). }
    split; [destruct Hcons as (? & ? & ? & ?); done|].
    split; [by apply on_puzzle_clicked_consistent|].
    split; [intros b pos; by apply mousePressEvent_consistent|].
    split; [intros pos self'; by apply mouseMoveEvent_consistent|].
    intros b self'. by apply mouseReleaseEvent_consistent.
  - split.
    { unfold consistent, clear_all. cbn.
      split; [done|]. by rewrite difference_empty_L. }
    split.
    { intros size_spin g ws pws n. unfold consistent. cbn.
      split; [apply empty_subseteq|]. by rewrite difference_empty_L. }
    intros g validated placed. unfold consistent. cbn.
    split; [apply empty_subseteq|]. by rewrite difference_empty_L.
Qed.

End SolverInvariant.

(** ** main.py: saving, loading and clearing *)

Section SaveLoadClear.
Import Engine Generator Widgets App.

(** X20. What a saved puzzle brings back. [save_puzzle] refuses when there
    is no grid; otherwise, when a file is chosen and can be written, it
    writes the grid, the placements, the grid size and the words, listed
    once each in some order, and clears the unsaved flag. Loading that
    file, in any state of the application and whatever the size control
    shows, brings back the grid, the set of the words and the placements
    as they were, and none of the progress of the solver: no word is
    found, no path is found or hinted, every word is unfound, and the
    widget has the grid without highlight. The grid size comes back bound
    to the range of the size control, from [MIN_GRID_SIZE] to
    [MAX_GRID_SIZE], unless the control shows that bound value already; a
    grid size in the range comes back as it was. The load reports success
    and clears the unsaved flag when each row of the grid is as long as
    the grid has rows; otherwise [redraw] raises, the load error is shown
    and the unsaved flag is as it was. Saving again from the loaded state
    writes the same grid and placements, the grid size of the loaded
    state, and the words as they are listed then. *)
Theorem save_then_load (self other : WordSearchApp) (listed : list word)
    (size_spin : Z) (g : grid) :
  app_grid self = Some g → g ≠ [] →
  NoDup listed → list_to_set listed = words self →
  let pd := {| pd_grid := Some g; pd_words := Some listed;
               pd_placed_words := Some (placed_words self);
               pd_grid_size := Some (grid_size self) |} in
  let self' := load_puzzle other size_spin (Json pd) in
  save_puzzle self listed true true
  = (with_unsaved_changes self false, Saved, Some pd)
  ∧ app_grid self' = app_grid self
  ∧ words self' = words self
  ∧ placed_words self' = placed_words self
  ∧ grid_size self'
    = (if bool_decide (bound (grid_size self) = size_spin)
       then grid_size self else bound (grid_size self))
  ∧ (MIN_GRID_SIZE ≤ grid_size self ≤ MAX_GRID_SIZE →
       grid_size self' = grid_size self)
  ∧ unfound_words self' = words self
  ∧ found_words self' = ∅
  ∧ found_paths self' = ∅
  ∧ hint_paths self' = ∅
  ∧ pg_grid (puzzle_grid self') = app_grid self
  ∧ pg_found_paths (puzzle_grid self') = ∅
  ∧ pg_hint_paths (puzzle_grid self') = ∅
  ∧ (drawable g →
       notices self' = notices other ++ [PuzzleLoaded]
       ∧ unsaved_changes self' = false)
  ∧ (¬ drawable g →
       notices self' = notices other ++ [LoadFailed IndexError]
       ∧ unsaved_changes self' = unsaved_changes other)
  ∧ (∀ listed',
       (save_puzzle self' listed' true true).2
       = Some {| pd_grid := Some g; pd_words := Some listed';
                 pd_placed_words := Some (placed_words self);
                 pd_grid_size := Some (grid_size self') |}).
Proof.
  intros Hgrid Hg Hnodup Hlisted pd self'.
  destruct (load_puzzle_complete other size_spin g listed (placed_words self)
              (grid_size self))
    as (H1 & H2 & H3 & H4 & H5 & H6 & H7 & H8 & _ & H9 & H10 & H11
        & Hok & Hraise).
  fold pd in H1, H2, H3, H4, H5, H6, H7, H8, H9, H10, H11, Hok, Hraise.
  fold self' in H1, H2, H3, H4, H5, H6, H7, H8, H9, H10, H11, Hok, Hraise.
  split.
  { unfold save_puzzle. rewrite Hgrid. destruct g; [done|]. done. }
  split; [by rewrite H1|].
  split; [by rewrite H2|].
  split; [done|].
  split; [done|].
  split.
  { intros Hrange. rewrite H4. case_bool_decide; [done|].
    unfold bound. lia. }
  split; [by rewrite H5|].
  repeat (split; [assumption|]).
  split; [by rewrite H9|].
  repeat (split; [assumption|]).
  intros listed'. unfold save_puzzle. rewrite H1, H3.
  destruct g; [done|]. done.
Qed.

(** X21. [clear_all] leaves an application without puzzle. After the user
    confirmed, no word, placement, found word, path or hint is left and
    the state is marked as saved; [give_hint] and [save_puzzle] report
    that there is no puzzle, and a press or a move of the mouse on the
    widget changes nothing. When the user declined, nothing changed. *)
Theorem clear_all_leaves_no_puzzle (self : WordSearchApp) :
  app_grid (clear_all self true) = None
  ∧ words (clear_all self true) = ∅
  ∧ placed_words (clear_all self true) = []
  ∧ unfound_words (clear_all self true) = ∅
  ∧ found_words (clear_all self true) = ∅
  ∧ found_paths (clear_all self true) = ∅
  ∧ hint_paths (clear_all self true) = ∅
  ∧ selected_word (clear_all self true) = None
  ∧ unsaved_changes (clear_all self true) = false
  ∧ give_hint (clear_all self true)
    = Some (notify (clear_all self true) NoPuzzle)
  ∧ (∀ listed chosen writable,
       save_puzzle (clear_all self true) listed chosen writable
       = (clear_all self true, SaveNoPuzzle, None))
  ∧ (∀ left_button pos,
       mousePressEvent (clear_all self true) left_button pos
       = clear_all self true)
  ∧ (∀ pos,
       App.mouseMoveEvent (clear_all self true) pos
       = Some (clear_all self true))
  ∧ clear_all self false = self.
Proof.
  repeat (split; [done|]).
  split.
  { intros b pos. unfold mousePressEvent. cbn. by rewrite andb_false_r. }
  split; [|done].
  intros pos. unfold App.mouseMoveEvent, Widgets.mouseMoveEvent. cbn.
  rewrite andb_false_r. done.
Qed.

End SaveLoadClear.

(** ** main.py: [generate], repeated selections and presses *)

Section GenerateOutcomes.
Import Engine Generator Widgets App.
Context (strip upper : word → word) (isalpha isupper : word → bool).

Local Abbreviation validate_words :=
  (Utils.validate_words strip upper isalpha isupper).
Local Abbreviation valid_word := (Utils.valid_word isalpha isupper).
Local Abbreviation generate := (App.generate strip upper isalpha isupper).

Lemma generate_word_search_nonempty_words grid_size (words : list word) s :
  (∀ w : word, w ∈ words → w ≠ []) →
  is_Some (generate_word_search grid_size words s).
Proof.
  intros Hwords.
  destruct (decide (0 < grid_size)) as [Hpos|Hle];
    [by apply generate_word_search_returns|].
  destruct words as [|w ws].
  { rewrite generate_word_search_no_words by lia. done. }
  unfold generate_word_search. rewrite bool_decide_eq_true_2; [done|].
  apply (length_filter_lt _ _ w); [by left|].
  assert (w ≠ []) as Hw by (apply Hwords; by left).
  destruct w; [done|]. simpl. lia.
Qed.

(** X22. [generate] never raises, and its report and what it leaves are
    decided by the word box, the size and the random source. Call
    validated the words that [validate_words] keeps of the lines of the
    stripped text.
    - It reports that there are no words exactly when the stripped text
      is empty, and that no word is valid exactly when the text is not
      empty and nothing is validated; in both cases nothing changes and
      no random number is read.
    - Otherwise [generate_word_search] runs on the size and the validated
      words and returns. When it returns nothing, the report is the
      failure: the grid size of the application is the size asked for,
      and the puzzle, the progress of the solver and the widget are as
      they were.
    - When it returns a grid and placements, the report is the success
      with the number of validated words: the application has this grid
      and these placements, its words are the validated ones, it shows a
      square grid of the size asked for with nothing found or hinted and
      every word unfound, the words are those of the placements, each
      placement lies on the grid along a straight line, the unsaved flag
      is set, and the [redraw] of [set_grid] returns. *)
Theorem generate_outcomes (self : WordSearchApp) (text : word) (size : Z)
    (s : rng) :
  ∃ self' report s',
    generate self text size s = Some ((self', report), s')
    ∧ (strip text = [] ↔ report = NoWords)
    ∧ (strip text ≠ [] ∧ validate_words (split "010" (strip text)) = []
       ↔ report = InvalidWords)
    ∧ match report with
      | NoWords | InvalidWords => self' = self ∧ s' = s
      | GenerationFailed =>
          generate_word_search size
            (validate_words (split "010" (strip text))) s
          = Some (None, s')
          ∧ grid_size self' = size
          ∧ app_grid self' = app_grid self
          ∧ words self' = words self
          ∧ placed_words self' = placed_words self
          ∧ solver_sets_kept self self'
          ∧ selected_word self' = selected_word self
          ∧ unsaved_changes self' = unsaved_changes self
          ∧ puzzle_grid self' = puzzle_grid self
      | Generated count =>
          ∃ g,
            generate_word_search size
              (validate_words (split "010" (strip text))) s
            = Some (Some (g, placed_words self'), s')
            ∧ count = length (validate_words (split "010" (strip text)))
            ∧ words self'
              = list_to_set (validate_words (split "010" (strip text)))
            ∧ shows self' g ∧ consistent self'
            ∧ Z.of_nat (length g) = size ∧ grid_size self' = size
            ∧ (∀ row, row ∈ g → Z.of_nat (length row) = size ∧ blank ∉ row)
            ∧ found_words self' = ∅ ∧ found_paths self' = ∅
            ∧ hint_paths self' = ∅
            ∧ unfound_words self' = words self'
            ∧ words self' = list_to_set (pw_word <$> placed_words self')
            ∧ count = length (placed_words self')
            ∧ Forall (placed_on g) (placed_words self')
            ∧ Forall (straight size) (placed_words self')
            ∧ unsaved_changes self' = true
            ∧ selected_word self' = selected_word self
            ∧ notices self' = notices self
            ∧ is_Some (redraw (puzzle_grid self'))
      end.
Proof.
  rewrite generate_cases.
  case_bool_decide as Htext.
  { exists self, NoWords, s. split; [done|]. split; [done|].
    split; [|done]. split; [by intros [? _]|done]. }
  case_bool_decide as Hvalid.
  { exists self, InvalidWords, s. split; [done|]. split; [done|]. done. }
  set (validated := validate_words (split "010" (strip text))) in *.
  assert (∀ w : word, w ∈ validated → w ≠ []) as Hwords.
  { intros w Hw. apply validate_words_all_valid in Hw as (Hlen & _).
    intros ->. unfold MIN_WORD_LEN in Hlen. simpl in Hlen. lia. }
  destruct (generate_word_search_nonempty_words size validated s Hwords)
    as [[[[g placed]|] s'] Hgen]; rewrite Hgen.
  - eexists _, _, _. split; [reflexivity|].
    split; [done|]. split; [split; [by intros [_ ?]|done]|].
    exists g.
    destruct (show_generated_fresh (with_grid_size self size) size validated
                s g placed s' Hgen Hvalid Hwords) as (Hshows & Hcons & Hside).
    pose proof (generate_word_search_inv _ _ _ _ _ _ Hgen)
      as (Hsorted & Hshape & Hon & Hnb).
    pose proof (generate_word_search_straight _ _ _ _ _ _ Hgen) as Hstraight.
    assert (∀ row, row ∈ g → Z.of_nat (length row) = size ∧ blank ∉ row)
      as Hrows.
    { intros row Hrow. split; [|by apply Hnb].
      assert (length row ∈ length <$> g) as Hlen
        by by apply list_elem_of_fmap_2.
      rewrite Hshape in Hlen. apply elem_of_replicate in Hlen as [-> _].
      apply (f_equal length) in Hshape.
      rewrite length_fmap, length_replicate in Hshape. lia. }
    split; [done|]. split; [done|]. split; [done|].
    split; [done|]. split; [done|]. split; [done|]. split; [done|].
    split; [done|].
    split; [done|]. split; [done|]. split; [done|]. split; [done|].
    cbn [words placed_words show_generated unsaved_changes selected_word
         notices with_grid_size].
    split.
    { rewrite Hsorted. apply set_eq. intros w.
      rewrite !elem_of_list_to_set.
      by rewrite (elem_of_Permutation_proper _ _ _
                    (sorted_longest_first_perm validated)). }
    split.
    { apply (f_equal length) in Hsorted. rewrite length_fmap in Hsorted.
      rewrite Hsorted.
      by rewrite (Permutation_length (sorted_longest_first_perm validated)). }
    split; [done|]. split; [done|]. split; [done|]. split; [done|].
    split; [done|].
    destruct Hshows as (_ & Hpg & Hsize).
    apply (redraw_returns _ g Hpg Hsize).
    apply Forall_forall. intros row Hrow.
    destruct (Hrows row Hrow) as [Hlen _]. lia.
  - eexists _, _, _. split; [reflexivity|].
    split; [done|]. split; [split; [by intros [_ ?]|done]|]. done.
Qed.

End GenerateOutcomes.

Section Reselect.
Import Engine Generator Widgets App.

Lemma accept_word_fields (st : WordSearchApp) (x : word) (path : list cell) :
  words (accept_word st x path) = words st
  ∧ app_grid (accept_word st x path) = app_grid st
  ∧ found_words (accept_word st x path) = {[x]} ∪ found_words st
  ∧ found_paths (accept_word st x path)
    = {[list_to_set path]} ∪ found_paths st.
Proof.
  destruct (accept_word_marks st x path) as (? & ? & ? & ? & ? & ?). done.
Qed.

(** X23. Selecting a path again adds no path. When [on_word_selected] has
    run on a path, a second run on the same path leaves the found paths
    as they are and can only add one word to the found words, the word
    read backwards. It adds that word exactly when it is a word of the
    puzzle that is not found after the first run; otherwise the second
    run changes nothing. A third run changes nothing at all. *)
Theorem select_same_path_again (self : WordSearchApp) (path : list cell)
    (self1 : WordSearchApp) :
  on_word_selected self path = Some self1 →
  ∃ self2 w,
    letters_along (app_grid self) path = Some w
    ∧ on_word_selected self1 path = Some self2
    ∧ found_paths self2 = found_paths self1
    ∧ (found_words self2 = found_words self1
       ∨ found_words self2 = {[Py.reversed w]} ∪ found_words self1)
    ∧ (is_target self1 (Py.reversed w) →
       found_words self2 = {[Py.reversed w]} ∪ found_words self1
       ∧ Py.reversed w ∈ found_words self2
       ∧ Py.reversed w ∉ found_words self1)
    ∧ (¬ is_target self1 (Py.reversed w) → self2 = self1)
    ∧ on_word_selected self2 path = Some self2.
Proof.
  intros Hsel.
  destruct (letters_along (app_grid self) path) as [w|] eqn:Hw;
    [|unfold on_word_selected in Hsel; by rewrite Hw in Hsel].
  rewrite (on_word_selected_cases self path w Hw) in Hsel.
  assert (app_grid self1 = app_grid self ∧ words self1 = words self
          ∧ found_words self ⊆ found_words self1
          ∧ (found_paths self1 = found_paths self
             ∨ found_paths self1 = {[list_to_set path]} ∪ found_paths self)
          ∧ ¬ is_target self1 w
          ∧ (¬ is_target self w → ¬ is_target self1 (Py.reversed w)))
    as (Hgrid1 & Hwords1 & Hmono1 & Hpaths1 & Hw1 & Hrev1).
  { case_bool_decide as Hfwd; [|case_bool_decide as Hbwd];
      injection Hsel as <-.
    - destruct (accept_word_fields self w path) as (Ha & Hb & Hc & Hd).
      unfold is_target. rewrite Ha, Hb, Hc, Hd.
      split; [done|]. split; [done|].
      split; [apply union_subseteq_r|]. split; [by right|].
      split; [|done]. intros [_ Hnot]. apply Hnot.
      apply elem_of_union_l, elem_of_singleton. done.
    - destruct (accept_word_fields self (Py.reversed w) path)
        as (Ha & Hb & Hc & Hd).
      unfold is_target. rewrite Ha, Hb, Hc, Hd.
      split; [done|]. split; [done|].
      split; [apply union_subseteq_r|]. split; [by right|].
      split.
      + intros [Hin Hnot]. apply Hfwd. split; [done|].
        intros Hf. apply Hnot. by apply elem_of_union_r.
      + intros _ [_ Hnot]. apply Hnot.
        apply elem_of_union_l, elem_of_singleton. done.
    - split; [done|]. split; [done|]. split; [done|]. split; [by left|].
      split; [done|]. done. }
  assert (letters_along (app_grid self1) path = Some w) as Hw'
    by (by rewrite Hgrid1).
  rewrite (on_word_selected_cases self1 path w Hw').
  rewrite (bool_decide_eq_false_2 (is_target self1 w)) by done.
  destruct (bool_decide (is_target self1 (Py.reversed w))) eqn:Hbwd1.
  - apply bool_decide_eq_true_1 in Hbwd1.
    eexists _, w. split; [done|]. split; [reflexivity|].
    destruct (accept_word_fields self1 (Py.reversed w) path)
      as (Hwords2 & Hgrid2 & Hfound2 & Hpaths2).
    assert (is_target self w) as Hfwd.
    { apply dec_stable. intros Hno. by apply (Hrev1 Hno). }
    rewrite bool_decide_eq_true_2 in Hsel by done. injection Hsel as <-.
    destruct (accept_word_fields self w path) as (_ & _ & _ & Hpaths).
    split.
    { rewrite Hpaths2, Hpaths. apply set_eq. intros X.
      rewrite !elem_of_union, !elem_of_singleton. tauto. }
    split; [by right|].
    split.
    { intros _. split; [done|]. split; [|by destruct Hbwd1].
      rewrite Hfound2. apply elem_of_union_l, elem_of_singleton. done. }
    split; [done|].
    rewrite (on_word_selected_cases _ path w) by (by rewrite Hgrid2).
    rewrite bool_decide_eq_false_2.
    2:{ unfold is_target. rewrite Hfound2, Hwords2.
        intros [Hin Hnot]. apply Hw1. split; [done|].
        intros Hf. apply Hnot. by apply elem_of_union_r. }
    rewrite bool_decide_eq_false_2; [done|].
    unfold is_target. rewrite Hfound2.
    intros [_ Hnot]. apply Hnot.
    apply elem_of_union_l, elem_of_singleton. done.
  - apply bool_decide_eq_false_1 in Hbwd1.
    exists self1, w. split; [done|]. split; [done|]. split; [done|].
    split; [by left|]. split; [by intros ?|]. split; [done|].
    rewrite (on_word_selected_cases self1 path w Hw').
    rewrite (bool_decide_eq_false_2 (is_target self1 w)) by done.
    by rewrite bool_decide_eq_false_2.
Qed.

(** X24. A press on the puzzle cancels the hint and the selection. Take a
    widget with a grid and an application whose grid has no row shorter
    than the grid has rows, so that the [redraw] of [set_grid] returns in
    the slot [on_puzzle_clicked] and the slot runs to its end. A press of
    the left button on the widget clears the hint paths of the
    application and of the widget and the word selected in the list,
    whatever the position, so that [give_hint] right after it reports
    that no word is selected; a press on a cell starts a drag there; the
    words, the found words and the found paths are as they were; and
    [redraw] returns on the widget that the slot and the press leave. A
    press of another button, or on a widget without grid, changes
    nothing. *)
Theorem press_cancels_hint (self : WordSearchApp) (pos : Z * Z) :
  (truthy (pg_grid (puzzle_grid self)) = true →
   truthy (app_grid self) = true →
   (∀ g, app_grid self = Some g → drawable g) →
     hint_paths (mousePressEvent self true pos) = ∅
     ∧ pg_hint_paths (puzzle_grid (mousePressEvent self true pos)) = ∅
     ∧ selected_word (mousePressEvent self true pos) = None
     ∧ give_hint (mousePressEvent self true pos)
       = Some (notify (mousePressEvent self true pos) NoWordSelected)
     ∧ words (mousePressEvent self true pos) = words self
     ∧ found_words (mousePressEvent self true pos) = found_words self
     ∧ unfound_words (mousePressEvent self true pos) = unfound_words self
     ∧ found_paths (mousePressEvent self true pos) = found_paths self
     ∧ (∀ c,
          get_cell_from_pos (puzzle_grid (on_puzzle_clicked self)) pos
            = Some c →
          is_dragging (puzzle_grid (mousePressEvent self true pos)) = true
          ∧ current_temp_path (puzzle_grid (mousePressEvent self true pos))
            = [c])
     ∧ (get_cell_from_pos (puzzle_grid (on_puzzle_clicked self)) pos = None →
        mousePressEvent self true pos = on_puzzle_clicked self)
     ∧ is_Some (redraw (puzzle_grid (on_puzzle_clicked self)))
     ∧ is_Some (redraw (puzzle_grid (mousePressEvent self true pos))))
  ∧ mousePressEvent self false pos = self
  ∧ (truthy (pg_grid (puzzle_grid self)) = false →
     ∀ left_button, mousePressEvent self left_button pos = self).
Proof.
  split; [intros Hpg Hgrid Hwide|split; [done|]].
  - assert (is_Some (redraw (puzzle_grid (on_puzzle_clicked self))))
      as Hslot by (by apply set_grid_redraw).
    assert (is_Some (redraw (puzzle_grid (mousePressEvent self true pos))))
      as Hpress.
    { apply (redraw_same_grid (puzzle_grid (on_puzzle_clicked self)));
        [..|exact Hslot]; unfold mousePressEvent; rewrite Hpg; cbn [andb];
        by destruct (get_cell_from_pos _ pos). }
    revert Hslot Hpress.
    generalize (is_Some (redraw (puzzle_grid (on_puzzle_clicked self)))).
    generalize (is_Some (redraw (puzzle_grid
                                   (mousePressEvent self true pos)))).
    intros P2 P1 Hslot Hpress.
    unfold mousePressEvent. rewrite Hpg. cbn [andb].
    destruct (get_cell_from_pos (puzzle_grid (on_puzzle_clicked self)) pos)
      as [c|] eqn:Hc.
    + unfold give_hint. cbn. rewrite Hgrid. cbn.
      repeat (split; [done|]). split; [|done].
      intros c' [= <-]. done.
    + unfold give_hint. cbn. rewrite Hgrid. cbn.
      repeat (split; [done|]). done.
  - intros Hpg b. unfold mousePressEvent. rewrite Hpg.
    by rewrite andb_false_r.
Qed.

End Reselect.

(** ** widgets.py: [redraw] *)

Section Redraw.
Import Engine Generator Widgets App.

Lemma mapM_total {A B} (f : A → option B) (h : A → B) (l : list A) :
  (∀ x, x ∈ l → f x = Some (h x)) → mapM f l = Some (h <$> l).
Proof.
  intros Hf. apply mapM_Some. induction l as [|x l IH]; [constructor|].
  rewrite fmap_cons. constructor; [apply Hf; by left|].
  apply IH. intros y Hy. apply Hf. by right.
Qed.

Lemma lookup_concat_rows {B} (h : Z → Z → B) (n m : nat) (a : Z)
    (i j : nat) :
  (i < m)%nat → (j < n)%nat →
  concat ((λ r, h r <$> seqZ 0 (Z.of_nat n)) <$> seqZ a (Z.of_nat m))
    !! (i * n + j)%nat
  = Some (h (a + Z.of_nat i) (Z.of_nat j)).
Proof.
  revert a i. induction m as [|m IH]; intros a i Hi Hj; [lia|].
  rewrite Nat2Z.inj_succ, (seqZ_cons a) by lia. rewrite fmap_cons.
  cbn [concat]. replace (Z.pred (Z.succ (Z.of_nat m))) with (Z.of_nat m) by lia.
  destruct i as [|i].
  - change (0 * n + j)%nat with j.
    rewrite lookup_app_l by (rewrite length_fmap, length_seqZ; lia).
    rewrite list_lookup_fmap.
    rewrite (proj2 (lookup_seqZ 0 (Z.of_nat n) j (Z.of_nat j))) by lia.
    simpl. do 2 f_equal. lia.
  - rewrite lookup_app_r by (rewrite length_fmap, length_seqZ; lia).
    rewrite length_fmap, length_seqZ.
    replace (S i * n + j - Z.to_nat (Z.of_nat n))%nat with (i * n + j)%nat
      by lia.
    rewrite IH by lia. do 2 f_equal. lia.
Qed.

Lemma length_concat_rows {B} (h : Z → Z → B) (n m : nat) (a : Z) :
  length (concat ((λ r, h r <$> seqZ 0 (Z.of_nat n))
                    <$> seqZ a (Z.of_nat m))) = (m * n)%nat.
Proof.
  revert a. induction m as [|m IH]; intros a; [done|].
  rewrite Nat2Z.inj_succ, (seqZ_cons a) by lia. rewrite fmap_cons.
  cbn [concat]. replace (Z.pred (Z.succ (Z.of_nat m))) with (Z.of_nat m) by lia.
  rewrite length_app, length_fmap, length_seqZ, IH. lia.
Qed.

Lemma cell_brush_cases (self : PuzzleGrid) (rc : cell) :
  (cell_brush self rc = hint_color
   ↔ ∃ path, path ∈ pg_hint_paths self ∧ rc ∈ path)
  ∧ (cell_brush self rc = found_color
     ↔ (¬ ∃ path, path ∈ pg_hint_paths self ∧ rc ∈ path)
       ∧ ∃ path, path ∈ pg_found_paths self ∧ rc ∈ path)
  ∧ (cell_brush self rc = bg_color
     ↔ (¬ ∃ path, path ∈ pg_hint_paths self ∧ rc ∈ path)
       ∧ ¬ ∃ path, path ∈ pg_found_paths self ∧ rc ∈ path).
Proof.
  unfold cell_brush.
  destruct (bool_decide (set_Exists (λ path : gset cell, rc ∈ path)
                           (pg_hint_paths self))) eqn:Hh;
    destruct (bool_decide (set_Exists (λ path : gset cell, rc ∈ path)
                             (pg_found_paths self))) eqn:Hf;
    try apply bool_decide_eq_true_1 in Hh;
    try apply bool_decide_eq_true_1 in Hf;
    try apply bool_decide_eq_false_1 in Hh;
    try apply bool_decide_eq_false_1 in Hf;
    unfold set_Exists in *; intuition discriminate.
Qed.

(** X25. What [redraw] draws. On a widget whose grid is a square of the
    side the widget counts, [redraw] does not raise and draws one
    rectangle for each cell, row by row: the rectangle of the cell
    [(r, c)] has its corner at [(c * CELL_SIZE, r * CELL_SIZE)], so that
    [get_cell_from_pos] maps every position within it back to the cell; it
    carries the letter of the cell unless the cell is blank; its brush is
    the hint colour when the cell is on a hint path, else the found colour
    when it is on a found path, else the background. The temporary path is
    drawn by [draw_path]. *)
Theorem redraw_draws_every_cell (self : PuzzleGrid) (g : grid) (n : nat) :
  pg_grid self = Some g → g ≠ [] →
  length <$> g = replicate n n → pg_grid_size self = Z.of_nat n →
  ∃ sc,
    redraw self = Some sc
    ∧ length (scene_rects sc) = (n * n)%nat
    ∧ scene_lines sc = draw_path (current_temp_path self)
    ∧ ∀ r c : nat, (r < n)%nat → (c < n)%nat →
        ∃ letter rect,
          letter_at g (Z.of_nat r, Z.of_nat c) = Some letter
          ∧ scene_rects sc !! (r * n + c)%nat = Some rect
          ∧ rect_x rect = Z.of_nat c * CELL_SIZE
          ∧ rect_y rect = Z.of_nat r * CELL_SIZE
          ∧ rect_text rect
            = (if bool_decide (letter = blank) then None else Some letter)
          ∧ rect_brush rect = cell_brush self (Z.of_nat r, Z.of_nat c)
          ∧ (rect_brush rect = hint_color
             ↔ ∃ path, path ∈ pg_hint_paths self
                       ∧ (Z.of_nat r, Z.of_nat c) ∈ path)
          ∧ (rect_brush rect = found_color
             ↔ (¬ ∃ path, path ∈ pg_hint_paths self
                          ∧ (Z.of_nat r, Z.of_nat c) ∈ path)
               ∧ ∃ path, path ∈ pg_found_paths self
                         ∧ (Z.of_nat r, Z.of_nat c) ∈ path)
          ∧ ∀ dx dy, 0 ≤ dx < CELL_SIZE → 0 ≤ dy < CELL_SIZE →
              get_cell_from_pos self (rect_x rect + dx, rect_y rect + dy)
              = Some (Z.of_nat r, Z.of_nat c).
Proof.
  intros Hgrid Hne Hshape Hsize. unfold redraw. rewrite Hgrid.
  destruct g as [|row0 rows0] eqn:Hg; [done|]. rewrite <- Hg in *.
  clear Hg Hne row0 rows0.
  set (rect := λ r c : Z,
         {| rect_x := c * CELL_SIZE; rect_y := r * CELL_SIZE;
            rect_brush := cell_brush self (r, c);
            rect_text :=
              if bool_decide (default blank (letter_at g (r, c)) ≠ blank)
              then Some (default blank (letter_at g (r, c))) else None |}).
  assert (∀ r c, 0 ≤ r < Z.of_nat n → 0 ≤ c < Z.of_nat n →
            draw_cell self g r c = Some (rect r c)) as Hcell.
  { intros r c Hr Hc. unfold draw_cell.
    rewrite grid_get_letter_at by lia.
    destruct (square_letter_at n g r c Hshape Hr Hc) as [letter Hl].
    unfold rect. rewrite Hl. done. }
  rewrite Hsize.
  rewrite (mapM_total _ (λ r, rect r <$> seqZ 0 (Z.of_nat n))).
  2:{ intros r Hr%elem_of_seqZ. apply mapM_total.
      intros c Hc%elem_of_seqZ. apply Hcell; lia. }
  cbn [mbind option_bind]. eexists. split; [reflexivity|].
  cbn [scene_rects scene_lines].
  split; [apply length_concat_rows|]. split; [done|].
  intros r c Hr Hc.
  destruct (square_letter_at n g (Z.of_nat r) (Z.of_nat c) Hshape)
    as [letter Hletter]; [lia..|].
  exists letter, (rect (Z.of_nat r) (Z.of_nat c)).
  split; [done|].
  split; [by rewrite lookup_concat_rows by done|].
  unfold rect. cbn [rect_x rect_y rect_text rect_brush].
  split; [done|]. split; [done|]. rewrite Hletter. cbn [default].
  split.
  { by destruct (decide (letter = blank));
      [rewrite bool_decide_eq_false_2, bool_decide_eq_true_2 by tauto
      |rewrite bool_decide_eq_true_2, bool_decide_eq_false_2 by tauto]. }
  split; [done|].
  destruct (cell_brush_cases self (Z.of_nat r, Z.of_nat c)) as (Hh & Hf & _).
  split; [done|]. split; [done|].
  intros dx dy Hdx Hdy. apply get_cell_from_pos_in_square.
  - unfold within. rewrite Hsize. cbn [fst snd]. lia.
  - unfold CELL_SIZE in *. lia.
  - unfold CELL_SIZE in *. lia.
Qed.

End Redraw.

(** ** The string methods on ASCII strings *)

Section AsciiStrings.
Import Sample.

Lemma ascii_letter_not_space (c : ascii) :
  is_upper_letter c || is_lower_letter c = true → is_space c = false.
Proof.
  unfold is_upper_letter, is_lower_letter, is_space.
  rewrite orb_true_iff, !bool_decide_eq_true. intros Hc.
  apply bool_decide_eq_false_2. lia.
Qed.

Lemma ascii_isalpha_no_blank (w : list ascii) : isalpha w = true → blank ∉ w.
Proof.
  unfold isalpha. intros [_ Hall]%andb_true_iff.
  induction w as [|c w IH]; [apply not_elem_of_nil|].
  simpl in Hall. apply andb_true_iff in Hall as [Hc Hall].
  apply not_elem_of_cons. split; [|by apply IH].
  intros <-. done.
Qed.

Lemma ascii_upper_of_upper (w : list ascii) : isupper w = true → upper w = w.
Proof.
  unfold isupper. intros [_ Hno%negb_true_iff]%andb_true_iff.
  induction w as [|c w IH]; [done|].
  simpl in Hno. apply orb_false_iff in Hno as [Hc Hno].
  unfold upper. rewrite fmap_cons, Hc. f_equal. by apply IH.
Qed.

Lemma ascii_lstrip_letter (c : ascii) (w : list ascii) :
  is_upper_letter c || is_lower_letter c = true → lstrip (c :: w) = c :: w.
Proof. intros Hc%ascii_letter_not_space. simpl. by rewrite Hc. Qed.

Lemma ascii_strip_of_alpha (w : list ascii) : isalpha w = true → strip w = w.
Proof.
  unfold isalpha. intros [Hne%bool_decide_eq_true Hall]%andb_true_iff.
  assert (∀ c, c ∈ w → is_upper_letter c || is_lower_letter c = true)
    as Hletters.
  { intros c Hc. rewrite forallb_forall in Hall. apply Hall.
    by apply list_elem_of_In. }
  unfold strip.
  assert (lstrip w = w) as ->.
  { destruct w as [|c w']; [done|]. apply ascii_lstrip_letter, Hletters. by left. }
  destruct (reverse w) as [|c' w'] eqn:Hrev.
  { apply (f_equal length) in Hrev. rewrite length_reverse in Hrev.
    by destruct w. }
  rewrite ascii_lstrip_letter.
  - by rewrite <- Hrev, reverse_involutive.
  - apply Hletters. apply elem_of_reverse. rewrite Hrev. by left.
Qed.

End AsciiStrings.

(** ** The further properties on the sample data *)

Section MoreInstances.
Import Engine Generator Widgets App.

Lemma can_place_word_needs_room_witness :
  (length Sample.CAT ≤ length (empty_grid 3))%nat
  ∧ (0 ≤ 0 < Z.of_nat (length (empty_grid 3))
     ∧ 0 ≤ 0 < Z.of_nat (length (empty_grid 3)))
  ∧ (0 ≤ 0 + (Z.of_nat (length Sample.CAT) - 1) * 1
       < Z.of_nat (length (empty_grid 3))
     ∧ 0 ≤ 0 + (Z.of_nat (length Sample.CAT) - 1) * 1
         < Z.of_nat (length (empty_grid 3))).
Proof.
  apply (can_place_word_needs_room (empty_grid 3) Sample.CAT 0 0 (1, 1)).
  - reflexivity.
  - discriminate.
  - discriminate.
Defined.

Lemma placements_are_straight_lines_witness :
  ∃ g placed s',
    generate_word_search 6 [Sample.CAT; Sample.DOG] Sample.lcg
      = Some (Some (g, placed), s')
    ∧ ∀ p, p ∈ placed → straight 6 p ∧ NoDup (pw_path p).
Proof.
  assert (∃ g placed s',
            generate_word_search 6 [Sample.CAT; Sample.DOG] Sample.lcg
              = Some (Some (g, placed), s')) as (g & placed & s' & Hrun).
  { vm_compute. do 3 eexists. reflexivity. }
  exists g, placed, s'. split; [exact Hrun|].
  intros p Hp.
  destruct (placements_are_straight_lines 6 _ _ _ _ _ Hrun p Hp)
    as (Hstraight & Hnodup & _).
  split; [exact Hstraight|exact Hnodup].
Defined.

Lemma crossing_placements_agree_witness :
  ∃ g placed s',
    generate_word_search 6 [Sample.CAT; Sample.DOG] Sample.lcg
      = Some (Some (g, placed), s')
    ∧ ∀ p q (i j : nat) rc a b,
        p ∈ placed → q ∈ placed →
        pw_path p !! i = Some rc → pw_path q !! j = Some rc →
        pw_word p !! i = Some a → pw_word q !! j = Some b →
        a ≠ blank → b ≠ blank →
        letter_at g rc = Some a ∧ a = b.
Proof.
  assert (∃ g placed s',
            generate_word_search 6 [Sample.CAT; Sample.DOG] Sample.lcg
              = Some (Some (g, placed), s')) as (g & placed & s' & Hrun).
  { vm_compute. do 3 eexists. reflexivity. }
  exists g, placed, s'. split; [exact Hrun|].
  exact (crossing_placements_agree 6 _ _ _ _ _ Hrun).
Defined.

Lemma generate_word_search_draws_witness :
  ∃ r s' (n : nat),
    generate_word_search 6 [Sample.CAT; Sample.DOG] Sample.lcg = Some (r, s')
    ∧ s' = advance Sample.lcg n
    ∧ (n ≤ 3 * MAX_PLACEMENT_ATTEMPTS * 2 + 6 * 6)%nat.
Proof.
  assert (∃ r s',
            generate_word_search 6 [Sample.CAT; Sample.DOG] Sample.lcg
              = Some (r, s')) as (r & s' & Hrun).
  { vm_compute. do 2 eexists. reflexivity. }
  destruct (generate_word_search_draws 6 _ _ _ _ Hrun) as (n & Hs & Hn).
  exists r, s', n. split; [exact Hrun|]. split; [exact Hs|exact Hn].
Defined.

Lemma validate_words_closed_form_witness :
  Utils.validate_words Sample.strip Sample.upper Sample.isalpha
    Sample.isupper (Py.str <$> [" cat"; "Dog "; "CAT"; "x1"; "a"]%string)
  = [Sample.CAT; Sample.DOG].
Proof.
  rewrite (validate_words_closed_form Sample.strip Sample.upper
             Sample.isalpha Sample.isupper ascii_upper_of_upper).
  vm_compute. reflexivity.
Defined.

Lemma validate_words_sound_complete_witness :
  NoDup (Utils.validate_words Sample.strip Sample.upper Sample.isalpha
           Sample.isupper
           (Py.str <$> [" cat"; "Dog "; "CAT"; "x1"; "a"]%string)).
Proof.
  apply (validate_words_sound_complete Sample.strip Sample.upper
           Sample.isalpha Sample.isupper ascii_upper_of_upper).
Defined.

Lemma validate_words_idempotent_witness :
  Utils.validate_words Sample.strip Sample.upper Sample.isalpha
    Sample.isupper
    (Utils.validate_words Sample.strip Sample.upper Sample.isalpha
       Sample.isupper (Py.str <$> [" cat"; "Dog "; "CAT"; "x1"]%string))
  = Utils.validate_words Sample.strip Sample.upper Sample.isalpha
      Sample.isupper (Py.str <$> [" cat"; "Dog "; "CAT"; "x1"]%string).
Proof.
  apply (validate_words_idempotent Sample.strip Sample.upper
           Sample.isalpha Sample.isupper ascii_upper_of_upper
           ascii_strip_of_alpha).
Defined.

Lemma drag_selects_word_path_witness :
  get_path_between (Sample.widget (0, 0) []) (0, 0) (0, 2)
    = [(0, 0); (0, 1); (0, 2)]
  ∧ get_path_between (Sample.widget (0, 0) []) (0, 2) (0, 0)
    = [(0, 2); (0, 1); (0, 0)].
Proof.
  destruct (drag_selects_word_path (Sample.widget (0, 0) []) Sample.CAT
              0 0 (0, 1)) as ((_ & Hfwd) & (_ & Hbwd)).
  - discriminate.
  - apply list_elem_of_here.
  - unfold within. simpl. lia.
  - unfold within. simpl. lia.
  - split; [exact Hfwd|exact Hbwd].
Defined.

Lemma rows_drawable : drawable Sample.rows.
Proof. repeat constructor. Qed.

Lemma drag_path_stays_a_line_witness :
  ∃ self' current,
    pointer_moves (mousePressEvent Sample.fresh true (15, 75))
      [(45, 75); (70, 100); (105, 75)] = Some self'
    ∧ is_dragging (puzzle_grid self') = true
    ∧ head (current_temp_path (puzzle_grid self')) = Some (2, 0)
    ∧ last (current_temp_path (puzzle_grid self')) = Some current
    ∧ is_Some (redraw (puzzle_grid self')).
Proof.
  destruct (drag_path_stays_a_line Sample.fresh (15, 75)
              [(45, 75); (70, 100); (105, 75)] (2, 0))
    as (self' & current & Hrun & Hdrag & _ & Hhead & Hlast & _ & _ & _
        & Hdraws).
  - reflexivity.
  - intros g [= <-]. apply rows_drawable.
  - reflexivity.
  - exists self', current. split; [exact Hrun|]. split; [exact Hdrag|].
    split; [exact Hhead|]. split; [exact Hlast|exact Hdraws].
Defined.

Lemma sample_placement_on_rows :
  shows Sample.fresh Sample.rows
  ∧ straight (Z.of_nat (length Sample.rows))
      (Placement Sample.CAT [(0, 0); (0, 1); (0, 2)] (0, 1))
  ∧ placed_on Sample.rows
      (Placement Sample.CAT [(0, 0); (0, 1); (0, 2)] (0, 1))
  ∧ (blank ∉ Sample.CAT)
  ∧ is_target Sample.fresh Sample.CAT.
Proof.
  split; [done|]. split.
  { exists 0, 0. split; [simpl; lia|]. split; [simpl; lia|].
    split; [apply list_elem_of_here|done]. }
  split.
  { split; [done|]. split.
    - intros rc Hrc. cbn [pw_path] in Hrc.
      rewrite !elem_of_cons, elem_of_nil in Hrc.
      destruct Hrc as [->|[->|[->|[]]]]; simpl; lia.
    - intros [|[|[|i]]] letter Hi _; simpl in Hi; try done;
        injection Hi as <-; eexists; (split; [reflexivity|reflexivity]). }
  split.
  { unfold Sample.CAT, Py.str. simpl.
    rewrite !elem_of_cons, elem_of_nil. intros [|[|[|[]]]]; done. }
  split.
  - apply elem_of_union_l, elem_of_singleton. reflexivity.
  - apply not_elem_of_empty.
Qed.

Lemma placed_word_found_by_drag_witness :
  ∃ self',
    drag Sample.fresh (corner (0, 0)) (corner (0, 2)) = Some self'
    ∧ marks_found Sample.fresh self' Sample.CAT [(0, 0); (0, 1); (0, 2)]
    ∧ is_Some (redraw (puzzle_grid self')).
Proof.
  destruct sample_placement_on_rows
    as (Hshows & Hstraight & Hon & Hnb & Htarget).
  destruct (placed_word_found_by_drag Sample.fresh Sample.rows
              (Placement Sample.CAT [(0, 0); (0, 1); (0, 2)] (0, 1))
              Hshows rows_drawable Hstraight Hon)
    as (first & last_ & Hhead & Hlast & (self' & Hdrag & Hmarks & Hrest) & _).
  - discriminate.
  - exact Hnb.
  - exact Htarget.
  - injection Hhead as <-. injection Hlast as <-.
    exists self'. split; [exact Hdrag|]. split; [exact Hmarks|].
    apply Hrest.
Defined.

Lemma generated_puzzle_solvable_witness :
  ∃ self1 count s' self2,
    App.generate Sample.strip Sample.upper Sample.isalpha Sample.isupper
      Sample.fresh (Py.str " cat" ++ ["010"%char] ++ Py.str "Dog ") 6
      Sample.lcg
      = Some ((self1, Generated count), s')
    ∧ drag_each self1 (placed_words self1) = Some self2
    ∧ unfound_words self2 = ∅
    ∧ found_words self2 = words self1.
Proof.
  assert (∃ self1 count s',
            App.generate Sample.strip Sample.upper Sample.isalpha
              Sample.isupper Sample.fresh
              (Py.str " cat" ++ ["010"%char] ++ Py.str "Dog ") 6 Sample.lcg
            = Some ((self1, Generated count), s'))
    as (self1 & count & s' & Hrun).
  { vm_compute. do 3 eexists. reflexivity. }
  destruct (generated_puzzle_solvable Sample.strip Sample.upper
              Sample.isalpha Sample.isupper ascii_isalpha_no_blank
              _ _ _ _ _ _ _ Hrun)
    as (self2 & extra & Heach & Hfound & Hnone & _).
  exists self1, count, s', self2.
  split; [exact Hrun|]. split; [exact Heach|]. split; [exact Hnone|exact Hfound].
Defined.

Lemma generate_outcomes_witness :
  ∃ self1 s',
    App.generate Sample.strip Sample.upper Sample.isalpha Sample.isupper
      Sample.fresh (Py.str " cat" ++ ["010"%char] ++ Py.str "Dog ") 6
      Sample.lcg
      = Some ((self1, Generated 2), s')
    ∧ words self1
      = list_to_set
          (Utils.validate_words Sample.strip Sample.upper Sample.isalpha
             Sample.isupper
             (split "010"
                (Sample.strip
                   (Py.str " cat" ++ ["010"%char] ++ Py.str "Dog "))))
    ∧ is_Some (redraw (puzzle_grid self1)).
Proof.
  destruct (generate_outcomes Sample.strip Sample.upper Sample.isalpha
              Sample.isupper Sample.fresh
              (Py.str " cat" ++ ["010"%char] ++ Py.str "Dog ") 6 Sample.lcg)
    as (self1 & report & s' & Hrun & _ & _ & Hcase).
  assert (∃ self2 s2,
            App.generate Sample.strip Sample.upper Sample.isalpha
              Sample.isupper Sample.fresh
              (Py.str " cat" ++ ["010"%char] ++ Py.str "Dog ") 6 Sample.lcg
            = Some ((self2, Generated 2), s2))
    as (self2 & s2 & Hrun2).
  { vm_compute. do 2 eexists. reflexivity. }
  rewrite Hrun2 in Hrun. injection Hrun as <- <- <-.
  destruct Hcase as (g & _ & _ & Hwords & Hrest).
  exists self2, s2. split; [exact Hrun2|]. split; [exact Hwords|].
  apply Hrest.
Defined.

Lemma press_cancels_hint_witness :
  hint_paths
    (mousePressEvent
       (Sample.app {[Sample.CAT; Sample.DOG]} (Some Sample.CAT)
          (Sample.widget (0, 0) [])) true (15, 75)) = ∅
  ∧ selected_word
      (mousePressEvent
         (Sample.app {[Sample.CAT; Sample.DOG]} (Some Sample.CAT)
            (Sample.widget (0, 0) [])) true (15, 75)) = None
  ∧ is_Some
      (redraw
         (puzzle_grid
            (mousePressEvent
               (Sample.app {[Sample.CAT; Sample.DOG]} (Some Sample.CAT)
                  (Sample.widget (0, 0) [])) true (15, 75)))).
Proof.
  destruct (press_cancels_hint
              (Sample.app {[Sample.CAT; Sample.DOG]} (Some Sample.CAT)
                 (Sample.widget (0, 0) [])) (15, 75)) as [Hpress _].
  destruct Hpress as (Hhint & _ & Hsel & Hrest).
  - reflexivity.
  - reflexivity.
  - intros g [= <-]. apply rows_drawable.
  - split; [exact Hhint|]. split; [exact Hsel|]. apply Hrest.
Defined.

Lemma save_then_load_witness :
  save_puzzle Sample.fresh [Sample.DOG; Sample.CAT] true true
  = (with_unsaved_changes Sample.fresh false, Saved,
     Some {| pd_grid := Some Sample.rows;
             pd_words := Some [Sample.DOG; Sample.CAT];
             pd_placed_words := Some Sample.placements;
             pd_grid_size := Some 6 |})
  ∧ words (load_puzzle Sample.playing 15
             (Json {| pd_grid := Some Sample.rows;
                      pd_words := Some [Sample.DOG; Sample.CAT];
                      pd_placed_words := Some Sample.placements;
                      pd_grid_size := Some 6 |}))
    = words Sample.fresh
  ∧ grid_size (load_puzzle Sample.playing 15
                 (Json {| pd_grid := Some Sample.rows;
                          pd_words := Some [Sample.DOG; Sample.CAT];
                          pd_placed_words := Some Sample.placements;
                          pd_grid_size := Some 6 |}))
    = 10
  ∧ notices (load_puzzle Sample.playing 15
               (Json {| pd_grid := Some Sample.rows;
                        pd_words := Some [Sample.DOG; Sample.CAT];
                        pd_placed_words := Some Sample.placements;
                        pd_grid_size := Some 6 |}))
    = [PuzzleLoaded].
Proof.
  destruct (save_then_load Sample.fresh Sample.playing
              [Sample.DOG; Sample.CAT] 15 Sample.rows)
    as (Hsave & _ & Hwords & _ & Hsize & _ & _ & _ & _ & _ & _ & _ & _
        & Hok & _).
  - reflexivity.
  - discriminate.
  - apply NoDup_cons. split; [|apply NoDup_singleton].
    intros Hin. apply list_elem_of_In in Hin. simpl in Hin.
    destruct Hin as [Hin|[]]. discriminate Hin.
  - cbn. set_solver.
  - split; [exact Hsave|]. split; [exact Hwords|]. split; [exact Hsize|].
    apply Hok. repeat constructor.
Defined.

Lemma select_same_path_again_witness :
  ∃ self1 self2,
    on_word_selected Sample.fresh [(0, 0); (0, 1); (0, 2)] = Some self1
    ∧ on_word_selected self1 [(0, 0); (0, 1); (0, 2)] = Some self2
    ∧ found_paths self2 = found_paths self1.
Proof.
  assert (∃ self1,
            on_word_selected Sample.fresh [(0, 0); (0, 1); (0, 2)]
            = Some self1) as (self1 & Hrun).
  { rewrite (on_word_selected_cases Sample.fresh [(0, 0); (0, 1); (0, 2)]
               Sample.CAT eq_refl).
    eexists. reflexivity. }
  destruct (select_same_path_again Sample.fresh _ self1 Hrun)
    as (self2 & w & _ & Hagain & Hpaths & _).
  exists self1, self2. split; [exact Hrun|]. split; [exact Hagain|exact Hpaths].
Defined.

Lemma redraw_draws_every_cell_witness :
  ∃ sc,
    redraw (Sample.widget (0, 0) []) = Some sc
    ∧ length (scene_rects sc) = 36%nat.
Proof.
  destruct (redraw_draws_every_cell (Sample.widget (0, 0) []) Sample.rows 6)
    as (sc & Hrun & Hlen & _).
  - reflexivity.
  - discriminate.
  - reflexivity.
  - reflexivity.
  - exists sc. split; [exact Hrun|exact Hlen].
Defined.

End MoreInstances.
